(** * AbstractJSONRPC: the correlation engine of jsonrpc-electron

    A shallow embedding of [src/AbstractJSONRPC.ts].  The engine is one
    JavaScript object mutated by callbacks on a single thread; here every
    method is a function on an explicit [State].  The state holds the
    fields of the class ([uid], [queueTick], [scheduleQueue], [responder],
    [handlers], [listeners]) and, next to them, the part of the host the
    methods act on: the closures created by [send], the timers registered
    with [setTimeout], what was handed to [Sendable.send], the console, and
    the invocations of event listeners.

    The objects the class uses as dictionaries ([responder], [handlers],
    [listeners]) are plain objects: a key they do not hold themselves is
    looked up in [Object.prototype], so that [this.handlers["toString"]]
    is a function of the host and not [undefined].  They are finite maps
    of their own keys, read through [property].  [scheduleQueue] is keyed
    by the numeric identity of a sendable; the order in which [for-in]
    meets its keys is kept next to it.
    The arrays of listeners are objects of a store, [arrays], and the
    dictionary holds references to them: [push] and [splice] change an
    array where it is, [slice] and [removeAllListener] make a new one, and
    [forEach] reads the array it runs over at every step, so that what a
    listener does to the registry during a dispatch is seen by whoever
    holds the array.  The arrays of handlers and of queued events are read
    and changed within one turn only and are kept as values.
    A handler returns a promise; the reactions [handleRPCRequest] attaches
    to it run in a later turn, [settlePromise].
    Messages are the envelopes type.ts declares, with any string for an
    id or a method name; what [JSON.stringify] and [JSON.parse] make of
    the application data on the way is [overWire].
    The functions the application supplies (responder callbacks, event
    listeners, the [send] of a sendable) return normally; a handler may
    throw.  Of the console only the lines of [handleRPCResponse] and
    [beforeSend] are kept; the warnings printed by [getSender] and, in
    development mode, by [send] are left out, as is the development-mode
    check that the subclass defines [getSendable]. *)

From stdpp Require Import base option list strings gmap pretty sorting.
From Stdlib Require Import ZArith Lia Ascii.

Local Open Scope list_scope.
Set Warnings "-register-all".

(** ** Values and envelopes *)

(** Application data ([params], [result], [data]): JSON-like trees, plus
    [VCyclic] for a value [JSON.stringify] throws on (an object graph with
    a cycle, a BigInt). *)
Inductive Value : Type :=
| VUndefined
| VNull
| VBool (b : bool)
| VNumber (z : Z)
| VString (s : string)
| VArray (items : list Value)
| VObject (keys : list string) (vals : list Value)
| VCyclic.

Fixpoint serializable (v : Value) : bool :=
  match v with
  | VCyclic => false
  | VArray items => forallb serializable items
  | VObject _ vals => forallb serializable vals
  | _ => true
  end.

(** What [JSON.parse] reads back from the text [JSON.stringify] wrote for
    a value that serializes: an element of an array that is [undefined]
    comes back as [null], and a member of an object whose value is
    [undefined] is left out, as is a member of an envelope. *)
Fixpoint overWire (v : Value) : Value :=
  match v with
  | VArray items =>
      VArray
        ((fix elements (l : list Value) : list Value :=
            match l with
            | [] => []
            | x :: rest =>
                match x with
                | VUndefined => VNull
                | _ => overWire x
                end :: elements rest
            end) items)
  | VObject keys vals =>
      let members :=
        (fix members (ks : list string) (vs : list Value) {struct vs}
           : list (string * Value) :=
           match vs, ks with
           | x :: vs, k :: ks =>
               match x with
               | VUndefined => members ks vs
               | _ => (k, overWire x) :: members ks vs
               end
           | _, _ => []
           end) keys vals in
      VObject members.*1 members.*2
  | _ => v
  end.

(** A JavaScript number as far as [send] inspects its [timeout] argument:
    truthiness, [> 0] and [!== Infinity].  Finite values are whole
    milliseconds. *)
Inductive JSNumber : Type :=
| Finite (z : Z)
| PosInfinity
| NegInfinity
| NaN.

Definition truthy (n : JSNumber) : bool :=
  match n with
  | Finite z => negb (z =? 0)%Z
  | PosInfinity | NegInfinity => true
  | NaN => false
  end.

Definition gt0 (n : JSNumber) : bool :=
  match n with
  | Finite z => (0 <? z)%Z
  | PosInfinity => true
  | NegInfinity | NaN => false
  end.

Definition isInfinity (n : JSNumber) : bool :=
  match n with PosInfinity => true | _ => false end.

(** Modelled from the spec: the declaration of [Sendable] (type.ts) is not
    part of the sources.  It is the transport capability a target resolves
    to; the code reads its field [id], the identity routing compares, and
    calls its method [send], named here by a number. *)
Module Sendable.
Record t : Type := Build { id : N; send : nat }.
End Sendable.

(** Modelled from the spec: the declaration of [JSONRPCTarget] (type.ts) is
    not part of the sources.  A target is an opaque destination identifier:
    a number (a webContents id, or the reserved sentinel [MAIN_TARGET] of
    constants.ts) or a window / webContents object.  An omitted target is
    [None]. *)
Inductive JSONRPCTarget : Type :=
| ContentsId (n : N)
| ObjectRef (o : nat).

(** What [target &&] tests: of the numbers 0 is falsy, an object is
    truthy. *)
Definition truthy_target (t : JSONRPCTarget) : bool :=
  match t with
  | ContentsId n => negb (n =? 0)%N
  | ObjectRef _ => true
  end.

(** What the abstract method [getSendable] does with a target: return a
    sendable, return [undefined], or throw. *)
Inductive Lookup : Type :=
| Found (s : Sendable.t)
| Released
| LookupThrows.

(** Modelled from the spec: the enumeration [JSONRPCErrorCode] (type.ts) is
    not part of the sources; its four members are named by the code, and
    applications add codes of their own. *)
Inductive JSONRPCErrorCode : Type :=
| NotFound
| Timeout
| TargetReleased
| UnKnown
| AppCode (c : Z).

(** Modelled from the spec: the channel names [RPC_SEND_CHANNEL] and
    [RPC_RECEIVE_CHANNEL] (constants.ts) are not part of the sources; they
    are kept as two names. *)
Inductive Channel : Type :=
| RPC_SEND_CHANNEL
| RPC_RECEIVE_CHANNEL.

(** [JSONRPCRequest | JSONRPCEvent]: the object literal built by [send].
    [req_id] is its field [id]; an event is the same object with [id]
    undefined. *)
Record JSONRPCRequest : Type := {
  method : string;
  req_id : option string;
  params : Value;
}.

(** The message of an error: a plain string, or one of the templates of
    the code kept as its holes: the message of [TargetReleased] (what the
    target prints as), the message of [Timeout], and the template of
    [recoverFromResponse], [name(JSON.stringify(args))]: message. *)
Inductive ErrorMessage : Type :=
| Plain (s : string)
| ReleasedTarget (target : JSONRPCTarget)
| TimedOut (method : string)
| Recovered (name : string) (args : Value) (msg : ErrorMessage).

(** A stack trace: the text captured by [new Error().stack] when an error
    object is constructed, or a given string. *)
Inductive Stack : Type :=
| CapturedStack
| StackText (s : string).

Definition truthy_stack (s : Stack) : bool :=
  match s with
  | CapturedStack => true
  | StackText s => negb (bool_decide (s = ""))
  end.

Record ErrorData : Type := {
  data : Value;
  stack : option Stack;
}.

Record ResponseErrorBody : Type := {
  code : JSONRPCErrorCode;
  message : ErrorMessage;
  error_data : option ErrorData;
}.

(** A response.  The code takes the branch of an error when the member
    [error] is there at all; [JSONRPCResponseErrorNull] is a response
    whose member [error] is [null], as a peer speaking JSON-RPC 1.0 sends
    with a result. *)
Inductive JSONRPCResponse : Type :=
| JSONRPCResponseSuccess (id : string) (result : Value)
| JSONRPCResponseError (id : string) (error : ResponseErrorBody)
| JSONRPCResponseErrorNull (id : string).

Definition response_id (res : JSONRPCResponse) : string :=
  match res with
  | JSONRPCResponseSuccess i _ => i
  | JSONRPCResponseError i _ => i
  | JSONRPCResponseErrorNull i => i
  end.

(** The argument of [handleRPCRequest], by its type
    [JSONRPCRequest | JSONRPCRequest[]]: one envelope or an array of
    envelopes. *)
Inductive RequestMessage : Type :=
| One (req : JSONRPCRequest)
| Many (reqs : list JSONRPCRequest).

(** What [beforeSend] is asked to serialize. *)
Inductive Payload : Type :=
| OfRequest (m : RequestMessage)
| OfResponse (res : JSONRPCResponse).

(** Text received from the transport, described by what [JSON.parse] makes
    of it: a syntax error, or the value it denotes. *)
Inductive Wire (A : Type) : Type :=
| Malformed
| Text (a : A).
Arguments Malformed {A}.
Arguments Text {A} a.

(** [JSON.stringify] throws exactly on values that are not serializable. *)
Definition serializable_request (r : JSONRPCRequest) : bool :=
  serializable (params r).

Definition serializable_payload (p : Payload) : bool :=
  match p with
  | OfRequest (One r) => serializable_request r
  | OfRequest (Many rs) => forallb serializable_request rs
  | OfResponse (JSONRPCResponseSuccess _ result) => serializable result
  | OfResponse (JSONRPCResponseError _ e) =>
      match error_data e with
      | Some d => serializable (data d)
      | None => true
      end
  | OfResponse (JSONRPCResponseErrorNull _) => true
  end.

(** The envelopes the peer reads for the envelopes that were
    serialized. *)
Definition wireRequest (r : JSONRPCRequest) : JSONRPCRequest :=
  {| method := method r; req_id := req_id r; params := overWire (params r) |}.

Definition wireMessage (m : RequestMessage) : RequestMessage :=
  match m with
  | One r => One (wireRequest r)
  | Many rs => Many (map wireRequest rs)
  end.

Definition wireResponse (res : JSONRPCResponse) : JSONRPCResponse :=
  match res with
  | JSONRPCResponseSuccess id result => JSONRPCResponseSuccess id (overWire result)
  | JSONRPCResponseError id e =>
      JSONRPCResponseError id
        {| code := code e; message := message e;
           error_data :=
             (λ d, {| data := overWire (data d); stack := stack d |})
               <$> error_data e |}
  | JSONRPCResponseErrorNull id => JSONRPCResponseErrorNull id
  end.

(** ** Errors *)

Module JSONRPCError.
Record t : Type := Build {
  code : JSONRPCErrorCode;
  message : ErrorMessage;
  data : option Value;
  stack : Stack;
  methodName : option string;
  args : option Value;
}.

(** [new JSONRPCError(code, message, data)] *)
Definition new (c : JSONRPCErrorCode) (m : ErrorMessage) (d : option Value) : t :=
  {| code := c; message := m; data := d; stack := CapturedStack;
     methodName := None; args := None |}.
End JSONRPCError.

(** What a [ResponderCallback] is called with: [(result)] or
    [(undefined, error)]. *)
Inductive Settlement : Type :=
| Fulfilled (result : Value)
| Rejected (error : JSONRPCError.t).

(** Functions supplied by the application are compared by reference. *)
Definition ResponderCallback := nat.
Definition HandlerCallback := nat.
Definition EventCallback := nat.

(** [Responder]: an entry of the correlation table.  Its [callback] is the
    closure built by [send]; [closure] names the record holding that
    closure's variables. *)
Record Responder : Type := {
  closure : nat;
  name : string;
  args : Value;
}.

Record HandlerEntry : Type := {
  handler_target : option JSONRPCTarget;
  handler_callback : HandlerCallback;
}.

Record ListenerEntry : Type := {
  listener_target : option JSONRPCTarget;
  listener_callback : EventCallback;
}.

(** One record per invocation of [send] with a callback: the callback and
    the id it was given, the variables [resolved] and [timer] its closures
    share, and every call made to the callback so far.  When the target
    does not resolve the two variables are never created; the record then
    only holds the rejection. *)
Record Call : Type := {
  callback : ResponderCallback;
  call_id : string;
  resolved : bool;
  timer : option nat;
  settlements : list Settlement;
}.

(** What a pending timer runs: the timeout closure of a call, or
    [flushQueue]. *)
Inductive TimerTask : Type :=
| TimeoutTask (call : nat) (id : string) (method : string) (delay : JSNumber)
| FlushTask.

Definition QueueItem : Type := Channel * Sendable.t * JSONRPCRequest.

Definition Transmission : Type := Sendable.t * Channel * Payload.

Inductive LogLine : Type :=
| WarnResponderNotFound (id : string)
| ErrorFailedToSerialize (p : Payload).

(** How a call of a handler ends: the handler throws, or it returns a
    promise, which is fulfilled, is rejected with a [JSONRPCError], with
    [undefined] or [null], or with any other value (given by what
    [err.message || err] and [err.stack] are for it), or is never
    settled. *)
Inductive HandlerOutcome : Type :=
| Resolves (result : Value)
| RejectsWith (err : JSONRPCError.t)
| RejectsOther (message : ErrorMessage) (stack : option Stack)
| RejectsNullish
| NeverSettles
| HandlerThrows.

(** A promise returned by a handler, with the reactions
    [handleRPCRequest] attached to it: whom the response goes to, the id
    of the request, and how the promise settles. *)
Record PendingReply : Type := {
  reply_sender : Sendable.t;
  reply_id : string;
  reply_fate : HandlerOutcome;
}.

(** [queueOrder] holds the keys of [scheduleQueue] in the order they were
    created; [promises] the promises of handlers that have not settled. *)
Record State : Type := {
  uid : N;
  queueTick : N;
  scheduleQueue : gmap N (list QueueItem);
  queueOrder : list N;
  responder : gmap string Responder;
  handlers : gmap string (list HandlerEntry);
  listeners : gmap string nat;
  arrays : list (list ListenerEntry);
  calls : list Call;
  timers : gmap nat TimerTask;
  next_timer : nat;
  promises : list PendingReply;
  sent : list Transmission;
  console : list LogLine;
  heard : list (EventCallback * Value * N);
}.

(** Field updates. *)
Definition set_uid (v : N) (st : State) : State :=
  {| uid := v; queueTick := queueTick st; scheduleQueue := scheduleQueue st;
     queueOrder := queueOrder st; responder := responder st;
     handlers := handlers st; listeners := listeners st; arrays := arrays st;
     calls := calls st; timers := timers st; next_timer := next_timer st;
     promises := promises st; sent := sent st; console := console st;
     heard := heard st |}.

Definition set_queueTick (v : N) (st : State) : State :=
  {| uid := uid st; queueTick := v; scheduleQueue := scheduleQueue st;
     queueOrder := queueOrder st; responder := responder st;
     handlers := handlers st; listeners := listeners st; arrays := arrays st;
     calls := calls st; timers := timers st; next_timer := next_timer st;
     promises := promises st; sent := sent st; console := console st;
     heard := heard st |}.

Definition set_scheduleQueue (v : gmap N (list QueueItem)) (st : State) : State :=
  {| uid := uid st; queueTick := queueTick st; scheduleQueue := v;
     queueOrder := queueOrder st; responder := responder st;
     handlers := handlers st; listeners := listeners st; arrays := arrays st;
     calls := calls st; timers := timers st; next_timer := next_timer st;
     promises := promises st; sent := sent st; console := console st;
     heard := heard st |}.

Definition set_queueOrder (v : list N) (st : State) : State :=
  {| uid := uid st; queueTick := queueTick st;
     scheduleQueue := scheduleQueue st; queueOrder := v;
     responder := responder st; handlers := handlers st;
     listeners := listeners st; arrays := arrays st; calls := calls st;
     timers := timers st; next_timer := next_timer st;
     promises := promises st; sent := sent st; console := console st;
     heard := heard st |}.

Definition set_responder (v : gmap string Responder) (st : State) : State :=
  {| uid := uid st; queueTick := queueTick st;
     scheduleQueue := scheduleQueue st; queueOrder := queueOrder st;
     responder := v; handlers := handlers st; listeners := listeners st;
     arrays := arrays st; calls := calls st; timers := timers st;
     next_timer := next_timer st; promises := promises st; sent := sent st;
     console := console st; heard := heard st |}.

Definition set_handlers (v : gmap string (list HandlerEntry)) (st : State) : State :=
  {| uid := uid st; queueTick := queueTick st;
     scheduleQueue := scheduleQueue st; queueOrder := queueOrder st;
     responder := responder st; handlers := v; listeners := listeners st;
     arrays := arrays st; calls := calls st; timers := timers st;
     next_timer := next_timer st; promises := promises st; sent := sent st;
     console := console st; heard := heard st |}.

Definition set_listeners (v : gmap string nat) (st : State) : State :=
  {| uid := uid st; queueTick := queueTick st;
     scheduleQueue := scheduleQueue st; queueOrder := queueOrder st;
     responder := responder st; handlers := handlers st; listeners := v;
     arrays := arrays st; calls := calls st; timers := timers st;
     next_timer := next_timer st; promises := promises st; sent := sent st;
     console := console st; heard := heard st |}.

Definition set_arrays (v : list (list ListenerEntry)) (st : State) : State :=
  {| uid := uid st; queueTick := queueTick st;
     scheduleQueue := scheduleQueue st; queueOrder := queueOrder st;
     responder := responder st; handlers := handlers st;
     listeners := listeners st; arrays := v; calls := calls st;
     timers := timers st; next_timer := next_timer st;
     promises := promises st; sent := sent st; console := console st;
     heard := heard st |}.

Definition set_calls (v : list Call) (st : State) : State :=
  {| uid := uid st; queueTick := queueTick st;
     scheduleQueue := scheduleQueue st; queueOrder := queueOrder st;
     responder := responder st; handlers := handlers st;
     listeners := listeners st; arrays := arrays st; calls := v;
     timers := timers st; next_timer := next_timer st;
     promises := promises st; sent := sent st; console := console st;
     heard := heard st |}.

Definition set_timers (v : gmap nat TimerTask) (st : State) : State :=
  {| uid := uid st; queueTick := queueTick st;
     scheduleQueue := scheduleQueue st; queueOrder := queueOrder st;
     responder := responder st; handlers := handlers st;
     listeners := listeners st; arrays := arrays st; calls := calls st;
     timers := v; next_timer := next_timer st; promises := promises st;
     sent := sent st; console := console st; heard := heard st |}.

Definition set_next_timer (v : nat) (st : State) : State :=
  {| uid := uid st; queueTick := queueTick st;
     scheduleQueue := scheduleQueue st; queueOrder := queueOrder st;
     responder := responder st; handlers := handlers st;
     listeners := listeners st; arrays := arrays st; calls := calls st;
     timers := timers st; next_timer := v; promises := promises st;
     sent := sent st; console := console st; heard := heard st |}.

Definition set_promises (v : list PendingReply) (st : State) : State :=
  {| uid := uid st; queueTick := queueTick st;
     scheduleQueue := scheduleQueue st; queueOrder := queueOrder st;
     responder := responder st; handlers := handlers st;
     listeners := listeners st; arrays := arrays st; calls := calls st;
     timers := timers st; next_timer := next_timer st; promises := v;
     sent := sent st; console := console st; heard := heard st |}.

Definition set_sent (v : list Transmission) (st : State) : State :=
  {| uid := uid st; queueTick := queueTick st;
     scheduleQueue := scheduleQueue st; queueOrder := queueOrder st;
     responder := responder st; handlers := handlers st;
     listeners := listeners st; arrays := arrays st; calls := calls st;
     timers := timers st; next_timer := next_timer st;
     promises := promises st; sent := v; console := console st;
     heard := heard st |}.

Definition set_console (v : list LogLine) (st : State) : State :=
  {| uid := uid st; queueTick := queueTick st;
     scheduleQueue := scheduleQueue st; queueOrder := queueOrder st;
     responder := responder st; handlers := handlers st;
     listeners := listeners st; arrays := arrays st; calls := calls st;
     timers := timers st; next_timer := next_timer st;
     promises := promises st; sent := sent st; console := v;
     heard := heard st |}.

Definition set_heard (v : list (EventCallback * Value * N)) (st : State) : State :=
  {| uid := uid st; queueTick := queueTick st;
     scheduleQueue := scheduleQueue st; queueOrder := queueOrder st;
     responder := responder st; handlers := handlers st;
     listeners := listeners st; arrays := arrays st; calls := calls st;
     timers := timers st; next_timer := next_timer st;
     promises := promises st; sent := sent st; console := console st;
     heard := v |}.

(** ** Exceptions *)

(** What is thrown: the [SyntaxError] of [JSON.parse]; a [TypeError] of
    the host (a call of something that is no function, a member read of
    [null], [JSON.stringify] on a cycle); the two errors [registerHandler]
    throws; whatever a handler throws. *)
Inductive Exception : Type :=
| SyntaxError
| TypeError
| GlobalHandlerExists (method : string)
| TargetHandlerExists (target : JSONRPCTarget) (method : string)
| HandlerError.

(** The value of an expression that may throw. *)
Inductive Result (A : Type) : Type :=
| Return (a : A)
| Raise (e : Exception).
Arguments Return {A} a.
Arguments Raise {A} e.

(** How a method that may throw leaves the engine. *)
Inductive Completion : Type :=
| Normal (st : State)
| Throw (e : Exception) (st : State).

Definition state_of (c : Completion) : State :=
  match c with Normal st => st | Throw _ st => st end.

(** ** What application callbacks do *)

(** The calls a listener makes on the listener registry while it runs. *)
Inductive ListenerAction : Type :=
| DoOn (method : string) (callback : EventCallback) (target : option JSONRPCTarget)
| DoOff (method : string) (callback : EventCallback) (target : option JSONRPCTarget)
| DoRemoveAllListener (target : option JSONRPCTarget).

Definition MAX_SAFE_INTEGER : N := 9007199254740991.

Definition init : State :=
  {| uid := 0; queueTick := 0; scheduleQueue := ∅; queueOrder := [];
     responder := ∅; handlers := ∅; listeners := ∅; arrays := [];
     calls := []; timers := ∅; next_timer := 1; promises := [];
     sent := []; console := []; heard := [] |}.

(** *** Plain objects used as dictionaries *)

(** The members every plain object inherits from [Object.prototype]. *)
Definition objectPrototype : list string :=
  ["constructor"; "hasOwnProperty"; "isPrototypeOf"; "propertyIsEnumerable";
   "toLocaleString"; "toString"; "valueOf"; "__proto__";
   "__defineGetter__"; "__defineSetter__"; "__lookupGetter__";
   "__lookupSetter__"].

Definition inherited (key : string) : bool := bool_decide (key ∈ objectPrototype).

(** What [obj[key]] reads: a value the object holds itself, a member of
    [Object.prototype] (a function, or the prototype itself under
    [__proto__]: never [null], [undefined] or an array), or
    [undefined]. *)
Inductive Slot (A : Type) : Type :=
| Own (a : A)
| Inherited
| Absent.
Arguments Own {A} a.
Arguments Inherited {A}.
Arguments Absent {A}.

Definition property {A : Type} (obj : gmap string A) (key : string) : Slot A :=
  match obj !! key with
  | Some a => Own a
  | None => if inherited key then Inherited else Absent
  end.

(** [Array.prototype.forEach] on the array object [a]: the indices below
    the length the array has at the start are visited in ascending order,
    and at each the array is read as it is then; an index the array no
    longer has is skipped. *)
Definition forEach (a : nat) (f : ListenerEntry → State → State) (st : State) : State :=
  foldl (λ st k, match arrays st !! a ≫= (.!! k) with
                 | Some i => f i st
                 | None => st
                 end)
    st (seq 0 (length (default [] (arrays st !! a)))).

(** [Array.prototype.findIndex], with [None] for -1. *)
Fixpoint findIndex {A : Type} (f : A → bool) (l : list A) : option nat :=
  match l with
  | [] => None
  | x :: rest => if f x then Some 0 else S <$> findIndex f rest
  end.

(** [JSON.parse] *)
Definition beforeReceive {A : Type} (payload : Wire A) : Result A :=
  match payload with
  | Malformed => Raise SyntaxError
  | Text a => Return a
  end.

(** Modelled from the spec: [isEvent] (utils.ts) is not part of the
    sources; an envelope is an event when it carries no id. *)
Definition isEvent (payload : JSONRPCRequest) : bool :=
  match req_id payload with None => true | Some _ => false end.

(** [setTimeout] and [clearTimeout] of the host.  Timer handles are
    numbered from 1, so a handle is a truthy value, as [if (timer)]
    expects. *)
Definition setTimeout (task : TimerTask) (st : State) : nat * State :=
  let t := next_timer st in
  (t, set_next_timer (S t) (set_timers (<[t := task]> (timers st)) st)).

Definition clearTimeout (t : nat) (st : State) : State :=
  set_timers (delete t (timers st)) st.

(** [beforeSend]: serialize and hand to the sendable; a throw of
    [JSON.stringify] is caught and logged. *)
Definition beforeSend (sender : Sendable.t) (channel : Channel) (payload : Payload)
    (st : State) : State :=
  if serializable_payload payload
  then set_sent (sent st ++ [(sender, channel, payload)]) st
  else set_console (console st ++ [ErrorFailedToSerialize payload]) st.

(** The body of the loop of [flushQueue] for one key of the queue.  The
    queue of a key is created by the push that fills it and is never
    empty. *)
Definition flushOne (st : State) (entry : N * list QueueItem) : State :=
  match entry.2 with
  | [] => st
  | (channel, sendable, payload) :: rest =>
      if bool_decide (1 < length entry.2)
      then beforeSend sendable channel (OfRequest (Many (map snd entry.2))) st
      else beforeSend sendable channel (OfRequest (One payload)) st
  end.

(** A key that is an array index: a whole number below 2^32 - 1. *)
Definition isArrayIndex (k : N) : bool := (k <? 4294967295)%N.

(** [for (const id in queue)]: the keys that are array indices come
    first, in ascending order, then the other keys in the order they were
    created. *)
Definition queue_keys (order : list N) : list N :=
  merge_sort N.le (filter (λ k, isArrayIndex k = true) order)
  ++ filter (λ k, isArrayIndex k = false) order.

Definition queue_entries (queue : gmap N (list QueueItem)) (order : list N)
    : list (N * list QueueItem) :=
  omap (λ k, pair k <$> queue !! k) (queue_keys order).

Definition flushQueue (st : State) : State :=
  let st := set_queueTick 0 st in
  let queue := scheduleQueue st in
  let order := queueOrder st in
  let st := set_queueOrder [] (set_scheduleQueue ∅ st) in
  foldl flushOne st (queue_entries queue order).

(** [scheduleRequest].  The keys of [scheduleQueue] are numbers, which no
    member of [Object.prototype] is named by. *)
Definition scheduleRequest (channel : Channel) (sendable : Sendable.t)
    (payload : JSONRPCRequest) (st : State) : State :=
  if isEvent payload then
    let id := Sendable.id sendable in
    let q := default [] (scheduleQueue st !! id) in
    let order := match scheduleQueue st !! id with
                 | Some _ => queueOrder st
                 | None => queueOrder st ++ [id]
                 end in
    let st := set_queueOrder order st in
    let st := set_scheduleQueue (<[id := q ++ [(channel, sendable, payload)]]> (scheduleQueue st)) st in
    let tick := queueTick st in
    let st := set_queueTick (tick + 1)%N st in
    if (tick =? 0)%N then (setTimeout FlushTask st).2 else st
  else beforeSend sendable channel (OfRequest (One payload)) st.

(** [getId]; [now] is the reading of [Date.now()]. *)
Definition getId (now : N) (st : State) : string * State :=
  let u := ((uid st + 1) `mod` MAX_SAFE_INTEGER)%N in
  (pretty u +:+ pretty now, set_uid u st).

Definition settle (s : Settlement) (c : Call) : Call :=
  {| callback := callback c; call_id := call_id c; resolved := true;
     timer := timer c; settlements := settlements c ++ [s] |}.

(** The closure stored as [callback] of a responder entry. *)
Definition responder_callback (c : nat) (s : Settlement) (st : State) : State :=
  match calls st !! c with
  | None => st
  | Some call =>
      if resolved call then st
      else
        let st := match timer call with
                  | Some t => clearTimeout t st
                  | None => st
                  end in
        set_calls (<[c := settle s call]> (calls st)) st
  end.

(** [JSONRPCError.recoverFromResponse].  The message is built with
    [JSON.stringify(responder.args)], which throws on parameters that do
    not serialize. *)
Definition recoverFromResponse (e : ResponseErrorBody) (r : Responder)
    : Result JSONRPCError.t :=
  if serializable (args r)
  then Return
         {| JSONRPCError.code := code e;
            JSONRPCError.message := Recovered (name r) (args r) (message e);
            JSONRPCError.data := data <$> error_data e;
            JSONRPCError.stack :=
              match error_data e ≫= stack with
              | Some s => if truthy_stack s then s else CapturedStack
              | None => CapturedStack
              end;
            JSONRPCError.methodName := Some (name r);
            JSONRPCError.args := Some (args r) |}
  else Raise TypeError.

(** The arguments [handleRPCResponse] computes for the callback of the
    responder [r]: [(res.result)], or [(undefined, error)] with the error
    recovered from [res].  With [error: null] the member read
    [res.error.message] throws. *)
Definition settlement_of (res : JSONRPCResponse) (r : Responder) : Result Settlement :=
  match res with
  | JSONRPCResponseSuccess _ result => Return (Fulfilled result)
  | JSONRPCResponseError _ e =>
      match recoverFromResponse e r with
      | Return err => Return (Rejected err)
      | Raise x => Raise x
      end
  | JSONRPCResponseErrorNull _ => Raise TypeError
  end.

(** [handleRPCResponse].  Under an id that names a member of
    [Object.prototype] and is not a key of [responder], [this.responder[id]]
    is that member: it is not [null], and it has no [callback] to call. *)
Definition handleRPCResponse (res : JSONRPCResponse) (st : State) : Completion :=
  let id := response_id res in
  match property (responder st) id with
  | Absent => Normal (set_console (console st ++ [WarnResponderNotFound id]) st)
  | Inherited => Throw TypeError st
  | Own r =>
      match settlement_of res r with
      | Raise x => Throw x st
      | Return s =>
          let st := responder_callback (closure r) s st in
          Normal (set_responder (delete id (responder st)) st)
      end
  end.

Definition handleResponse (res : Wire JSONRPCResponse) (st : State) : Completion :=
  match beforeReceive res with
  | Raise e => Throw e st
  | Return r => handleRPCResponse r st
  end.

(** The closure [send] passes to [setTimeout]. *)
Definition timeout_callback (c : nat) (id method : string) (st : State) : State :=
  match calls st !! c with
  | None => st
  | Some call =>
      if resolved call then st
      else
        let err := JSONRPCError.new Timeout (TimedOut method) None in
        let st := set_calls (<[c := settle (Rejected err) call]> (calls st)) st in
        set_responder (delete id (responder st)) st
  end.

(** A pending timer comes due. *)
Definition fireTimer (t : nat) (st : State) : State :=
  match timers st !! t with
  | None => st
  | Some task =>
      let st := set_timers (delete t (timers st)) st in
      match task with
      | FlushTask => flushQueue st
      | TimeoutTask c id method _ => timeout_callback c id method st
      end
  end.

(** ** The engine

    [getSendable] is the abstract method a subclass supplies,
    [DEFAULT_TIMEOUT] the constant of constants.ts; [listener_body] and
    [handler_result] say what the application's listeners and handlers do
    when called with [(params, sender.id)]. *)
Section Engine.
Variable getSendable : JSONRPCTarget → Lookup.
Variable DEFAULT_TIMEOUT : JSNumber.
Variable listener_body : EventCallback → Value → N → list ListenerAction.
Variable handler_result : HandlerCallback → Value → N → HandlerOutcome.

(** [getSender]: a throw of [getSendable] is caught and reads as
    [undefined]. *)
Definition getSender (target : JSONRPCTarget) : option Sendable.t :=
  match getSendable target with
  | Found s => Some s
  | Released | LookupThrows => None
  end.

Definition isTargetEqual (a b : option JSONRPCTarget) : bool :=
  match a, b with
  | None, None => true
  | None, Some _ | Some _, None => false
  | Some a, Some b =>
      match getSender a, getSender b with
      | Some sendableA, Some sendableB =>
          (Sendable.id sendableA =? Sendable.id sendableB)%N
      | _, _ => false
      end
  end.

Definition isSenderMatchTarget (a : Sendable.t) (target : option JSONRPCTarget) : bool :=
  match target with
  | None => true
  | Some target =>
      match getSender target with
      | Some t => (Sendable.id t =? Sendable.id a)%N
      | None => false
      end
  end.

(** *** Listener registry *)

(** [this.listeners[method]], as the entries of the array it refers to. *)
Definition listenersOf (method : string) (st : State) : list ListenerEntry :=
  match listeners st !! method with
  | Some a => default [] (arrays st !! a)
  | None => []
  end.

(** A new array object holding [l]. *)
Definition newArray (l : list ListenerEntry) (st : State) : nat * State :=
  (length (arrays st), set_arrays (arrays st ++ [l]) st).

(** [on].  Under a method name that [Object.prototype] has and the
    registry has not, [this.listeners[method]] is truthy and has no
    [push]. *)
Definition on (method : string) (callback : EventCallback)
    (target : option JSONRPCTarget) (st : State) : Completion :=
  let entry := {| listener_target := target; listener_callback := callback |} in
  match property (listeners st) method with
  | Own a => Normal (set_arrays (alter (λ l, l ++ [entry]) a (arrays st)) st)
  | Inherited => Throw TypeError st
  | Absent =>
      let '(a, st) := newArray [entry] st in
      Normal (set_listeners (<[method := a]> (listeners st)) st)
  end.

(** [off]: what it returns or throws, and the state it leaves. *)
Definition off (method : string) (callback : EventCallback)
    (target : option JSONRPCTarget) (st : State) : Result bool * State :=
  match property (listeners st) method with
  | Own a =>
      match findIndex (λ i, (listener_callback i =? callback)%nat
                             && isTargetEqual (listener_target i) target)
              (default [] (arrays st !! a)) with
      | Some idx => (Return true, set_arrays (alter (delete idx) a (arrays st)) st)
      | None => (Return false, st)
      end
  | Inherited => (Raise TypeError, st)
  | Absent => (Return false, st)
  end.

(** The body of the loop of [removeAllListener] for one method. *)
Definition pruneMethod (target : option JSONRPCTarget) (st : State)
    (entry : string * nat) : State :=
  let l := default [] (arrays st !! entry.2) in
  let list := filter (λ l, isTargetEqual target (listener_target l) = false) l in
  if bool_decide (length l ≠ length list)
  then let '(a, st) := newArray list st in
       set_listeners (<[entry.1 := a]> (listeners st)) st
  else st.

(** [removeAllListener].  The order in which [for (const method in
    this.listeners)] meets the methods only decides how the new arrays
    are numbered. *)
Definition removeAllListener (target : option JSONRPCTarget) (st : State) : State :=
  match target with
  | None => set_listeners ∅ st
  | Some _ => foldl (pruneMethod target) st (map_to_list (listeners st))
  end.

(** *** Handler registry *)

(** [registerHandler].  The first guard tests [target == null], the
    second [target &&], which a target that is the number 0 does not
    pass.  The message of the second error holds
    [JSON.stringify(target)]. *)
Definition registerHandler (method : string) (handler : HandlerCallback)
    (target : option JSONRPCTarget) (st : State) : Completion :=
  let entry := {| handler_target := target; handler_callback := handler |} in
  match property (handlers st) method with
  | Own l =>
      let push := Normal (set_handlers (<[method := l ++ [entry]]> (handlers st)) st) in
      match target with
      | None =>
          if existsb (λ i, bool_decide (handler_target i = None)) l
          then Throw (GlobalHandlerExists method) st
          else push
      | Some t =>
          if truthy_target t && existsb (λ i, isTargetEqual target (handler_target i)) l
          then Throw (TargetHandlerExists t method) st
          else push
      end
  | Inherited => Throw TypeError st
  | Absent => Normal (set_handlers (<[method := [entry]]> (handlers st)) st)
  end.

Definition unregisterHandler (method : string) (target : option JSONRPCTarget)
    (st : State) : Result bool * State :=
  match property (handlers st) method with
  | Own l =>
      match findIndex (λ i, isTargetEqual (handler_target i) target) l with
      | Some idx =>
          (Return true, set_handlers (<[method := delete idx l]> (handlers st)) st)
      | None => (Return false, st)
      end
  | Inherited => (Raise TypeError, st)
  | Absent => (Return false, st)
  end.

(** *** Sending *)

(** The block of [send] guarded by [if (!isEvent)]: the timer and the
    responder entry of a call. *)
Definition expectResponse (callback : ResponderCallback) (id method : string)
    (params : Value) (timeout : option JSNumber) (st : State) : State :=
  let c := length (calls st) in
  let _timeout :=
    match timeout with
    | Some t => if truthy t then t else DEFAULT_TIMEOUT
    | None => DEFAULT_TIMEOUT
    end in
  let timeoutEnabled := gt0 _timeout && negb (isInfinity _timeout) in
  let '(timer, st) :=
    if timeoutEnabled
    then let '(t, st) := setTimeout (TimeoutTask c id method _timeout) st in (Some t, st)
    else (None, st) in
  let st := set_calls (calls st ++ [{| callback := callback; call_id := id;
                                       resolved := false; timer := timer;
                                       settlements := [] |}]) st in
  set_responder (<[id := {| closure := c; name := method; args := params |}]>
                   (responder st)) st.

(** The call of [callback] with [TargetReleased] when the target does
    not resolve. *)
Definition rejectReleased (callback : ResponderCallback) (id : string)
    (target : JSONRPCTarget) (st : State) : State :=
  let err := JSONRPCError.new TargetReleased (ReleasedTarget target) None in
  set_calls (calls st ++ [{| callback := callback; call_id := id;
                             resolved := false; timer := None;
                             settlements := [Rejected err] |}]) st.

(** [send]; [now] is what [Date.now()] reads if [getId] is called. *)
Definition send (now : N) (target : JSONRPCTarget) (method : string) (params : Value)
    (callback : option ResponderCallback) (timeout : option JSNumber)
    (st : State) : bool * State :=
  let '(id, st) :=
    match callback with
    | None => (None, st)
    | Some _ => let '(i, st) := getId now st in (Some i, st)
    end in
  let payload := {| method := method; req_id := id; params := params |} in
  match getSender target with
  | None =>
      match callback, id with
      | Some cb, Some i => (false, rejectReleased cb i target st)
      | _, _ => (false, st)
      end
  | Some sendable =>
      let st :=
        match callback, id with
        | Some cb, Some i => expectResponse cb i method params timeout st
        | _, _ => st
        end in
      (true, scheduleRequest RPC_SEND_CHANNEL sendable payload st)
  end.

Definition emit (target : JSONRPCTarget) (method : string) (params : Value)
    (st : State) : State :=
  (send 0 target method params None None st).2.

(** [callHandler]: the callback is the closure of a new promise, named
    here after the call record it is given. *)
Definition callHandler (now : N) (target : JSONRPCTarget) (method : string)
    (params : Value) (timeout : option JSNumber) (st : State) : State :=
  (send now target method params (Some (length (calls st))) timeout st).2.

(** *** Receiving *)

(** The loop of [getHandlerFor]; [handler] is the variable it assigns. *)
Fixpoint scanHandlers (sender : Sendable.t) (items : list HandlerEntry)
    (handler : option HandlerEntry) : option HandlerEntry :=
  match items with
  | [] => handler
  | item :: rest =>
      match handler_target item with
      | None => scanHandlers sender rest (Some item)
      | Some _ =>
          if isSenderMatchTarget sender (handler_target item)
          then Some item
          else scanHandlers sender rest handler
      end
  end.

(** [getHandlerFor].  A member of [Object.prototype] is not [null] and
    cannot be iterated by [for-of]. *)
Definition getHandlerFor (method : string) (sender : Sendable.t) (st : State)
    : Result (option HandlerEntry) :=
  match property (handlers st) method with
  | Absent => Return None
  | Inherited => Raise TypeError
  | Own l => Return (scanHandlers sender l None)
  end.

(** A call a listener makes on the registry.  The listener returns
    normally: when the call throws, it is the listener that catches. *)
Definition perform (st : State) (a : ListenerAction) : State :=
  match a with
  | DoOn method callback target => state_of (on method callback target st)
  | DoOff method callback target => (off method callback target st).2
  | DoRemoveAllListener target => removeAllListener target st
  end.

(** [i.callback(params, sender.id)] for a listener. *)
Definition callListener (callback : EventCallback) (params : Value) (sid : N)
    (st : State) : State :=
  foldl perform (set_heard (heard st ++ [(callback, params, sid)]) st)
    (listener_body callback params sid).

(** The response the reactions of [handleRPCRequest] build when the
    promise of a handler settles.  For a promise rejected with
    [undefined] or [null] the member read [err.message] throws inside the
    reaction and no response is built. *)
Definition handlerResponse (id : string) (o : HandlerOutcome) : option JSONRPCResponse :=
  match o with
  | Resolves result => Some (JSONRPCResponseSuccess id result)
  | RejectsWith err =>
      Some (JSONRPCResponseError id
              {| code := JSONRPCError.code err;
                 message := JSONRPCError.message err;
                 error_data :=
                   Some {| data := default VUndefined (JSONRPCError.data err);
                           stack := Some (JSONRPCError.stack err) |} |})
  | RejectsOther msg stk =>
      Some (JSONRPCResponseError id
              {| code := UnKnown; message := msg;
                 error_data := Some {| data := VUndefined; stack := stk |} |})
  | RejectsNullish | NeverSettles | HandlerThrows => None
  end.

(** [handleRPCRequest] on one envelope.  For an event the array of the
    method is copied by [slice(0)] and the copy is run over.  For a
    request without a handler the [NotFound] response is sent at once;
    with a handler, the handler is called and the promise it returns is
    kept with its reactions. *)
Definition handleOne (sender : Sendable.t) (st : State) (req : JSONRPCRequest)
    : Completion :=
  match req_id req with
  | None =>
      match property (listeners st) (method req) with
      | Own a =>
          let '(snapshot, st) := newArray (default [] (arrays st !! a)) st in
          Normal
            (forEach snapshot
               (λ i st,
                  if isSenderMatchTarget sender (listener_target i)
                  then callListener (listener_callback i) (params req)
                         (Sendable.id sender) st
                  else st) st)
      | Inherited => Throw TypeError st
      | Absent => Normal st
      end
  | Some id =>
      match getHandlerFor (method req) sender st with
      | Raise e => Throw e st
      | Return None =>
          let res :=
            JSONRPCResponseError id
              {| code := NotFound;
                 message := Plain ("method " +:+ method req +:+ " not found");
                 error_data := None |} in
          Normal (beforeSend sender RPC_RECEIVE_CHANNEL (OfResponse res) st)
      | Return (Some handler) =>
          match handler_result (handler_callback handler) (params req)
                  (Sendable.id sender) with
          | HandlerThrows => Throw HandlerError st
          | o =>
              Normal (set_promises
                        (promises st
                         ++ [{| reply_sender := sender; reply_id := id;
                                reply_fate := o |}]) st)
          end
      end
  end.

(** [req.forEach(r => this.handleRPCRequest(sender, r))]: an envelope
    that throws ends the loop. *)
Fixpoint handleEach (sender : Sendable.t) (reqs : list JSONRPCRequest) (st : State)
    : Completion :=
  match reqs with
  | [] => Normal st
  | r :: rest =>
      match handleOne sender st r with
      | Normal st => handleEach sender rest st
      | Throw e st => Throw e st
      end
  end.

Definition handleRPCRequest (sender : Sendable.t) (req : RequestMessage)
    (st : State) : Completion :=
  match req with
  | Many reqs => handleEach sender reqs st
  | One r => handleOne sender st r
  end.

Definition handleRequest (sender : Sendable.t) (res : Wire RequestMessage)
    (st : State) : Completion :=
  match beforeReceive res with
  | Raise e => Throw e st
  | Return r => handleRPCRequest sender r st
  end.
End Engine.

(** The promise [k] settles and its reaction runs: the response is handed
    to [beforeSend].  A promise that is never settled stays; the reaction
    of a promise rejected with [undefined] or [null] throws before it
    sends. *)
Definition settlePromise (k : nat) (st : State) : State :=
  match promises st !! k with
  | None => st
  | Some p =>
      match reply_fate p with
      | NeverSettles | HandlerThrows => st
      | fate =>
          let st := set_promises (delete k (promises st)) st in
          match handlerResponse (reply_id p) fate with
          | Some res => beforeSend (reply_sender p) RPC_RECEIVE_CHANNEL (OfResponse res) st
          | None => st
          end
      end
  end.

(** ** Runs of the engine *)

(** One turn of the event loop: a call of a public method by the
    application, a message from the transport, a timer coming due, or the
    promise of a handler settling.  A method that throws leaves the state
    it had reached.  Targets may resolve differently from one turn to the
    next. *)
Inductive step (DEFAULT_TIMEOUT : JSNumber) : State → State → Prop :=
| step_send getSendable now target method params callback timeout st :
    step DEFAULT_TIMEOUT st
      (send getSendable DEFAULT_TIMEOUT now target method params callback timeout st).2
| step_fireTimer t st :
    step DEFAULT_TIMEOUT st (fireTimer t st)
| step_handleResponse res st :
    step DEFAULT_TIMEOUT st (state_of (handleResponse res st))
| step_handleRequest getSendable listener_body handler_result sender req st :
    step DEFAULT_TIMEOUT st
      (state_of (handleRequest getSendable listener_body handler_result sender req st))
| step_settlePromise k st :
    step DEFAULT_TIMEOUT st (settlePromise k st)
| step_on method callback target st :
    step DEFAULT_TIMEOUT st (state_of (on method callback target st))
| step_off getSendable method callback target st :
    step DEFAULT_TIMEOUT st (off getSendable method callback target st).2
| step_removeAllListener getSendable target st :
    step DEFAULT_TIMEOUT st (removeAllListener getSendable target st)
| step_registerHandler getSendable method handler target st :
    step DEFAULT_TIMEOUT st
      (state_of (registerHandler getSendable method handler target st))
| step_unregisterHandler getSendable method target st :
    step DEFAULT_TIMEOUT st (unregisterHandler getSendable method target st).2.

Definition reachable (DEFAULT_TIMEOUT : JSNumber) (st : State) : Prop :=
  rtc (step DEFAULT_TIMEOUT) init st.

(** A sequence of [emit] calls, oldest first. *)
Definition emitAll (getSendable : JSONRPCTarget → Lookup) (DEFAULT_TIMEOUT : JSNumber)
    (es : list (JSONRPCTarget * string * Value)) (st : State) : State :=
  foldl (λ st e, emit getSendable DEFAULT_TIMEOUT e.1.1 e.1.2 e.2 st) st es.

(** The envelopes of the [emit] calls that reach destination [d]. *)
Definition eventsFor (getSendable : JSONRPCTarget → Lookup) (d : N)
    (es : list (JSONRPCTarget * string * Value)) : list QueueItem :=
  omap (λ e, match getSender getSendable e.1.1 with
             | Some s =>
                 if (Sendable.id s =? d)%N
                 then Some (RPC_SEND_CHANNEL, s,
                            {| method := e.1.2; req_id := None; params := e.2 |})
                 else None
             | None => None
             end) es.

(** The transmissions addressed to destination [d]. *)
Definition sentTo (d : N) (l : list Transmission) : list Transmission :=
  filter (λ x, Sendable.id x.1.1 = d) l.

(** A sequence of [callHandler] calls to one target, with the readings of
    the clock at each. *)
Definition callAll (getSendable : JSONRPCTarget → Lookup) (DEFAULT_TIMEOUT : JSNumber)
    (target : JSONRPCTarget) (method : string) (clock : list N) (st : State) : State :=
  foldl (λ st now, callHandler getSendable DEFAULT_TIMEOUT now target method VNull None st)
    st clock.

(** The ids given to a sequence of calls made at the readings [clock] of
    [Date.now()]. *)
Fixpoint issueIds (clock : list N) (st : State) : list string :=
  match clock with
  | [] => []
  | now :: rest => (getId now st).1 :: issueIds rest (getId now st).2
  end.

(** ** A host for the examples: two windows, one of them known by its
    webContents id and by its window object, and a target whose lookup
    throws. *)
Definition windowA : Sendable.t := Sendable.Build 1 11.
Definition windowB : Sendable.t := Sendable.Build 2 12.

Definition world (t : JSONRPCTarget) : Lookup :=
  match t with
  | ContentsId 0 => Found (Sendable.Build 0 10)
  | ContentsId 1 => Found windowA
  | ContentsId 2 => Found windowB
  | ObjectRef 0 => Found windowA
  | ObjectRef 1 => LookupThrows
  | _ => Released
  end.

Definition quiet_listeners : EventCallback → Value → N → list ListenerAction :=
  λ _ _ _, [].

Definition echo_handlers : HandlerCallback → Value → N → HandlerOutcome :=
  λ _ params _, Resolves params.

(** ** Vocabulary of the statements *)

Global Instance JSONRPCTarget_eq_dec : EqDecision JSONRPCTarget.
Proof. solve_decision. Defined.

(** A handler entry registered without a target. *)
Definition isGlobal (e : HandlerEntry) : Prop := handler_target e = None.

Global Instance isGlobal_dec e : Decision (isGlobal e).
Proof. unfold isGlobal. apply _. Defined.


(** No target-scoped entry of [l] resolves to the identity of [sender]. *)
Definition noScopedMatch (getSendable : JSONRPCTarget → Lookup) (sender : Sendable.t)
    (l : list HandlerEntry) : Prop :=
  ∀ x, x ∈ l → handler_target x ≠ None →
       isSenderMatchTarget getSendable sender (handler_target x) = false.

(** The listener entry [i] accepts events from [sender]. *)
Definition matches (getSendable : JSONRPCTarget → Lookup) (sender : Sendable.t)
    (i : ListenerEntry) : Prop :=
  isSenderMatchTarget getSendable sender (listener_target i) = true.

Global Instance matches_dec getSendable sender i : Decision (matches getSendable sender i).
Proof. unfold matches. apply _. Defined.

(** No key of the two registries is the name of a member of
    [Object.prototype]. *)
Definition keys_own (st : State) : Prop :=
  (∀ m a, listeners st !! m = Some a → inherited m = false)
  ∧ (∀ m l, handlers st !! m = Some l → inherited m = false).

(** Every array the listener registry refers to is in the store. *)
Definition refs_valid (st : State) : Prop :=
  ∀ m a, listeners st !! m = Some a → a < length (arrays st).

(** A turn that leaves the listener registry and its arrays alone. *)
Definition same_registry (st st' : State) : Prop :=
  listeners st' = listeners st ∧ arrays st' = arrays st.


(** The envelope of [emit(target, m, args)]. *)
Definition event (m : string) (args : Value) : JSONRPCRequest :=
  {| method := m; req_id := None; params := args |}.

(** What the loop body of [flushQueue] transmits for one key. *)
Definition flushed (entry : N * list QueueItem) : list Transmission :=
  match entry.2 with
  | [] => []
  | (channel, sendable, payload) :: rest =>
      let p := if bool_decide (1 < length entry.2)
               then OfRequest (Many (map snd entry.2))
               else OfRequest (One payload) in
      if serializable_payload p then [(sendable, channel, p)] else []
  end.

(** Every item queued under a key is addressed to the sendable with that
    identity. *)
Definition queue_wf (q : gmap N (list QueueItem)) : Prop :=
  ∀ k items item, q !! k = Some items → item ∈ items → Sendable.id item.1.2 = k.

(** Every responder entry belongs to a call that was given the id it is
    filed under and whose callback has not been called. *)
Definition entries_pending (st : State) : Prop :=
  ∀ id r, responder st !! id = Some r →
    ∃ c, calls st !! closure r = Some c ∧ call_id c = id
         ∧ resolved c = false ∧ settlements c = [].

(** A string of decimal digits. *)
Definition isDigit (c : ascii) : bool :=
  bool_decide (c ∈ ["0"; "1"; "2"; "3"; "4"; "5"; "6"; "7"; "8"; "9"]%char).

Fixpoint isDigits (s : string) : bool :=
  match s with
  | EmptyString => true
  | String c s => isDigit c && isDigits s
  end.

(** Every key of the correlation table is an id [getId] made: no member
    of [Object.prototype] is named by it. *)
Definition ids_issued (st : State) : Prop :=
  (∀ id r, responder st !! id = Some r → inherited id = false)
  ∧ (∀ t c id m dl, timers st !! t = Some (TimeoutTask c id m dl) →
       inherited id = false).

(** Every timeout timer belongs to a call that was given the id the timer
    holds and that keeps the handle of the timer; if the call is not
    resolved, its callback has not been called. *)
Definition timers_bound (st : State) : Prop :=
  ∀ t c id m dl, timers st !! t = Some (TimeoutTask c id m dl) →
    ∃ call, calls st !! c = Some call ∧ call_id call = id
            ∧ timer call = Some t
            ∧ (resolved call = false → settlements call = []).

Definition settled_once (st : State) : Prop :=
  ∀ i c, calls st !! i = Some c → length (settlements c) ≤ 1.

Definition Inv (st : State) : Prop :=
  entries_pending st ∧ timers_bound st ∧ settled_once st ∧ ids_issued st.

(** The keys of the queue are kept in the order they were created. *)
Definition queue_ordered (st : State) : Prop :=
  NoDup (queueOrder st)
  ∧ ∀ k, k ∈ queueOrder st ↔ is_Some (scheduleQueue st !! k).

(** A turn that leaves the correlation table and the calls alone, and
    adds no timeout timer. *)
Definition quiet (st st' : State) : Prop :=
  responder st' = responder st
  ∧ calls st' = calls st
  ∧ ∀ t c id m dl, timers st' !! t = Some (TimeoutTask c id m dl) →
                   timers st !! t = Some (TimeoutTask c id m dl).

(** ** States of the examples *)

(** A global handler and a handler for window A, both for method "m". *)
Definition global_m : HandlerEntry :=
  {| handler_target := None; handler_callback := 1 |}.

Definition scoped_m : HandlerEntry :=
  {| handler_target := Some (ContentsId 1); handler_callback := 2 |}.

Definition two_handlers : State :=
  state_of (registerHandler world "m" 2 (Some (ContentsId 1))
              (state_of (registerHandler world "m" 1 None init))).

(** Two listeners for event "e"; the first, when called, removes the
    second and then every listener. *)
Definition two_listeners : State :=
  state_of (on "e" 2 None (state_of (on "e" 1 None init))).

Definition unsubscribing_listeners : EventCallback → Value → N → list ListenerAction :=
  λ cb _ _, if (cb =? 1)%nat then [DoOff "e" 2 None; DoRemoveAllListener None] else [].

(** A listener that unsubscribes itself when called. *)
Definition self_removing_listeners : EventCallback → Value → N → list ListenerAction :=
  λ cb _ _, if (cb =? 1)%nat then [DoOff "e" 1 None] else [].

(** One call to window A, made when the clock reads 1700000000000. *)
Definition one_call : State :=
  (send world (Finite 30000) 1700000000000 (ContentsId 1) "ping" VNull
     (Some 0) None init).2.

(** Two events for window A, addressed once by its id and once by its
    window object, and one for window B. *)
Definition three_emits : list (JSONRPCTarget * string * Value) :=
  [(ContentsId 1, "m", VObject ["x"] [VNumber 1]);
   (ObjectRef 0, "m", VObject ["x"] [VNumber 2]);
   (ContentsId 2, "n", VNull)].

(** ** Vocabulary of the further properties *)

(** No two methods of the listener registry share an array. *)
Definition refs_distinct (st : State) : Prop :=
  ∀ m1 m2 a, listeners st !! m1 = Some a → listeners st !! m2 = Some a → m1 = m2.

Definition registry_ok (st : State) : Prop := refs_valid st ∧ refs_distinct st.

(** The test [off] applies to a listener entry. *)
Definition offMatches (getSendable : JSONRPCTarget → Lookup) (callback : EventCallback)
    (target : option JSONRPCTarget) (i : ListenerEntry) : bool :=
  (listener_callback i =? callback)%nat
  && isTargetEqual getSendable (listener_target i) target.

(** Three listeners for event "e": one for every sender, one for window A
    given by its window object, one for window B. *)
Definition scoped_listeners : State :=
  state_of (on "e" 3 (Some (ContentsId 2))
              (state_of (on "e" 2 (Some (ObjectRef 0))
                           (state_of (on "e" 1 None init))))).

(** The test [unregisterHandler] applies to a handler entry. *)
Definition unregisterMatches (getSendable : JSONRPCTarget → Lookup)
    (target : option JSONRPCTarget) (i : HandlerEntry) : bool :=
  isTargetEqual getSendable (handler_target i) target.

(** Every method has at most one global handler. *)
Definition one_global (st : State) : Prop :=
  ∀ m l, handlers st !! m = Some l → length (filter isGlobal l) ≤ 1.

(** A global handler and a handler for window B, registered in this
    order for method "m". *)
Definition global_then_scoped : State :=
  state_of (registerHandler world "m" 2 (Some (ContentsId 2))
              (state_of (registerHandler world "m" 1 None init))).

(** A turn that leaves the counter, the queue, the correlation table, the
    calls and the timers as they are. *)
Definition core_same (st st' : State) : Prop :=
  uid st' = uid st ∧ queueTick st' = queueTick st
  ∧ scheduleQueue st' = scheduleQueue st ∧ responder st' = responder st
  ∧ calls st' = calls st ∧ timers st' = timers st
  ∧ next_timer st' = next_timer st ∧ queueOrder st' = queueOrder st.

(** The delay [send] uses for the timer of a call, and whether it starts
    one. *)
Definition effectiveTimeout (DEFAULT_TIMEOUT : JSNumber) (timeout : option JSNumber)
    : JSNumber :=
  match timeout with
  | Some t => if truthy t then t else DEFAULT_TIMEOUT
  | None => DEFAULT_TIMEOUT
  end.

Definition timeoutEnabled (n : JSNumber) : bool := gt0 n && negb (isInfinity n).

(** The id [getId] gives out in state [st] when the clock reads [now]. *)
Definition nextId (now : N) (st : State) : string :=
  pretty ((uid st + 1) `mod` MAX_SAFE_INTEGER)%N +:+ pretty now.

(** What a method transmitted: the transmissions of [st'] that [st] did
    not have. *)
Definition transmitted (st st' : State) : list Transmission :=
  drop (length (sent st)) (sent st').

(** One call from engine A to engine B and back.  A makes the call; B is
    handed what A transmitted, as it reads over the wire; the promise of
    the handler B called, if it called one, settles; A is handed what B
    transmitted.  [senderA] is the sendable B's transport gives for A.
    The result is how [handleResponse] of A ends, if both transmissions
    took place. *)
Definition exchange (getSendableA getSendableB : JSONRPCTarget → Lookup)
    (DEFAULT_TIMEOUT : JSNumber)
    (listener_body : EventCallback → Value → N → list ListenerAction)
    (handler_result : HandlerCallback → Value → N → HandlerOutcome)
    (now : N) (target : JSONRPCTarget) (method : string) (params : Value)
    (callback : ResponderCallback) (timeout : option JSNumber)
    (senderA : Sendable.t) (stA stB : State) : option Completion :=
  let stA1 := (send getSendableA DEFAULT_TIMEOUT now target method params
                 (Some callback) timeout stA).2 in
  match transmitted stA stA1 with
  | [(_, RPC_SEND_CHANNEL, OfRequest req)] =>
      match handleRequest getSendableB listener_body handler_result senderA
              (Text (wireMessage req)) stB with
      | Normal stB1 =>
          let stB2 := settlePromise (length (promises stB)) stB1 in
          match transmitted stB stB2 with
          | [(_, RPC_RECEIVE_CHANNEL, OfResponse res)] =>
              Some (handleResponse (Text (wireResponse res)) stA1)
          | _ => None
          end
      | Throw _ _ => None
      end
  | _ => None
  end.




(** Two calls to window A, both pending. *)
Definition two_calls : State :=
  (send world (Finite 30000) 1700000000001 (ContentsId 1) "pong" VNull
     (Some 1) None one_call).2.

(** The number of events waiting in the queue. *)
Definition queued (q : gmap N (list QueueItem)) : nat :=
  map_fold (λ _ items n, length items + n) 0 q.

(** Exactly one pending timer runs [flushQueue]. *)
Definition flushPending (st : State) : Prop :=
  ∃ t, timers st !! t = Some FlushTask
       ∧ ∀ t', timers st !! t' = Some FlushTask → t' = t.

(** Every pending timer has a handle that [setTimeout] has given out. *)
Definition handles_fresh (st : State) : Prop :=
  ∀ t task, timers st !! t = Some task → t < next_timer st.

(** The handle a call keeps names the timeout timer of that call, or a
    timer that is no longer pending. *)
Definition handles_owned (st : State) : Prop :=
  ∀ i c t, calls st !! i = Some c → timer c = Some t →
    t < next_timer st
    ∧ ∀ task, timers st !! t = Some task →
              ∃ m dl, task = TimeoutTask i (call_id c) m dl.

(** [queueTick] counts the queued events, and no key of the queue holds
    an empty list. *)
Definition queue_counted (st : State) : Prop :=
  queueTick st = N.of_nat (queued (scheduleQueue st))
  ∧ ∀ k items, scheduleQueue st !! k = Some items → items ≠ [].

(** A flush is pending exactly when events are queued. *)
Definition flush_scheduled (st : State) : Prop :=
  (queueTick st = 0%N → ∀ t, timers st !! t ≠ Some FlushTask)
  ∧ (queueTick st ≠ 0%N → flushPending st).

Definition scheduler_ok (st : State) : Prop :=
  handles_fresh st ∧ handles_owned st ∧ queue_counted st ∧ flush_scheduled st.

(** One event for window A, waiting in the queue. *)
Definition one_emit : State := emit world (Finite 30000) (ContentsId 1) "e" VNull init.

(** * Properties *)

(** ** Dictionaries *)

Lemma property_Own {A} (obj : gmap string A) key a :
  property obj key = Own a ↔ obj !! key = Some a.
Proof.
  unfold property. destruct (obj !! key) as [b|].
  - split; congruence.
  - destruct (inherited key); split; discriminate.
Qed.

Lemma property_Some {A} (obj : gmap string A) key a :
  obj !! key = Some a → property obj key = Own a.
Proof. apply property_Own. Qed.


Lemma property_Inherited {A} (obj : gmap string A) key :
  property obj key = Inherited ↔ obj !! key = None ∧ inherited key = true.
Proof.
  unfold property. destruct (obj !! key) as [b|].
  - split; [discriminate|]. by intros [? _].
  - destruct (inherited key); split; try discriminate; try done. by intros [_ ?].
Qed.

Lemma property_None {A} (obj : gmap string A) key :
  obj !! key = None → property obj key = Inherited ∨ property obj key = Absent.
Proof. intros H. unfold property. rewrite H. destruct (inherited key); auto. Qed.

(** ** Batches *)

Lemma handleEach_preserves gs lb hr sender (P : State → Prop) reqs st :
  P st →
  (∀ st r, P st → P (state_of (handleOne gs lb hr sender st r))) →
  P (state_of (handleEach gs lb hr sender reqs st)).
Proof.
  intros HP Hone. revert st HP. induction reqs as [|r reqs IH]; intros st HP; [done|].
  simpl. specialize (Hone st r HP).
  destruct (handleOne gs lb hr sender st r) as [st'|e st']; simpl in *; [|done].
  by apply IH.
Qed.

Lemma handleRPCRequest_preserves gs lb hr sender (P : State → Prop) req st :
  P st →
  (∀ st r, P st → P (state_of (handleOne gs lb hr sender st r))) →
  P (state_of (handleRPCRequest gs lb hr sender req st)).
Proof.
  intros HP Hone. destruct req as [r|rs]; simpl; [by apply Hone|].
  by apply (handleEach_preserves gs lb hr sender P).
Qed.

Lemma handleRequest_preserves gs lb hr sender (P : State → Prop) req st :
  P st →
  (∀ st r, P st → P (state_of (handleOne gs lb hr sender st r))) →
  P (state_of (handleRequest gs lb hr sender req st)).
Proof.
  intros HP Hone. destruct req as [|req]; [done|].
  by apply (handleRPCRequest_preserves gs lb hr sender P).
Qed.

(** ** Target equality *)

Section Targets.
Variable getSendable : JSONRPCTarget → Lookup.

Lemma isTargetEqual_released_l t b :
  getSender getSendable t = None → isTargetEqual getSendable (Some t) b = false.
Proof. intros H. destruct b as [b|]; simpl; [by rewrite H|done]. Qed.

Lemma isTargetEqual_released_r t a :
  getSender getSendable t = None → isTargetEqual getSendable a (Some t) = false.
Proof.
  intros H. destruct a as [a|]; simpl; [|done].
  rewrite H. by destruct (getSender getSendable a).
Qed.

Lemma findIndex_none {A} (f : A → bool) l :
  (∀ x, x ∈ l → f x = false) → findIndex f l = None.
Proof.
  induction l as [|x l IH]; intros H; simpl; [done|].
  rewrite (H x) by left. rewrite IH; [done|].
  intros y Hy. apply H. by right.
Qed.

Lemma existsb_none {A} (f : A → bool) l :
  (∀ x, x ∈ l → f x = false) → existsb f l = false.
Proof.
  induction l as [|x l IH]; intros H; simpl; [done|].
  rewrite (H x) by left. rewrite IH; [done|].
  intros y Hy. apply H. by right.
Qed.

Lemma foldl_fixed {A B} (f : A → B → A) (l : list B) (a : A) :
  (∀ a b, f a b = a) → foldl f a l = a.
Proof.
  intros Hf. induction l as [|b l IH]; simpl; [done|]. by rewrite Hf.
Qed.

Lemma filter_all {A} (P : A → Prop) `{∀ x, Decision (P x)} (l : list A) :
  (∀ x, x ∈ l → P x) → filter P l = l.
Proof.
  induction l as [|x l IH]; intros HP; [done|].
  rewrite filter_cons_True by (apply HP; left).
  f_equal. apply IH. intros y Hy. apply HP. by right.
Qed.

(** C10: a target that does not resolve (its lookup returns nothing or
    throws) is equal to no target, itself included; so [off],
    [unregisterHandler] and [removeAllListener] called with it remove
    nothing and leave the engine as it was, and the duplicate check of
    [registerHandler] does not fire for it: the entry is appended.  Under
    a method name read from [Object.prototype] the three methods that
    take one end in a [TypeError], the engine as it was. *)
Theorem released_target_matches_nothing (t : JSONRPCTarget) :
  getSender getSendable t = None →
  (∀ b, isTargetEqual getSendable (Some t) (Some b) = false
        ∧ isTargetEqual getSendable (Some b) (Some t) = false)
  ∧ isTargetEqual getSendable (Some t) (Some t) = false
  ∧ (∀ st method callback,
       off getSendable method callback (Some t) st
       = (match property (listeners st) method with
          | Inherited => Raise TypeError
          | _ => Return false
          end, st))
  ∧ (∀ st method,
       unregisterHandler getSendable method (Some t) st
       = (match property (handlers st) method with
          | Inherited => Raise TypeError
          | _ => Return false
          end, st))
  ∧ (∀ st, removeAllListener getSendable (Some t) st = st)
  ∧ (∀ st method handler,
       registerHandler getSendable method handler (Some t) st
       = match property (handlers st) method with
         | Inherited => Throw TypeError st
         | _ =>
             Normal (set_handlers
                       (<[method := default [] (handlers st !! method)
                                    ++ [{| handler_target := Some t;
                                           handler_callback := handler |}]]>
                          (handlers st)) st)
         end).
Proof.
  intros Ht. repeat split.
  - by apply isTargetEqual_released_l.
  - by apply isTargetEqual_released_r.
  - by apply isTargetEqual_released_l.
  - intros st method callback. unfold off.
    destruct (property (listeners st) method) as [a| |]; [|done..].
    rewrite findIndex_none; [done|].
    intros x _. rewrite isTargetEqual_released_r by done. apply andb_false_r.
  - intros st method. unfold unregisterHandler.
    destruct (property (handlers st) method) as [l| |]; [|done..].
    rewrite findIndex_none; [done|].
    intros x _. by apply isTargetEqual_released_r.
  - intros st. unfold removeAllListener.
    apply foldl_fixed. intros st' entry. unfold pruneMethod.
    rewrite filter_all; [by rewrite bool_decide_false by auto|].
    intros x _. by apply isTargetEqual_released_l.
  - intros st method handler. unfold registerHandler.
    destruct (property (handlers st) method) as [l| |] eqn:Hp; [|done|].
    + apply property_Own in Hp. rewrite Hp. simpl.
      rewrite existsb_none; [by rewrite andb_false_r|].
      intros x _. by apply isTargetEqual_released_l.
    + unfold property in Hp. destruct (handlers st !! method); [done|].
      by destruct (inherited method).
Qed.
End Targets.

Lemma released_target_matches_nothing_witness :
  getSender world (ObjectRef 1) = None
  ∧ isTargetEqual world (Some (ObjectRef 1)) (Some (ObjectRef 1)) = false.
Proof.
  split; [reflexivity|].
  apply (released_target_matches_nothing world (ObjectRef 1)). reflexivity.
Defined.

(** ** Handler registry *)

Section Handlers.
Variable getSendable : JSONRPCTarget → Lookup.

Lemma existsb_some {A} (f : A → bool) l x :
  x ∈ l → f x = true → existsb f l = true.
Proof.
  intros Hx Hf. apply existsb_exists. exists x. split; [|done].
  by apply list_elem_of_In.
Qed.


Lemma registerHandler_normal method handler target st st' :
  registerHandler getSendable method handler target st = Normal st' →
  handlers st' !! method
  = Some (default [] (handlers st !! method)
          ++ [{| handler_target := target; handler_callback := handler |}])
  ∧ (∀ t, target = Some t → truthy_target t = true →
     existsb (λ i, isTargetEqual getSendable target (handler_target i))
       (default [] (handlers st !! method)) = false)
  ∧ (target = None →
     existsb (λ i, bool_decide (handler_target i = None))
       (default [] (handlers st !! method)) = false).
Proof.
  unfold registerHandler.
  destruct (property (handlers st) method) as [l| |] eqn:Hp; [| done |].
  - apply property_Own in Hp. rewrite Hp. simpl.
    destruct target as [t|].
    + destruct (truthy_target t) eqn:Htr; simpl.
      * destruct (existsb _ l) eqn:Hex; intros [= <-]; simpl.
        rewrite lookup_insert_eq. split; [done|]. split; [|done].
        by intros ? [= <-] _.
      * intros [= <-]; simpl. rewrite lookup_insert_eq. split; [done|].
        split; [|done]. intros ? [= <-]. congruence.
    + destruct (existsb _ l) eqn:Hex; intros [= <-]; simpl.
      rewrite lookup_insert_eq. split; [done|]. split; [done|]. by intros _.
  - intros [= <-]. simpl. rewrite lookup_insert_eq.
    assert (handlers st !! method = None) as ->.
    { unfold property in Hp. by destruct (handlers st !! method). }
    done.
Qed.



(** *** Dispatch of requests *)


Lemma scanHandlers_no_match sender l acc :
  (∀ x, x ∈ l → handler_target x ≠ None →
        isSenderMatchTarget getSendable sender (handler_target x) = false) →
  scanHandlers getSendable sender l acc
  = match last (filter isGlobal l) with
    | Some g => Some g
    | None => acc
    end.
Proof.
  revert acc. induction l as [|x l IH]; intros acc Hl; simpl; [done|].
  assert (∀ y, y ∈ l → handler_target y ≠ None →
               isSenderMatchTarget getSendable sender (handler_target y) = false)
    as Hl' by (intros y Hy; apply Hl; by right).
  destruct (handler_target x) eqn:Hx.
  - rewrite <- Hx, (Hl x) by (by left || congruence).
    rewrite filter_cons_False by (unfold isGlobal; congruence). by apply IH.
  - rewrite filter_cons_True by done. rewrite IH by done.
    destruct (filter isGlobal l) as [|g gs]; [done|].
    change (last (x :: g :: gs)) with (last (g :: gs)).
    by destruct (proj2 (last_is_Some (g :: gs)) ltac:(done)) as [y ->].
Qed.
End Handlers.

Section Requests.
Variable getSendable : JSONRPCTarget → Lookup.
Variable listener_body : EventCallback → Value → N → list ListenerAction.
Variable handler_result : HandlerCallback → Value → N → HandlerOutcome.



End Requests.

(** ** Calls to a target that does not resolve *)

Section Sending.
Variable getSendable : JSONRPCTarget → Lookup.
Variable DEFAULT_TIMEOUT : JSNumber.

(** C2, as the code has it: a call whose target does not resolve (its
    lookup returns nothing or throws) returns false after calling the
    callback once with a [TargetReleased] error; no timer is started, no
    responder entry is registered, nothing is sent and nothing is
    queued.  The id was allocated before the lookup: the counter has
    advanced by one. *)
Theorem send_released (now : N) (target : JSONRPCTarget) (method : string)
    (params : Value) (cb : ResponderCallback) (timeout : option JSNumber)
    (st : State) :
  getSender getSendable target = None →
  let r := send getSendable DEFAULT_TIMEOUT now target method params (Some cb) timeout st in
  r.1 = false
  ∧ calls r.2
    = calls st
      ++ [{| callback := cb;
             call_id := pretty ((uid st + 1) `mod` MAX_SAFE_INTEGER)%N +:+ pretty now;
             resolved := false; timer := None;
             settlements :=
               [Rejected (JSONRPCError.new TargetReleased (ReleasedTarget target) None)] |}]
  ∧ timers r.2 = timers st
  ∧ next_timer r.2 = next_timer st
  ∧ responder r.2 = responder st
  ∧ sent r.2 = sent st
  ∧ scheduleQueue r.2 = scheduleQueue st
  ∧ queueTick r.2 = queueTick st
  ∧ uid r.2 = ((uid st + 1) `mod` MAX_SAFE_INTEGER)%N.
Proof. intros Ht. unfold send. simpl. rewrite Ht. simpl. done. Qed.

(** A timeout that is falsy ([0], [NaN]) is replaced by the default
    before the timer is considered. *)
Lemma send_timeout_zero now target method params callback st :
  send getSendable DEFAULT_TIMEOUT now target method params callback
    (Some (Finite 0)) st
  = send getSendable DEFAULT_TIMEOUT now target method params callback None st.
Proof. reflexivity. Qed.

(** The timer of a call: started exactly when the effective timeout
    (the argument if truthy, else the default) is positive and not
    [Infinity], with that delay. *)
Lemma expectResponse_timers cb id method params timeout st :
  let effective :=
    match timeout with
    | Some t => if truthy t then t else DEFAULT_TIMEOUT
    | None => DEFAULT_TIMEOUT
    end in
  timers (expectResponse DEFAULT_TIMEOUT cb id method params timeout st)
  = if gt0 effective && negb (isInfinity effective)
    then <[next_timer st := TimeoutTask (length (calls st)) id method effective]>
           (timers st)
    else timers st.
Proof.
  unfold expectResponse. simpl.
  by destruct (gt0 _ && negb _).
Qed.
(** What [send] with a callback does to each part of the engine when the
    target resolves. *)
Lemma send_call_fields now target m args cb timeout st s :
  getSender getSendable target = Some s →
  let id := nextId now st in
  let eff := effectiveTimeout DEFAULT_TIMEOUT timeout in
  let req := {| method := m; req_id := Some id; params := args |} in
  let r := send getSendable DEFAULT_TIMEOUT now target m args (Some cb) timeout st in
  r.1 = true
  ∧ uid r.2 = ((uid st + 1) `mod` MAX_SAFE_INTEGER)%N
  ∧ responder r.2
    = <[id := {| closure := length (calls st); name := m; args := args |}]> (responder st)
  ∧ calls r.2
    = calls st
      ++ [{| callback := cb; call_id := id; resolved := false;
             timer := if timeoutEnabled eff then Some (next_timer st) else None;
             settlements := [] |}]
  ∧ timers r.2
    = (if timeoutEnabled eff
       then <[next_timer st := TimeoutTask (length (calls st)) id m eff]> (timers st)
       else timers st)
  ∧ next_timer r.2 = (if timeoutEnabled eff then S (next_timer st) else next_timer st)
  ∧ scheduleQueue r.2 = scheduleQueue st
  ∧ queueTick r.2 = queueTick st
  ∧ sent r.2
    = (if serializable args
       then sent st ++ [(s, RPC_SEND_CHANNEL, OfRequest (One req))]
       else sent st)
  ∧ console r.2
    = (if serializable args
       then console st
       else console st ++ [ErrorFailedToSerialize (OfRequest (One req))])
  ∧ queueOrder r.2 = queueOrder st
  ∧ promises r.2 = promises st.
Proof.
  intros Hs. unfold send. simpl. rewrite Hs. simpl.
  unfold scheduleRequest, isEvent, beforeSend, expectResponse, timeoutEnabled,
    effectiveTimeout, nextId. simpl.
  unfold serializable_request. simpl.
  destruct (serializable args); destruct (gt0 _ && negb _); simpl; done.
Qed.

End Sending.

Lemma send_released_witness :
  getSender world (ObjectRef 1) = None
  ∧ sent (send world (Finite 30000) 1700000000000 (ObjectRef 1) "ping" VNull
            (Some 0) None init).2 = [].
Proof.
  split; [reflexivity|].
  apply (send_released world (Finite 30000) 1700000000000 (ObjectRef 1) "ping" VNull
           0 None init).
  reflexivity.
Defined.

(** C2 as stated fails: the id counter is not left unchanged by a call to
    a target that does not resolve. *)
Lemma send_released_allocates_id :
  getSender world (ContentsId 9) = None
  ∧ uid (send world (Finite 30000) 1700000000000 (ContentsId 9) "ping" VNull
           (Some 0) None init).2 ≠ uid init.
Proof. split; [reflexivity|]. vm_compute. discriminate. Qed.

(** ** Timeouts *)

(** C3 at [timeout = 0]: the call is given the default timeout; its timer
    is pending after [send], and when it comes due the callback is called
    with a [Timeout] error. *)
Theorem timeout_zero_expires :
  let st := (send world (Finite 30000) 1700000000000 (ContentsId 1) "ping" VNull
               (Some 0) (Some (Finite 0)) init).2 in
  timers st !! 1 = Some (TimeoutTask 0 "11700000000000" "ping" (Finite 30000))
  ∧ settlements <$> calls st !! 0 = Some []
  ∧ settlements <$> calls (fireTimer 1 st) !! 0
    = Some [Rejected (JSONRPCError.new Timeout (TimedOut "ping") None)].
Proof. by vm_compute. Qed.

(** ** Codec failures *)

(** C8 on the receive path: [JSON.parse] is called outside any [try]; on
    a malformed payload both entry points throw. *)
Theorem malformed_payload_throws getSendable listener_body handler_result
    (sender : Sendable.t) (st : State) :
  handleResponse Malformed st = Throw SyntaxError st
  ∧ handleRequest getSendable listener_body handler_result sender Malformed st
    = Throw SyntaxError st.
Proof. split; reflexivity. Qed.

(** The send path does contain the failure: the payload is dropped and
    the error logged. *)
Lemma beforeSend_unserializable sender channel payload st :
  serializable_payload payload = false →
  beforeSend sender channel payload st
  = set_console (console st ++ [ErrorFailedToSerialize payload]) st.
Proof. intros H. unfold beforeSend. by rewrite H. Qed.

(** A timeout of [Infinity] starts no timer. *)
Lemma expectResponse_infinity dt cb id m args st :
  timers (expectResponse dt cb id m args (Some PosInfinity) st) = timers st.
Proof. reflexivity. Qed.

Lemma beforeSend_serializable sender channel payload st :
  serializable_payload payload = true →
  beforeSend sender channel payload st
  = set_sent (sent st ++ [(sender, channel, payload)]) st.
Proof. intros H. unfold beforeSend. by rewrite H. Qed.

(** ** Dispatch of events *)

Section Events.
Variable getSendable : JSONRPCTarget → Lookup.

Lemma foldl_preserves {A B} (P : A → Prop) (f : A → B → A) (l : list B) (a : A) :
  P a → (∀ a b, P a → P (f a b)) → P (foldl f a l).
Proof.
  intros Ha Hf. revert a Ha. induction l as [|b l IH]; intros a Ha; simpl; [done|].
  apply IH. by apply Hf.
Qed.












End Events.

(** ** The registry refers to arrays of the store *)

Lemma same_registry_refl st : same_registry st st.
Proof. done. Qed.

Lemma same_registry_trans st1 st2 st3 :
  same_registry st1 st2 → same_registry st2 st3 → same_registry st1 st3.
Proof. intros [? ?] [? ?]. split; congruence. Qed.

Lemma same_registry_foldl {A} (f : State → A → State) (l : list A) st :
  (∀ st a, same_registry st (f st a)) → same_registry st (foldl f st l).
Proof.
  intros Hf. revert st. induction l as [|a l IH]; intros st; simpl; [done|].
  eapply same_registry_trans; [apply Hf|apply IH].
Qed.

Lemma same_registry_beforeSend sender channel payload st :
  same_registry st (beforeSend sender channel payload st).
Proof. unfold beforeSend. by destruct (serializable_payload payload). Qed.

Lemma same_registry_flushQueue st : same_registry st (flushQueue st).
Proof.
  unfold flushQueue.
  eapply same_registry_trans; [|apply same_registry_foldl]; [done|].
  intros st' e. unfold flushOne. destruct e.2 as [|[[ch s] p] rest]; [done|].
  destruct (bool_decide _); apply same_registry_beforeSend.
Qed.

Lemma same_registry_scheduleRequest channel s payload st :
  same_registry st (scheduleRequest channel s payload st).
Proof.
  unfold scheduleRequest.
  destruct (isEvent payload); [|apply same_registry_beforeSend].
  simpl. by destruct (queueTick st =? 0)%N.
Qed.

Lemma same_registry_send gs dt now target m args callback timeout st :
  same_registry st (send gs dt now target m args callback timeout st).2.
Proof.
  unfold send. destruct callback as [cb|]; simpl;
    destruct (getSender gs target) as [s|]; simpl; try done.
  - eapply same_registry_trans; [|apply same_registry_scheduleRequest].
    unfold expectResponse. simpl. by destruct (gt0 _ && negb _).
  - apply same_registry_scheduleRequest.
Qed.

Lemma same_registry_responder_callback c s st :
  same_registry st (responder_callback c s st).
Proof.
  unfold responder_callback. destruct (calls st !! c) as [call|]; [|done].
  destruct (resolved call); [done|]. by destruct (timer call).
Qed.

Lemma same_registry_handleRPCResponse res st :
  same_registry st (state_of (handleRPCResponse res st)).
Proof.
  unfold handleRPCResponse.
  destruct (property (responder st) (response_id res)) as [r| |]; [|done..].
  destruct (settlement_of res r) as [s|x]; [|done]. simpl.
  apply same_registry_responder_callback.
Qed.

Lemma same_registry_settlePromise k st : same_registry st (settlePromise k st).
Proof.
  unfold settlePromise. destruct (promises st !! k) as [p|]; [|done].
  destruct (reply_fate p); simpl; try done;
    apply (same_registry_beforeSend _ _ _ (set_promises _ st)).
Qed.

Lemma same_registry_fireTimer t st : same_registry st (fireTimer t st).
Proof.
  unfold fireTimer. destruct (timers st !! t) as [[c id m dl|]|]; [| |done].
  - unfold timeout_callback. simpl. destruct (calls st !! c) as [call|]; [|done].
    by destruct (resolved call).
  - eapply same_registry_trans; [|apply same_registry_flushQueue]. done.
Qed.

Lemma same_registry_registerHandler gs m h t st :
  same_registry st (state_of (registerHandler gs m h t st)).
Proof.
  unfold registerHandler.
  destruct (property (handlers st) m); [|done..].
  destruct t as [t|]; [destruct (truthy_target t); simpl|];
    try destruct (existsb _ _); done.
Qed.

Lemma same_registry_unregisterHandler gs m t st :
  same_registry st (unregisterHandler gs m t st).2.
Proof.
  unfold unregisterHandler. destruct (property (handlers st) m); [|done..].
  by destruct (findIndex _ _).
Qed.

Lemma refs_valid_same st st' : refs_valid st → same_registry st st' → refs_valid st'.
Proof. intros Hv [Hl Ha] m a. rewrite Hl, Ha. apply Hv. Qed.

Lemma refs_valid_newArray l m st :
  refs_valid st →
  refs_valid (set_listeners (<[m := (newArray l st).1]> (listeners (newArray l st).2))
                (newArray l st).2).
Proof.
  intros Hv m' a. simpl. rewrite length_app. simpl. intros Hm'.
  destruct (decide (m = m')) as [<-|Hne].
  - rewrite lookup_insert_eq in Hm'. injection Hm' as <-. lia.
  - rewrite lookup_insert_ne in Hm' by done. apply Hv in Hm'. lia.
Qed.








(** ** Outbound scheduling *)

Section Scheduler.
Variable getSendable : JSONRPCTarget → Lookup.
Variable DEFAULT_TIMEOUT : JSNumber.

Lemma sent_flushOne st entry : sent (flushOne st entry) = sent st ++ flushed entry.
Proof.
  unfold flushOne, flushed, beforeSend.
  destruct entry.2 as [|[[ch s] p] rest]; [by rewrite app_nil_r|].
  destruct (bool_decide _); destruct (serializable_payload _); simpl;
    by rewrite ?app_nil_r.
Qed.

Lemma sent_foldl_flushOne L st :
  sent (foldl flushOne st L) = sent st ++ concat (map flushed L).
Proof.
  revert st. induction L as [|e L IH]; intros st; simpl.
  - by rewrite app_nil_r.
  - by rewrite IH, sent_flushOne, <- app_assoc.
Qed.

Lemma scheduleQueue_flushOne st entry :
  scheduleQueue (flushOne st entry) = scheduleQueue st.
Proof.
  unfold flushOne, beforeSend.
  destruct entry.2 as [|[[ch s] p] rest]; [done|].
  by destruct (bool_decide _); destruct (serializable_payload _).
Qed.

Lemma scheduleQueue_foldl_flushOne L st :
  scheduleQueue (foldl flushOne st L) = scheduleQueue st.
Proof.
  revert st. induction L as [|e L IH]; intros st; simpl; [done|].
  by rewrite IH, scheduleQueue_flushOne.
Qed.

Lemma sentTo_app d l1 l2 : sentTo d (l1 ++ l2) = sentTo d l1 ++ sentTo d l2.
Proof. apply filter_app. Qed.

Lemma sentTo_flushed_same d items :
  (∀ item, item ∈ items → Sendable.id item.1.2 = d) →
  sentTo d (flushed (d, items)) = flushed (d, items).
Proof.
  intros Hwf. unfold flushed. simpl.
  destruct items as [|[[ch s] p] rest]; [done|].
  destruct (serializable_payload _); [|done].
  unfold sentTo. rewrite filter_cons_True; [done|].
  simpl. apply (Hwf (ch, s, p)). by left.
Qed.

Lemma sentTo_flushed_other d k items :
  k ≠ d →
  (∀ item, item ∈ items → Sendable.id item.1.2 = k) →
  sentTo d (flushed (k, items)) = [].
Proof.
  intros Hne Hwf. unfold flushed. simpl.
  destruct items as [|[[ch s] p] rest]; [done|].
  destruct (serializable_payload _); [|done].
  unfold sentTo. rewrite filter_cons_False; [done|].
  simpl. intros Hd. apply Hne. rewrite <- Hd.
  symmetry. apply (Hwf (ch, s, p)). by left.
Qed.

(** The transmissions of a flush addressed to [d] are those of the
    queue of [d]. *)
Lemma sentTo_flushed_entries d (L : list (N * list QueueItem)) :
  NoDup L.*1 →
  (∀ k items item, (k, items) ∈ L → item ∈ items → Sendable.id item.1.2 = k) →
  sentTo d (concat (map flushed L))
  = match list_find (λ e, e.1 = d) L with
    | Some (_, e) => flushed e
    | None => []
    end.
Proof.
  induction L as [|[k items] L IH]; intros Hnd Hwf; [done|].
  rewrite fmap_cons in Hnd. apply NoDup_cons in Hnd as [Hk Hnd].
  assert (∀ k items item, (k, items) ∈ L → item ∈ items → Sendable.id item.1.2 = k)
    as Hwf' by (intros ????; apply Hwf; by right).
  assert (∀ item, item ∈ items → Sendable.id item.1.2 = k)
    as Hitems by (intros ?; apply Hwf; by left).
  cbn [map concat list_find fst]. rewrite sentTo_app, IH by done.
  destruct (decide (k = d)) as [->|Hne].
  - rewrite sentTo_flushed_same by done.
    destruct (list_find (λ e, e.1 = d) L) as [[j [k' items']]|] eqn:Hfind.
    + apply list_find_Some in Hfind as (Hj & Hd & _). simpl in Hd. subst k'.
      exfalso. apply Hk. apply list_elem_of_fmap. exists (d, items').
      split; [done|]. by eapply list_elem_of_lookup_2.
    + simpl. by rewrite app_nil_r.
  - rewrite sentTo_flushed_other by done.
    by destruct (list_find (λ e, e.1 = d) L) as [[j e]|].
Qed.

Lemma elem_of_queue_keys k order : k ∈ queue_keys order ↔ k ∈ order.
Proof.
  unfold queue_keys. rewrite elem_of_app, merge_sort_Permutation.
  rewrite !list_elem_of_filter.
  destruct (isArrayIndex k); split; try (intros [[? ?]|[? ?]]; done); auto.
Qed.

Lemma NoDup_queue_keys order : NoDup order → NoDup (queue_keys order).
Proof.
  intros Hnd. unfold queue_keys. apply NoDup_app. split; [|split].
  - rewrite merge_sort_Permutation. by apply NoDup_filter.
  - intros k. rewrite merge_sort_Permutation, !list_elem_of_filter.
    intros [Hk _] [Hk' _]. congruence.
  - by apply NoDup_filter.
Qed.

Lemma elem_of_queue_entries k items (q : gmap N (list QueueItem)) order :
  (k, items) ∈ queue_entries q order ↔ k ∈ order ∧ q !! k = Some items.
Proof.
  unfold queue_entries. rewrite list_elem_of_omap. split.
  - intros (k' & Hk' & Heq). apply (proj1 (elem_of_queue_keys _ _)) in Hk'.
    destruct (q !! k') as [items'|] eqn:Hq; [|done].
    simpl in Heq. by injection Heq as <- <-.
  - intros [Hk Hq]. exists k. split; [by apply elem_of_queue_keys|].
    by rewrite Hq.
Qed.

Lemma NoDup_queue_entries (q : gmap N (list QueueItem)) order :
  NoDup order → NoDup (queue_entries q order).*1.
Proof.
  intros Hnd. apply NoDup_queue_keys in Hnd. unfold queue_entries.
  induction (queue_keys order) as [|k ks IH]; simpl; [constructor|].
  apply NoDup_cons in Hnd as [Hk Hnd].
  destruct (q !! k) as [items|]; simpl; [|by apply IH].
  apply NoDup_cons. split; [|by apply IH].
  intros Hin. apply list_elem_of_fmap in Hin as ([k' items'] & -> & Hin).
  apply list_elem_of_omap in Hin as (k'' & Hk'' & Heq).
  destruct (q !! k''); [|done]. simpl in Heq. by injection Heq as <- <-.
Qed.

Lemma queue_entries_find d (q : gmap N (list QueueItem)) order :
  (∀ k, k ∈ order ↔ is_Some (q !! k)) →
  match list_find (λ e, e.1 = d) (queue_entries q order) with
  | Some (_, e) => q !! d = Some e.2 ∧ e.1 = d
  | None => q !! d = None
  end.
Proof.
  intros Hord.
  destruct (list_find _ _) as [[j [k items]]|] eqn:Hfind.
  - apply list_find_Some in Hfind as (Hj & Hd & _). simpl in *. subst k.
    split; [|done]. apply list_elem_of_lookup_2 in Hj.
    by apply elem_of_queue_entries in Hj as [_ ?].
  - destruct (q !! d) as [items|] eqn:Hq; [|done]. exfalso.
    assert ((d, items) ∈ queue_entries q order) as Hin.
    { apply elem_of_queue_entries. split; [|done]. apply Hord. by rewrite Hq. }
    eapply list_find_None in Hfind. rewrite Forall_forall in Hfind.
    by apply (Hfind _ Hin).
Qed.

(** What [flushQueue] transmits to one destination. *)
Lemma sentTo_flushQueue d st :
  queue_wf (scheduleQueue st) →
  queue_ordered st →
  sentTo d (sent (flushQueue st))
  = sentTo d (sent st)
    ++ match scheduleQueue st !! d with
       | Some items => flushed (d, items)
       | None => []
       end.
Proof.
  intros Hwf [Hnd Hord]. unfold flushQueue. rewrite sent_foldl_flushOne. simpl.
  rewrite sentTo_app. f_equal.
  rewrite sentTo_flushed_entries.
  - pose proof (queue_entries_find d (scheduleQueue st) (queueOrder st) Hord) as Hfind.
    destruct (list_find _ _) as [[j [k items]]|].
    + destruct Hfind as [-> Hk]. simpl in *. by subst k.
    + by rewrite Hfind.
  - by apply NoDup_queue_entries.
  - intros k items item Hin. apply elem_of_queue_entries in Hin as [_ Hin].
    by apply Hwf.
Qed.

(** What the loop body of [flushQueue] logs for one key. *)
Lemma console_flushOne st entry :
  console (flushOne st entry)
  = console st
    ++ match entry.2 with
       | [] => []
       | (channel, sendable, payload) :: rest =>
           let p := if bool_decide (1 < length entry.2)
                    then OfRequest (Many (map snd entry.2))
                    else OfRequest (One payload) in
           if serializable_payload p then [] else [ErrorFailedToSerialize p]
       end.
Proof.
  unfold flushOne, beforeSend.
  destruct entry.2 as [|[[ch s] p] rest]; [by rewrite app_nil_r|].
  destruct (bool_decide _); destruct (serializable_payload _); simpl;
    by rewrite ?app_nil_r.
Qed.

Lemma console_foldl_flushOne L st line :
  line ∈ console st → line ∈ console (foldl flushOne st L).
Proof.
  revert st. induction L as [|e L IH]; intros st Hin; simpl; [done|].
  apply IH. rewrite console_flushOne. apply elem_of_app. by left.
Qed.

(** A queue that does not serialize is logged by the flush. *)
Lemma console_flushQueue d (items : list QueueItem) p st :
  queue_ordered st →
  scheduleQueue st !! d = Some items →
  items ≠ [] →
  p = (if bool_decide (1 < length items)
       then OfRequest (Many (map snd items))
       else OfRequest (One (default {| method := ""; req_id := None;
                                       params := VUndefined |}
                              (snd <$> head items)))) →
  serializable_payload p = false →
  ErrorFailedToSerialize p ∈ console (flushQueue st).
Proof.
  intros [Hnd Hord] Hq Hne -> Hser. unfold flushQueue.
  assert ((d, items) ∈ queue_entries (scheduleQueue st) (queueOrder st)) as Hin.
  { apply elem_of_queue_entries. split; [|done]. apply (proj2 (Hord d)).
    by rewrite Hq. }
  set (st0 := set_queueOrder [] (set_scheduleQueue ∅ (set_queueTick 0 st))).
  change (scheduleQueue (set_queueTick 0 st)) with (scheduleQueue st).
  change (queueOrder (set_queueTick 0 st)) with (queueOrder st).
  generalize st0. clear st0.
  induction (queue_entries (scheduleQueue st) (queueOrder st)) as [|e L IH];
    intros st0; [by apply elem_of_nil in Hin|].
  apply elem_of_cons in Hin as [<-|Hin]; simpl.
  - apply console_foldl_flushOne. rewrite console_flushOne. simpl.
    destruct items as [|[[ch s0] p0] rest]; [done|]. simpl in *.
    rewrite Hser. apply elem_of_app. right. by left.
  - by apply IH.
Qed.
End Scheduler.

Section Emitting.
Variable getSendable : JSONRPCTarget → Lookup.
Variable DEFAULT_TIMEOUT : JSNumber.

Lemma emit_resolved t m args st s :
  getSender getSendable t = Some s →
  emit getSendable DEFAULT_TIMEOUT t m args st
  = scheduleRequest RPC_SEND_CHANNEL s (event m args) st.
Proof. intros Hs. unfold emit, send. by rewrite Hs. Qed.

Lemma emit_released t m args st :
  getSender getSendable t = None →
  emit getSendable DEFAULT_TIMEOUT t m args st = st.
Proof. intros Hs. unfold emit, send. by rewrite Hs. Qed.

Lemma scheduleQueue_event channel s e st :
  isEvent e = true →
  scheduleQueue (scheduleRequest channel s e st)
  = <[Sendable.id s := default [] (scheduleQueue st !! Sendable.id s)
                       ++ [(channel, s, e)]]> (scheduleQueue st).
Proof.
  intros He. unfold scheduleRequest. rewrite He. simpl.
  by destruct (queueTick st =? 0)%N.
Qed.

Lemma sent_event channel s e st :
  isEvent e = true → sent (scheduleRequest channel s e st) = sent st.
Proof.
  intros He. unfold scheduleRequest. rewrite He. simpl.
  by destruct (queueTick st =? 0)%N.
Qed.

Lemma sent_emit t m args st :
  sent (emit getSendable DEFAULT_TIMEOUT t m args st) = sent st.
Proof.
  destruct (getSender getSendable t) as [s|] eqn:Hs.
  - rewrite (emit_resolved _ _ _ _ s) by done. by apply sent_event.
  - by rewrite emit_released.
Qed.

Lemma sent_emitAll es st :
  sent (emitAll getSendable DEFAULT_TIMEOUT es st) = sent st.
Proof.
  revert st. induction es as [|e es IH]; intros st; [done|].
  unfold emitAll in *. simpl. by rewrite IH, sent_emit.
Qed.

Lemma queue_wf_emit t m args st :
  queue_wf (scheduleQueue st) →
  queue_wf (scheduleQueue (emit getSendable DEFAULT_TIMEOUT t m args st)).
Proof.
  intros Hwf. destruct (getSender getSendable t) as [s|] eqn:Hs.
  - rewrite (emit_resolved _ _ _ _ s) by done.
    rewrite scheduleQueue_event by done.
    intros k items item Hk Hitem.
    destruct (decide (Sendable.id s = k)) as [<-|Hne].
    + rewrite lookup_insert_eq in Hk. injection Hk as <-.
      apply elem_of_app in Hitem as [Hitem|Hitem].
      * destruct (scheduleQueue st !! Sendable.id s) as [old|] eqn:Hold.
        -- by apply (Hwf _ old).
        -- by apply elem_of_nil in Hitem.
      * apply list_elem_of_singleton in Hitem. by subst item.
    + rewrite lookup_insert_ne in Hk by done. by apply (Hwf _ items).
  - by rewrite emit_released.
Qed.

Lemma queue_wf_emitAll es st :
  queue_wf (scheduleQueue st) →
  queue_wf (scheduleQueue (emitAll getSendable DEFAULT_TIMEOUT es st)).
Proof.
  revert st. induction es as [|e es IH]; intros st Hwf; [done|].
  unfold emitAll in *. simpl. apply IH. by apply queue_wf_emit.
Qed.

Lemma scheduleQueue_emit d t m args st :
  scheduleQueue (emit getSendable DEFAULT_TIMEOUT t m args st) !! d
  = match eventsFor getSendable d [(t, m, args)] with
    | [] => scheduleQueue st !! d
    | evs => Some (default [] (scheduleQueue st !! d) ++ evs)
    end.
Proof.
  unfold eventsFor. simpl.
  destruct (getSender getSendable t) as [s|] eqn:Hs.
  - rewrite (emit_resolved _ _ _ _ s) by done.
    rewrite scheduleQueue_event by done.
    destruct (Sendable.id s =? d)%N eqn:Hd; simpl.
    + apply N.eqb_eq in Hd. subst d. by rewrite lookup_insert_eq.
    + apply N.eqb_neq in Hd. by rewrite lookup_insert_ne.
  - by rewrite emit_released.
Qed.

Lemma eventsFor_cons d e es :
  eventsFor getSendable d (e :: es)
  = eventsFor getSendable d [e] ++ eventsFor getSendable d es.
Proof.
  unfold eventsFor. simpl.
  destruct (getSender getSendable e.1.1) as [s|]; [|done].
  by destruct (Sendable.id s =? d)%N.
Qed.

Lemma scheduleQueue_emitAll d es st :
  scheduleQueue (emitAll getSendable DEFAULT_TIMEOUT es st) !! d
  = match eventsFor getSendable d es with
    | [] => scheduleQueue st !! d
    | evs => Some (default [] (scheduleQueue st !! d) ++ evs)
    end.
Proof.
  revert st. induction es as [|[[t m] args] es IH]; intros st; [done|].
  change (emitAll getSendable DEFAULT_TIMEOUT (((t, m), args) :: es) st)
    with (emitAll getSendable DEFAULT_TIMEOUT es
            (emit getSendable DEFAULT_TIMEOUT t m args st)).
  rewrite IH, scheduleQueue_emit.
  rewrite (eventsFor_cons d (t, m, args) es).
  destruct (eventsFor getSendable d [(t, m, args)]) as [|x xs];
    destruct (eventsFor getSendable d es) as [|y ys]; simpl;
    rewrite ?app_nil_r, <- ?app_assoc; done.
Qed.
End Emitting.

Section Batching.
Variable getSendable : JSONRPCTarget → Lookup.
Variable DEFAULT_TIMEOUT : JSNumber.
Variable listener_body : EventCallback → Value → N → list ListenerAction.
Variable handler_result : HandlerCallback → Value → N → HandlerOutcome.

Lemma scheduleQueue_beforeSend sender channel payload st :
  scheduleQueue (beforeSend sender channel payload st) = scheduleQueue st.
Proof. unfold beforeSend. by destruct (serializable_payload payload). Qed.

Lemma queue_ordered_event channel s e st :
  isEvent e = true →
  queue_ordered st → queue_ordered (scheduleRequest channel s e st).
Proof.
  intros He [Hnd Hord].
  assert (queue_ordered
            (set_scheduleQueue
               (<[Sendable.id s := default [] (scheduleQueue st !! Sendable.id s)
                                   ++ [(channel, s, e)]]> (scheduleQueue st))
               (set_queueOrder
                  match scheduleQueue st !! Sendable.id s with
                  | Some _ => queueOrder st
                  | None => queueOrder st ++ [Sendable.id s]
                  end st))) as Hgoal.
  { split; simpl.
    - destruct (scheduleQueue st !! Sendable.id s) eqn:Hq; [done|].
      apply NoDup_app. split; [done|]. split; [|apply NoDup_singleton].
      intros k Hk ->%list_elem_of_singleton.
      apply Hord in Hk. rewrite Hq in Hk. by destruct Hk.
    - intros k. destruct (decide (k = Sendable.id s)) as [->|Hne].
      + rewrite lookup_insert_eq. split; [by eexists|]. intros _.
        destruct (scheduleQueue st !! Sendable.id s) eqn:Hq.
        * apply Hord. by rewrite Hq.
        * apply elem_of_app. right. by left.
      + rewrite lookup_insert_ne by done. rewrite <- Hord.
        destruct (scheduleQueue st !! Sendable.id s); [done|].
        rewrite elem_of_app, list_elem_of_singleton. split; [|by left].
        by intros [?|?]. }
  unfold scheduleRequest. rewrite He. simpl.
  destruct (queueTick st =? 0)%N; exact Hgoal.
Qed.

Lemma queue_ordered_emitAll es st :
  queue_ordered st → queue_ordered (emitAll getSendable DEFAULT_TIMEOUT es st).
Proof.
  revert st. induction es as [|[[t m] args] es IH]; intros st Hord; [done|].
  unfold emitAll in *. simpl. apply IH.
  destruct (getSender getSendable t) as [s|] eqn:Hs.
  - rewrite (emit_resolved _ _ _ _ _ _ s) by done. by apply queue_ordered_event.
  - by rewrite emit_released.
Qed.

Lemma scheduleQueue_settlePromise k st :
  scheduleQueue (settlePromise k st) = scheduleQueue st.
Proof.
  unfold settlePromise. destruct (promises st !! k) as [p|]; [|done].
  destruct (reply_fate p); simpl; try done; by rewrite scheduleQueue_beforeSend.
Qed.

(** C4, as the code has it: starting with an empty queue (as a
    flush leaves it), let any sequence of [emit] calls be made and the
    queue be flushed.  The [emit] calls transmit nothing themselves.  For
    each destination [d], with [evs] the envelopes of the calls whose
    target resolved to identity [d], in the order of the calls: if [evs]
    is empty the flush transmits nothing to [d]; if it has one envelope,
    the flush hands that envelope, as it is, to [JSON.stringify]; if it
    has more, the array of the envelopes in that order; when the payload
    serializes it is transmitted once, to the sendable of the first call
    on the send channel, and when it does not, nothing is transmitted to
    [d] and the failure is logged.  The flush leaves the queue empty.  An
    envelope with an id never enters the queue: the request of a call is
    transmitted within [send], the [NotFound] response within
    [handleRPCRequest], and the response of a handler in the turn in which
    the promise of the handler settles. *)
Theorem flush_batches (es : list (JSONRPCTarget * string * Value)) (d : N)
    (st : State) :
  scheduleQueue st = ∅ →
  queueOrder st = [] →
  let st1 := emitAll getSendable DEFAULT_TIMEOUT es st in
  let evs := eventsFor getSendable d es in
  let payload := match evs with
                 | [(_, _, e)] => OfRequest (One e)
                 | _ => OfRequest (Many (map snd evs))
                 end in
  sent st1 = sent st
  ∧ sentTo d (sent (flushQueue st1))
    = sentTo d (sent st)
      ++ match evs with
         | [] => []
         | (channel, sendable, _) :: _ =>
             if serializable_payload payload
             then [(sendable, channel, payload)]
             else []
         end
  ∧ (evs ≠ [] → serializable_payload payload = false →
     ErrorFailedToSerialize payload ∈ console (flushQueue st1))
  ∧ Forall (λ item, item.1.1 = RPC_SEND_CHANNEL ∧ Sendable.id item.1.2 = d
                    ∧ isEvent item.2 = true) evs
  ∧ scheduleQueue (flushQueue st1) = ∅
  ∧ (∀ now target m args cb timeout st0 s,
       getSender getSendable target = Some s →
       let r := send getSendable DEFAULT_TIMEOUT now target m args (Some cb)
                  timeout st0 in
       scheduleQueue r.2 = scheduleQueue st0
       ∧ sent r.2
         = if serializable args
           then sent st0
                ++ [(s, RPC_SEND_CHANNEL,
                     OfRequest (One {| method := m; req_id := Some (nextId now st0);
                                       params := args |}))]
           else sent st0)
  ∧ (∀ sender req id st0,
       req_id req = Some id →
       getHandlerFor getSendable (method req) sender st0 = Return None →
       ∃ st',
         handleRPCRequest getSendable listener_body handler_result sender (One req) st0
         = Normal st'
         ∧ scheduleQueue st' = scheduleQueue st0
         ∧ sent st'
           = sent st0
             ++ [(sender, RPC_RECEIVE_CHANNEL,
                  OfResponse
                    (JSONRPCResponseError id
                       {| code := NotFound;
                          message := Plain ("method " +:+ method req +:+ " not found");
                          error_data := None |}))])
  ∧ (∀ k p res st0,
       promises st0 !! k = Some p →
       handlerResponse (reply_id p) (reply_fate p) = Some res →
       response_id res = reply_id p
       ∧ scheduleQueue (settlePromise k st0) = scheduleQueue st0
       ∧ sent (settlePromise k st0)
         = if serializable_payload (OfResponse res)
           then sent st0 ++ [(reply_sender p, RPC_RECEIVE_CHANNEL, OfResponse res)]
           else sent st0).
Proof.
  intros Hempty Horder st1 evs payload.
  assert (queue_ordered st) as Hord0.
  { split; rewrite Horder; [constructor|]. intros k. rewrite Hempty, lookup_empty.
    split; [by intros ?%elem_of_nil|by intros [? ?]]. }
  assert (queue_ordered st1) as Hord1 by (by apply queue_ordered_emitAll).
  assert (scheduleQueue st1 !! d = match evs with [] => None | _ => Some evs end)
    as Hq.
  { unfold st1. rewrite scheduleQueue_emitAll, Hempty, lookup_empty. fold evs.
    by destruct evs. }
  split; [apply sent_emitAll|]. split; [|split; [|split; [|split; [|split; [|split]]]]].
  - rewrite sentTo_flushQueue; [| |done].
    2: { apply queue_wf_emitAll. rewrite Hempty. intros k items item Hk.
         by rewrite lookup_empty in Hk. }
    unfold st1 at 1. rewrite sent_emitAll. f_equal. rewrite Hq.
    subst payload. destruct evs as [|[[ch s] e] [|y rest]]; [done| |].
    + unfold flushed. simpl. by destruct (serializable_request e).
    + unfold flushed. cbn [default app snd length].
      by rewrite bool_decide_true by (simpl; lia).
  - intros Hne Hser.
    apply (console_flushQueue d evs); [done| |done| |done].
    + rewrite Hq. by destruct evs.
    + subst payload. destruct evs as [|[[ch s] e] [|y rest]]; [done| |].
      * by rewrite bool_decide_false by (simpl; lia).
      * by rewrite bool_decide_true by (simpl; lia).
  - unfold evs, eventsFor. apply Forall_forall. intros item Hitem.
    apply list_elem_of_omap in Hitem as ([[t m] args] & _ & Hitem). simpl in Hitem.
    destruct (getSender getSendable t) as [s|]; [|done].
    destruct (Sendable.id s =? d)%N eqn:Hd; [|done].
    injection Hitem as <-. simpl. by apply N.eqb_eq in Hd.
  - unfold flushQueue. by rewrite scheduleQueue_foldl_flushOne.
  - intros now target m args cb timeout st0 s Hs.
    destruct (send_call_fields getSendable DEFAULT_TIMEOUT now target m args cb
                timeout st0 s Hs)
      as (_ & _ & _ & _ & _ & _ & Hqueue & _ & Hsent & _).
    by split.
  - intros sender req id st0 Hid Hnone.
    unfold handleRPCRequest, handleOne. rewrite Hid, Hnone.
    eexists. split; [done|]. by rewrite beforeSend_serializable.
  - intros k p res st0 Hk Hres.
    split; [|split; [apply scheduleQueue_settlePromise|]].
    + destruct (reply_fate p); simpl in Hres; try done; by injection Hres as <-.
    + unfold settlePromise. rewrite Hk.
      destruct (reply_fate p) eqn:Hfate; simpl in Hres; try done;
        injection Hres as <-; cbn [handlerResponse]; unfold beforeSend;
        match goal with
        | |- context [serializable_payload ?x] => destruct (serializable_payload x)
        end; done.
Qed.
End Batching.

(** ** Ids are strings of digits *)

Lemma isDigits_app a b : isDigits (a +:+ b) = isDigits a && isDigits b.
Proof.
  induction a as [|c a IH]; [done|].
  change (String c a +:+ b) with (String c (a +:+ b)). simpl.
  by rewrite IH, andb_assoc.
Qed.

Lemma isDigit_pretty_N_char x : isDigit (pretty_N_char x) = true.
Proof. unfold pretty_N_char. by repeat case_match. Qed.

Lemma isDigits_pretty_N_go x s : isDigits s = true → isDigits (pretty_N_go x s) = true.
Proof.
  revert s. induction (N.lt_wf_0 x) as [x _ IH]; intros s Hs.
  assert (x = 0 ∨ 0 < x)%N as [->|?] by lia; [by rewrite pretty_N_go_0|].
  rewrite pretty_N_go_step by done. apply IH; [by apply N.div_lt|].
  simpl. by rewrite isDigit_pretty_N_char.
Qed.

Lemma isDigits_pretty (n : N) : isDigits (pretty n) = true.
Proof.
  unfold pretty, pretty_N. case_decide; [done|]. by apply isDigits_pretty_N_go.
Qed.

Lemma isDigits_not_inherited s : isDigits s = true → inherited s = false.
Proof.
  intros Hs. unfold inherited. apply bool_decide_eq_false. intros Hin.
  assert (Forall (λ k, isDigits k = false) objectPrototype) as Hall
    by (repeat constructor).
  rewrite Forall_forall in Hall. apply Hall in Hin. congruence.
Qed.

(** No id [getId] makes names a member of [Object.prototype]. *)
Lemma nextId_not_inherited now st : inherited (getId now st).1 = false.
Proof.
  apply isDigits_not_inherited. simpl.
  by rewrite isDigits_app, !isDigits_pretty.
Qed.

(** ** Settlement of calls *)

Lemma quiet_refl st : quiet st st.
Proof. by repeat split. Qed.

Lemma quiet_trans st1 st2 st3 : quiet st1 st2 → quiet st2 st3 → quiet st1 st3.
Proof.
  intros (Hr1 & Hc1 & Ht1) (Hr2 & Hc2 & Ht2). repeat split; try congruence.
  intros t c id m dl H. by apply Ht1, Ht2.
Qed.

Lemma Inv_quiet st st' : Inv st → quiet st st' → Inv st'.
Proof.
  intros (He & Ht & Hs & Hi1 & Hi2) (Hr & Hc & Htm).
  split; [|split; [|split; [|split]]].
  - intros id r. rewrite Hr, Hc. apply He.
  - intros t c id m dl H. rewrite Hc. eapply Ht, Htm, H.
  - intros i c. rewrite Hc. apply Hs.
  - intros id r. rewrite Hr. apply Hi1.
  - intros t c id m dl H. eapply Hi2, Htm, H.
Qed.

Lemma quiet_foldl {A} (f : State → A → State) (l : list A) st :
  (∀ st a, quiet st (f st a)) → quiet st (foldl f st l).
Proof.
  intros Hf. revert st. induction l as [|a l IH]; intros st; simpl.
  - apply quiet_refl.
  - eapply quiet_trans; [apply Hf|apply IH].
Qed.

Lemma quiet_beforeSend sender channel payload st :
  quiet st (beforeSend sender channel payload st).
Proof. unfold beforeSend. destruct (serializable_payload _); by repeat split. Qed.

Lemma quiet_flushOne st entry : quiet st (flushOne st entry).
Proof.
  unfold flushOne. destruct entry.2 as [|[[ch s] p] rest]; [apply quiet_refl|].
  destruct (bool_decide _); apply quiet_beforeSend.
Qed.

Lemma quiet_flushQueue st : quiet st (flushQueue st).
Proof.
  unfold flushQueue.
  eapply quiet_trans; [|apply quiet_foldl, quiet_flushOne]. by repeat split.
Qed.

Lemma quiet_scheduleRequest channel s payload st :
  quiet st (scheduleRequest channel s payload st).
Proof.
  unfold scheduleRequest. destruct (isEvent payload); [|apply quiet_beforeSend].
  simpl. destruct (queueTick st =? 0)%N; (split; [done|split; [done|]]); [|done].
  simpl.
  intros t c id m dl H.
  destruct (decide (next_timer st = t)) as [<-|Hne].
  - by rewrite lookup_insert_eq in H.
  - by rewrite lookup_insert_ne in H.
Qed.

Lemma quiet_on m cb t st : quiet st (state_of (on m cb t st)).
Proof. unfold on. destruct (property (listeners st) m); simpl; by repeat split. Qed.

Lemma quiet_off gs m cb t st : quiet st (off gs m cb t st).2.
Proof.
  unfold off. destruct (property (listeners st) m); [|apply quiet_refl..].
  destruct (findIndex _ _); by repeat split.
Qed.

Lemma quiet_removeAllListener gs t st : quiet st (removeAllListener gs t st).
Proof.
  unfold removeAllListener. destruct t; [|by repeat split].
  apply quiet_foldl. intros st' e. unfold pruneMethod.
  destruct (bool_decide _); simpl; by repeat split.
Qed.

Lemma quiet_registerHandler gs m h t st :
  quiet st (state_of (registerHandler gs m h t st)).
Proof.
  unfold registerHandler.
  destruct (property (handlers st) m); [|apply quiet_refl|by repeat split].
  destruct t as [t|]; [destruct (truthy_target t); simpl|];
    try destruct (existsb _ _); by repeat split.
Qed.

Lemma quiet_unregisterHandler gs m t st : quiet st (unregisterHandler gs m t st).2.
Proof.
  unfold unregisterHandler. destruct (property (handlers st) m); [|apply quiet_refl..].
  destruct (findIndex _ _); by repeat split.
Qed.

Lemma quiet_perform gs st a : quiet st (perform gs st a).
Proof.
  destruct a; simpl;
    [apply quiet_on|apply quiet_off|apply quiet_removeAllListener].
Qed.

Lemma quiet_callListener gs lb cb args sid st :
  quiet st (callListener gs lb cb args sid st).
Proof.
  unfold callListener.
  eapply quiet_trans; [|apply quiet_foldl; intros; apply quiet_perform].
  by repeat split.
Qed.

Lemma quiet_handleOne gs lb hr sender st req :
  quiet st (state_of (handleOne gs lb hr sender st req)).
Proof.
  unfold handleOne. destruct (req_id req) as [id|].
  - destruct (getHandlerFor _ _ _ _) as [[h|]|]; [| |apply quiet_refl].
    + destruct (hr _ _ _); by repeat split.
    + apply quiet_beforeSend.
  - destruct (property (listeners st) (method req)) as [a| |]; [|apply quiet_refl..].
    simpl. eapply quiet_trans; [|apply quiet_foldl].
    + by repeat split.
    + intros st' k. destruct (arrays st' !! _ ≫= _) as [i|]; [|apply quiet_refl].
      destruct (isSenderMatchTarget _ _ _);
        [apply quiet_callListener|apply quiet_refl].
Qed.

Lemma quiet_handleRequest gs lb hr sender req st :
  quiet st (state_of (handleRequest gs lb hr sender req st)).
Proof.
  apply (handleRequest_preserves gs lb hr sender (quiet st)); [apply quiet_refl|].
  intros st' r Hq. eapply quiet_trans; [done|apply quiet_handleOne].
Qed.

Lemma quiet_settlePromise k st : quiet st (settlePromise k st).
Proof.
  unfold settlePromise. destruct (promises st !! k) as [p|]; [|apply quiet_refl].
  destruct (reply_fate p); simpl; try apply quiet_refl; try (by repeat split);
    (eapply quiet_trans; [|apply quiet_beforeSend]); by repeat split.
Qed.

Lemma Inv_init : Inv init.
Proof.
  split; [|split; [|split; [|split]]].
  - intros id r H. simpl in H. by rewrite lookup_empty in H.
  - intros t c id m dl H. simpl in H. by rewrite lookup_empty in H.
  - intros i c H. simpl in H. by rewrite lookup_nil in H.
  - intros id r H. simpl in H. by rewrite lookup_empty in H.
  - intros t c id m dl H. simpl in H. by rewrite lookup_empty in H.
Qed.

Lemma Inv_set_uid u st : Inv st → Inv (set_uid u st).
Proof. intros H. eapply Inv_quiet; [done|]. by repeat split. Qed.

Lemma call_id_settle s c : call_id (settle s c) = call_id c.
Proof. done. Qed.

Lemma Inv_rejectReleased cb id target st :
  Inv st → Inv (rejectReleased cb id target st).
Proof.
  intros (He & Ht & Hs & Hi). unfold rejectReleased. split; [|split; [|split]].
  - intros i r Hr. simpl in *. destruct (He i r Hr) as (c & Hc & ?).
    exists c. split; [|done]. by apply lookup_app_l_Some.
  - intros t c i m dl H. simpl in *. destruct (Ht t c i m dl H) as (call & Hc & ?).
    exists call. split; [|done]. by apply lookup_app_l_Some.
  - intros i c. simpl. intros H.
    apply lookup_app_Some in H as [H|[_ H]]; [by eapply Hs|].
    apply list_lookup_singleton_Some in H as [_ <-]. simpl. lia.
  - exact Hi.
Qed.

Lemma Inv_expectResponse dt cb id m args timeout st :
  inherited id = false →
  Inv st → Inv (expectResponse dt cb id m args timeout st).
Proof.
  intros Hid (He & Ht & Hs & Hi1 & Hi2). unfold expectResponse.
  set (eff := match timeout with
              | Some t => if truthy t then t else dt
              | None => dt
              end).
  destruct (gt0 eff && negb (isInfinity eff)); simpl;
    (split; [|split; [|split; [|split]]]).
  all: try (intros i r Hr; simpl in *;
    destruct (decide (id = i)) as [<-|Hne];
    [done|rewrite lookup_insert_ne in Hr by done; by eapply Hi1]).
  all: try (intros i r Hr; simpl in *;
    destruct (decide (id = i)) as [<-|Hne];
    [rewrite lookup_insert_eq in Hr; injection Hr as <-; simpl;
     eexists; split; [by apply list_lookup_middle|done]
    |rewrite lookup_insert_ne in Hr by done;
     destruct (He i r Hr) as (c & Hc & ?);
     exists c; split; [by apply lookup_app_l_Some|done]]).
  all: try (intros i c; simpl; intros H;
    apply lookup_app_Some in H as [H|[_ H]]; [by eapply Hs|];
    apply list_lookup_singleton_Some in H as [_ <-]; simpl; lia).
  - intros t c i m' dl H. simpl in *.
    destruct (decide (next_timer st = t)) as [<-|Hne].
    + rewrite lookup_insert_eq in H. injection H as <- <- <- <-.
      eexists. split; [by apply list_lookup_middle|done].
    + rewrite lookup_insert_ne in H by done.
      destruct (Ht t c i m' dl H) as (call & Hc & ?).
      exists call. split; [by apply lookup_app_l_Some|done].
  - intros t c i m' dl H. simpl in *.
    destruct (decide (next_timer st = t)) as [<-|Hne].
    + rewrite lookup_insert_eq in H. by injection H as <- <- <- <-.
    + rewrite lookup_insert_ne in H by done. by eapply Hi2.
  - intros t c i m' dl H. simpl in *.
    destruct (Ht t c i m' dl H) as (call & Hc & ?).
    exists call. split; [by apply lookup_app_l_Some|done].
  - intros t c i m' dl H. simpl in *. by eapply Hi2.
Qed.

(** A call record is settled in place; the entry of its id is removed. *)
Lemma Inv_settle st c call s tm :
  Inv st →
  calls st !! c = Some call →
  resolved call = false →
  settlements call = [] →
  (∀ t x i m dl, tm !! t = Some (TimeoutTask x i m dl) →
                 timers st !! t = Some (TimeoutTask x i m dl)) →
  Inv (set_responder (delete (call_id call) (responder st))
         (set_timers tm (set_calls (<[c := settle s call]> (calls st)) st))).
Proof.
  intros (He & Ht & Hs & Hi1 & Hi2) Hc Hres Hset Htm.
  split; [|split; [|split; [|split]]].
  4: { intros i r Hr. simpl in *. apply lookup_delete_Some in Hr as [_ Hr].
       by eapply Hi1. }
  4: { intros t x i m dl H. simpl in *. apply Htm in H. by eapply Hi2. }
  - intros i r Hr. simpl in *.
    destruct (decide (call_id call = i)) as [<-|Hne].
    { by rewrite lookup_delete_eq in Hr. }
    rewrite lookup_delete_ne in Hr by done.
    destruct (He i r Hr) as (c' & Hc' & Hid & ?).
    exists c'. split; [|done].
    rewrite list_lookup_insert_ne; [done|]. intros ->. congruence.
  - intros t x i m dl H. simpl in *. apply Htm in H.
    destruct (Ht t x i m dl H) as (call' & Hc' & Hid & Htimer & Himp).
    destruct (decide (c = x)) as [<-|Hne].
    + exists (settle s call). split.
      * apply list_lookup_insert_eq. by eapply lookup_lt_Some.
      * rewrite Hc in Hc'. injection Hc' as <-. by repeat split.
    + exists call'. split; [|done]. by rewrite list_lookup_insert_ne.
  - intros i x. simpl. intros H.
    destruct (decide (c = i)) as [<-|Hne].
    + rewrite list_lookup_insert_eq in H by (by eapply lookup_lt_Some).
      injection H as <-. simpl. rewrite Hset. simpl. lia.
    + rewrite list_lookup_insert_ne in H by done. by eapply Hs.
Qed.

Lemma Inv_drop_timer t st : Inv st → Inv (set_timers (delete t (timers st)) st).
Proof.
  intros H. eapply Inv_quiet; [done|]. split; [done|split; [done|]].
  intros t' c id m dl. simpl. intros Hl.
  destruct (decide (t = t')) as [<-|Hne].
  - by rewrite lookup_delete_eq in Hl.
  - by rewrite lookup_delete_ne in Hl.
Qed.

Lemma Inv_handleRPCResponse res st :
  Inv st → Inv (state_of (handleRPCResponse res st)).
Proof.
  intros HI. unfold handleRPCResponse.
  destruct (property (responder st) (response_id res)) as [r| |] eqn:Hr; [|done|].
  2: { eapply Inv_quiet; [done|]. by repeat split. }
  apply property_Own in Hr.
  destruct (proj1 HI _ _ Hr) as (call & Hc & Hid & Hres & Hset).
  assert (∀ s, Inv (set_responder
                      (delete (response_id res) (responder (responder_callback (closure r) s st)))
                      (responder_callback (closure r) s st))) as Hgoal.
  { intros s. unfold responder_callback. rewrite Hc, Hres. rewrite <- Hid.
    destruct (timer call) as [t|].
    - apply (Inv_settle st (closure r) call s (delete t (timers st))); try done.
      intros t' x i m dl Hl. destruct (decide (t = t')) as [<-|Hne].
      + by rewrite lookup_delete_eq in Hl.
      + by rewrite lookup_delete_ne in Hl.
    - pose proof (Inv_settle st (closure r) call s (timers st) HI Hc Hres Hset
                    (λ _ _ _ _ _ H, H)) as Hsettled.
      by destruct st. }
  destruct (settlement_of res r) as [s|x]; [apply Hgoal|done].
Qed.

Lemma Inv_timeout_callback c id m dl t st :
  Inv st →
  timers st !! t = Some (TimeoutTask c id m dl) →
  Inv (timeout_callback c id m (set_timers (delete t (timers st)) st)).
Proof.
  intros HI Ht. unfold timeout_callback. simpl.
  destruct (proj1 (proj2 HI) _ _ _ _ _ Ht) as (call & Hc & Hid & _ & Himp).
  rewrite Hc. destruct (resolved call) eqn:Hres; [by apply Inv_drop_timer|].
  rewrite <- Hid.
  apply (Inv_settle st c call _ (delete t (timers st))); try done; [by apply Himp|].
  intros t' x i m' dl' Hl. destruct (decide (t = t')) as [<-|Hne].
  - by rewrite lookup_delete_eq in Hl.
  - by rewrite lookup_delete_ne in Hl.
Qed.

Lemma Inv_fireTimer t st : Inv st → Inv (fireTimer t st).
Proof.
  intros HI. unfold fireTimer.
  destruct (timers st !! t) as [[c id m dl|]|] eqn:Ht; [| |done].
  - by eapply Inv_timeout_callback.
  - eapply Inv_quiet; [by apply (Inv_drop_timer t)|]. apply quiet_flushQueue.
Qed.

Lemma Inv_send gs dt now target m args callback timeout st :
  Inv st → Inv (send gs dt now target m args callback timeout st).2.
Proof.
  intros HI. unfold send.
  destruct callback as [cb|]; simpl.
  - destruct (getSender gs target) as [s|]; simpl.
    + eapply Inv_quiet; [|apply quiet_scheduleRequest].
      apply Inv_expectResponse; [apply nextId_not_inherited|by apply Inv_set_uid].
    + by apply Inv_rejectReleased, Inv_set_uid.
  - destruct (getSender gs target) as [s|]; simpl; [|done].
    eapply Inv_quiet; [done|apply quiet_scheduleRequest].
Qed.

Lemma Inv_step dt st st' : Inv st → step dt st st' → Inv st'.
Proof.
  intros HI Hstep. destruct Hstep.
  - by apply Inv_send.
  - by apply Inv_fireTimer.
  - destruct res as [|res]; simpl; [done|]. by apply Inv_handleRPCResponse.
  - eapply Inv_quiet; [done|apply quiet_handleRequest].
  - eapply Inv_quiet; [done|apply quiet_settlePromise].
  - eapply Inv_quiet; [done|apply quiet_on].
  - eapply Inv_quiet; [done|apply quiet_off].
  - eapply Inv_quiet; [done|apply quiet_removeAllListener].
  - eapply Inv_quiet; [done|apply quiet_registerHandler].
  - eapply Inv_quiet; [done|apply quiet_unregisterHandler].
Qed.

Lemma Inv_reachable dt st : reachable dt st → Inv st.
Proof.
  unfold reachable. revert st. apply rtc_ind_r; [apply Inv_init|].
  intros y z _ Hstep IH. by eapply Inv_step.
Qed.


(** A response that finds its entry and an unresolved call. *)
Lemma handleRPCResponse_entry res r s call st :
  responder st !! response_id res = Some r →
  settlement_of res r = Return s →
  calls st !! closure r = Some call →
  resolved call = false →
  ∃ st',
    handleRPCResponse res st = Normal st'
    ∧ calls st' = <[closure r := settle s call]> (calls st)
    ∧ timers st'
      = match timer call with
        | Some t => delete t (timers st)
        | None => timers st
        end
    ∧ responder st' = delete (response_id res) (responder st)
    ∧ console st' = console st.
Proof.
  intros Hr Hs Hc Hres. unfold handleRPCResponse.
  rewrite (property_Some _ _ _ Hr), Hs. eexists. split; [done|].
  unfold responder_callback. rewrite Hc, Hres. by destruct (timer call).
Qed.


(** ** Request ids *)

Lemma length_string_app (s t : string) :
  String.length (s +:+ t) = String.length s + String.length t.
Proof.
  induction s as [|a s IH]; [done|].
  change (S (String.length (s +:+ t)) = S (String.length s) + String.length t).
  by rewrite IH.
Qed.

Lemma string_app_inj (s1 s2 t1 t2 : string) :
  String.length t1 = String.length t2 →
  s1 +:+ t1 = s2 +:+ t2 → s1 = s2 ∧ t1 = t2.
Proof.
  intros Hlen. revert s2.
  induction s1 as [|a s1 IH]; intros [|b s2] Heq.
  - done.
  - exfalso. change (t1 = String b (s2 +:+ t2)) in Heq.
    rewrite Heq in Hlen. simpl in Hlen.
    rewrite length_string_app in Hlen. lia.
  - exfalso. change (String a (s1 +:+ t1) = t2) in Heq.
    rewrite <- Heq in Hlen. simpl in Hlen.
    rewrite length_string_app in Hlen. lia.
  - change (String a (s1 +:+ t1) = String b (s2 +:+ t2)) in Heq.
    injection Heq as -> Heq. destruct (IH _ Heq) as [-> ->]. done.
Qed.

(** Two ids made from clock readings with the same number of digits are
    equal only if the counters and the readings are. *)
Lemma getId_inj (now1 now2 : N) (st1 st2 : State) :
  String.length (pretty now1) = String.length (pretty now2) →
  (getId now1 st1).1 = (getId now2 st2).1 →
  uid (getId now1 st1).2 = uid (getId now2 st2).2 ∧ now1 = now2.
Proof.
  intros Hlen Heq. simpl in *.
  apply string_app_inj in Heq as [Hu Hn]; [|done].
  split; [by apply (inj pretty)|by apply (inj pretty)].
Qed.

Lemma elem_of_issueIds clock st i :
  i ∈ issueIds clock st →
  ∃ k now, (1 ≤ k ≤ N.of_nat (length clock))%N ∧ now ∈ clock
           ∧ i = pretty ((uid st + k) `mod` MAX_SAFE_INTEGER)%N +:+ pretty now.
Proof.
  revert st. induction clock as [|now rest IH]; intros st Hi; simpl in Hi.
  { by apply elem_of_nil in Hi. }
  apply elem_of_cons in Hi as [->|Hi].
  - exists 1%N, now. split; [simpl; lia|]. split; [by left|done].
  - apply IH in Hi as (k & now' & Hk & Hnow & ->). simpl.
    exists (1 + k)%N, now'. split; [simpl length; lia|]. split; [by right|].
    by rewrite N.Div0.add_mod_idemp_l, N.add_assoc.
Qed.

Lemma mod_add_ne (u k : N) :
  (u < MAX_SAFE_INTEGER)%N → (1 ≤ k)%N → (k < MAX_SAFE_INTEGER)%N →
  ((u + k) `mod` MAX_SAFE_INTEGER ≠ u)%N.
Proof.
  intros Hu Hk1 Hk2 Heq.
  destruct (decide (u + k < MAX_SAFE_INTEGER)%N) as [Hlt|Hge].
  - rewrite N.mod_small in Heq by done. lia.
  - assert ((u + k - MAX_SAFE_INTEGER) = (u + k) `mod` MAX_SAFE_INTEGER)%N as Hm.
    { apply (N.mod_unique _ _ 1); lia. }
    lia.
Qed.

(** While the readings of the clock have the same number of digits and
    fewer calls are made than the counter has values, the ids given to
    the calls are pairwise distinct. *)
Lemma issueIds_NoDup (clock : list N) (digits : nat) (st : State) :
  (N.of_nat (length clock) < MAX_SAFE_INTEGER)%N →
  (∀ now, now ∈ clock → String.length (pretty now) = digits) →
  NoDup (issueIds clock st).
Proof.
  revert st. induction clock as [|now rest IH]; intros st Hlen Hdigits; simpl.
  { apply NoDup_nil_2. }
  apply NoDup_cons. split.
  - intros Hin. apply elem_of_issueIds in Hin as (k & now' & Hk & Hnow' & Heq).
    simpl in Heq. apply string_app_inj in Heq as [Hu _].
    2: { rewrite (Hdigits now) by (by left). rewrite (Hdigits now') by (by right). done. }
    apply (inj pretty) in Hu. symmetry in Hu. revert Hu.
    apply mod_add_ne; [by apply N.mod_lt|lia|simpl length in Hlen; lia].
  - apply IH; [simpl length in Hlen; lia|]. intros now' Hnow'. apply Hdigits. by right.
Qed.






(** *** The number of digits of a number *)









(** When the number of digits of the clock falls between two calls (the
    clock is set back by 10^12 ms) two ids can be equal: the
    first call is made when [Date.now()] reads 1700000000000, the
    eleventh when it reads 700000000000, and both are given the id
    "11700000000000". *)
Lemma getId_collision :
  let clock := 1700000000000%N :: replicate 9 1700000000001%N ++ [700000000000%N] in
  let st := callAll world (Finite 30000) (ContentsId 1) "ping" clock init in
  length (calls st) = 11
  ∧ call_id <$> calls st !! 0 = Some "11700000000000"
  ∧ call_id <$> calls st !! 10 = Some "11700000000000".
Proof. by vm_compute. Qed.

(** ** The theorems at the states of the examples *)

Lemma one_call_reachable : reachable (Finite 30000) one_call.
Proof.
  apply rtc_once.
  apply (step_send _ world 1700000000000 (ContentsId 1) "ping" VNull (Some 0) None).
Qed.



Lemma flush_batches_witness :
  scheduleQueue init = ∅
  ∧ queueOrder init = []
  ∧ sentTo 1 (sent (flushQueue (emitAll world (Finite 30000) three_emits init)))
    = [(windowA, RPC_SEND_CHANNEL,
        OfRequest (Many [event "m" (VObject ["x"] [VNumber 1]);
                         event "m" (VObject ["x"] [VNumber 2])]))].
Proof.
  split; [reflexivity|]. split; [reflexivity|].
  exact (proj1 (proj2 (flush_batches world (Finite 30000) quiet_listeners echo_handlers
                         three_emits 1 init eq_refl eq_refl))).
Defined.

(** C4 as stated fails: one event was queued for window A, and the flush
    transmits nothing to it, because the parameters of the event do not
    serialize.  Nor is a request sent whose parameters do not serialize;
    and the response of a handler is not sent within the turn of the
    request, but in the turn in which the promise of the handler
    settles. *)
Lemma flush_drops_unserializable :
  let es := [(ContentsId 1, "m", VCyclic)] in
  let request := One {| method := "m"; req_id := Some "1"; params := VNull |} in
  let answering := state_of (handleRPCRequest world quiet_listeners echo_handlers
                               windowA request two_handlers) in
  eventsFor world 1 es = [(RPC_SEND_CHANNEL, windowA, event "m" VCyclic)]
  ∧ sentTo 1 (sent (flushQueue (emitAll world (Finite 30000) es init))) = []
  ∧ sent (send world (Finite 30000) 1700000000000 (ContentsId 1) "m" VCyclic
            (Some 0) None init).2 = []
  ∧ sent answering = []
  ∧ sent (settlePromise 0 answering)
    = [(windowA, RPC_RECEIVE_CHANNEL, OfResponse (JSONRPCResponseSuccess "1" VNull))].
Proof. by vm_compute. Qed.






(** The first listener removes the second while the event is dispatched;
    both are called, and the registry is empty afterwards. *)
Example event_dispatch_unsubscribing :
  let st := state_of
              (handleRPCRequest world unsubscribing_listeners echo_handlers windowA
                 (One (event "e" VNull)) two_listeners) in
  heard st = [(1, VNull, 1%N); (2, VNull, 1%N)]
  ∧ listeners st !! "e" = None.
Proof. by vm_compute. Qed.

Lemma two_listeners_reachable : reachable (Finite 30000) two_listeners.
Proof.
  eapply rtc_l; [apply (step_on _ "e" 1 None)|].
  apply rtc_once. apply (step_on _ "e" 2 None).
Qed.


(** Were the array of the registry itself run over, the second listener
    would be skipped once the first has unsubscribed itself; over the copy
    both are called. *)
Example forEach_live_array :
  let deliver := λ (i : ListenerEntry) st,
                   callListener world self_removing_listeners (listener_callback i)
                     VNull 1%N st in
  let st' := state_of
               (handleRPCRequest world self_removing_listeners echo_handlers windowA
                  (One (event "e" VNull)) two_listeners) in
  listeners two_listeners !! "e" = Some 0
  ∧ heard (forEach 0 deliver two_listeners) = [(1, VNull, 1%N)]
  ∧ heard st' = [(1, VNull, 1%N); (2, VNull, 1%N)]
  ∧ listenersOf "e" st' = [{| listener_target := None; listener_callback := 2 |}].
Proof. by vm_compute. Qed.

(** * Further properties *)

(** ** Target equality is a partial equivalence *)

Section TargetEquality.
Variable getSendable : JSONRPCTarget → Lookup.

Lemma isTargetEqual_sym a b :
  isTargetEqual getSendable a b = isTargetEqual getSendable b a.
Proof.
  destruct a as [a|], b as [b|]; simpl; try done.
  destruct (getSender getSendable a), (getSender getSendable b); try done.
  apply N.eqb_sym.
Qed.

(** [isTargetEqual] is symmetric and transitive, and a target is equal to
    itself exactly when it is unset or resolves. *)
Theorem isTargetEqual_per (a b c : option JSONRPCTarget) :
  isTargetEqual getSendable a b = isTargetEqual getSendable b a
  ∧ (isTargetEqual getSendable a b = true →
     isTargetEqual getSendable b c = true →
     isTargetEqual getSendable a c = true)
  ∧ (isTargetEqual getSendable a a = true
     ↔ a = None ∨ ∃ t s, a = Some t ∧ getSender getSendable t = Some s).
Proof.
  split; [apply isTargetEqual_sym|]. split.
  - destruct a as [a|], b as [b|], c as [c|]; simpl; try done.
    destruct (getSender getSendable a), (getSender getSendable b),
      (getSender getSendable c); try done.
    rewrite !N.eqb_eq. congruence.
  - destruct a as [a|]; simpl.
    + destruct (getSender getSendable a) as [s|] eqn:Hs.
      * rewrite N.eqb_refl. split; [|done]. intros _. right. by exists a, s.
      * split; [done|]. intros [?|(t & s & [= <-] & Hs')]; congruence.
    + split; [|done]. intros _. by left.
Qed.
End TargetEquality.

(** ** What each method leaves alone *)

Lemma core_same_refl st : core_same st st.
Proof. by repeat split. Qed.

Lemma core_same_trans st1 st2 st3 :
  core_same st1 st2 → core_same st2 st3 → core_same st1 st3.
Proof.
  intros (?&?&?&?&?&?&?&?) (?&?&?&?&?&?&?&?). unfold core_same.
  repeat split; congruence.
Qed.

Lemma core_same_foldl {A} (f : State → A → State) (l : list A) st :
  (∀ st a, core_same st (f st a)) → core_same st (foldl f st l).
Proof.
  intros Hf. revert st. induction l as [|a l IH]; intros st; simpl.
  - apply core_same_refl.
  - eapply core_same_trans; [apply Hf|apply IH].
Qed.

Lemma core_same_beforeSend sender channel payload st :
  core_same st (beforeSend sender channel payload st).
Proof. unfold beforeSend. destruct (serializable_payload payload); by repeat split. Qed.

Lemma core_same_on m cb t st : core_same st (state_of (on m cb t st)).
Proof. unfold on. destruct (property (listeners st) m); simpl; by repeat split. Qed.

Lemma core_same_off gs m cb t st : core_same st (off gs m cb t st).2.
Proof.
  unfold off. destruct (property (listeners st) m); [|apply core_same_refl..].
  destruct (findIndex _ _); by repeat split.
Qed.

Lemma core_same_removeAllListener gs t st : core_same st (removeAllListener gs t st).
Proof.
  unfold removeAllListener. destruct t; [|by repeat split].
  apply core_same_foldl. intros st' e. unfold pruneMethod.
  destruct (bool_decide _); simpl; by repeat split.
Qed.

Lemma core_same_perform gs st a : core_same st (perform gs st a).
Proof.
  destruct a; simpl;
    [apply core_same_on|apply core_same_off|apply core_same_removeAllListener].
Qed.

Lemma core_same_handleOne gs lb hr sender st req :
  core_same st (state_of (handleOne gs lb hr sender st req)).
Proof.
  unfold handleOne. destruct (req_id req) as [id|].
  - destruct (getHandlerFor _ _ _ _) as [[h|]|]; [| |apply core_same_refl].
    + destruct (hr _ _ _); by repeat split.
    + apply core_same_beforeSend.
  - destruct (property (listeners st) (method req)) as [a| |];
      [|apply core_same_refl..].
    simpl. eapply core_same_trans; [|apply core_same_foldl].
    + by repeat split.
    + intros st' k. destruct (arrays st' !! _ ≫= _) as [i|]; [|apply core_same_refl].
      destruct (isSenderMatchTarget _ _ _); [|apply core_same_refl].
      unfold callListener. eapply core_same_trans; [|apply core_same_foldl].
      * by repeat split.
      * intros. apply core_same_perform.
Qed.

Lemma core_same_handleRequest gs lb hr sender req st :
  core_same st (state_of (handleRequest gs lb hr sender req st)).
Proof.
  apply (handleRequest_preserves gs lb hr sender (core_same st));
    [apply core_same_refl|].
  intros st' r Hc. eapply core_same_trans; [done|apply core_same_handleOne].
Qed.

Lemma core_same_settlePromise k st : core_same st (settlePromise k st).
Proof.
  unfold settlePromise. destruct (promises st !! k) as [p|]; [|apply core_same_refl].
  destruct (reply_fate p); simpl; try apply core_same_refl; try (by repeat split);
    (eapply core_same_trans; [|apply core_same_beforeSend]); by repeat split.
Qed.

Lemma core_same_registerHandler gs m h t st :
  core_same st (state_of (registerHandler gs m h t st)).
Proof.
  unfold registerHandler.
  destruct (property (handlers st) m); [|apply core_same_refl|by repeat split].
  destruct t as [t|]; [destruct (truthy_target t); simpl|];
    try destruct (existsb _ _); by repeat split.
Qed.

Lemma core_same_unregisterHandler gs m t st :
  core_same st (unregisterHandler gs m t st).2.
Proof.
  unfold unregisterHandler.
  destruct (property (handlers st) m); [|apply core_same_refl..].
  destruct (findIndex _ _); by repeat split.
Qed.

(** Only [registerHandler] and [unregisterHandler] change the handler
    registry. *)
Lemma handlers_beforeSend sender channel payload st :
  handlers (beforeSend sender channel payload st) = handlers st.
Proof. unfold beforeSend. by destruct (serializable_payload payload). Qed.

Lemma handlers_foldl {A} (f : State → A → State) (l : list A) st :
  (∀ st a, handlers (f st a) = handlers st) → handlers (foldl f st l) = handlers st.
Proof.
  intros Hf. revert st. induction l as [|a l IH]; intros st; simpl; [done|].
  by rewrite IH, Hf.
Qed.

Lemma handlers_flushQueue st : handlers (flushQueue st) = handlers st.
Proof.
  unfold flushQueue. rewrite handlers_foldl; [done|].
  intros st' e. unfold flushOne. destruct e.2 as [|[[ch s] p] rest]; [done|].
  destruct (bool_decide _); apply handlers_beforeSend.
Qed.

Lemma handlers_scheduleRequest channel s payload st :
  handlers (scheduleRequest channel s payload st) = handlers st.
Proof.
  unfold scheduleRequest. destruct (isEvent payload); [|apply handlers_beforeSend].
  simpl. by destruct (queueTick st =? 0)%N.
Qed.

Lemma handlers_send gs dt now target m args callback timeout st :
  handlers (send gs dt now target m args callback timeout st).2 = handlers st.
Proof.
  unfold send. destruct callback as [cb|]; simpl;
    destruct (getSender gs target) as [s|]; simpl; try done;
    rewrite handlers_scheduleRequest; [|done].
  unfold expectResponse. simpl. by destruct (gt0 _ && negb _).
Qed.

Lemma handlers_handleRPCResponse res st :
  handlers (state_of (handleRPCResponse res st)) = handlers st.
Proof.
  unfold handleRPCResponse.
  destruct (property (responder st) (response_id res)) as [r| |]; [|done..].
  destruct (settlement_of res r) as [s|x]; [|done]. simpl.
  unfold responder_callback.
  destruct (calls st !! closure r) as [c|]; try done;
    destruct (resolved c); try done; by destruct (timer c).
Qed.

Lemma handlers_handleResponse res st :
  handlers (state_of (handleResponse res st)) = handlers st.
Proof. destruct res as [|res]; [done|]. apply handlers_handleRPCResponse. Qed.

Lemma same_registry_handleResponse res st :
  same_registry st (state_of (handleResponse res st)).
Proof. destruct res as [|res]; [done|]. apply same_registry_handleRPCResponse. Qed.

Lemma handlers_settlePromise k st : handlers (settlePromise k st) = handlers st.
Proof.
  unfold settlePromise. destruct (promises st !! k) as [p|]; [|done].
  destruct (reply_fate p); simpl; try done; by rewrite handlers_beforeSend.
Qed.

Lemma handlers_fireTimer t st : handlers (fireTimer t st) = handlers st.
Proof.
  unfold fireTimer. destruct (timers st !! t) as [[c id m dl|]|]; [| |done].
  - unfold timeout_callback. simpl. destruct (calls st !! c) as [call|]; [|done].
    by destruct (resolved call).
  - by rewrite handlers_flushQueue.
Qed.

Lemma handlers_perform gs st a : handlers (perform gs st a) = handlers st.
Proof.
  destruct a as [m cb t|m cb t|t]; simpl.
  - unfold on. by destruct (property (listeners st) m).
  - unfold off. destruct (property (listeners st) m); [|done..].
    by destruct (findIndex _ _).
  - unfold removeAllListener. destruct t; [|done].
    apply handlers_foldl. intros st' e. unfold pruneMethod.
    by destruct (bool_decide _).
Qed.

Lemma handlers_handleOne gs lb hr sender st req :
  handlers (state_of (handleOne gs lb hr sender st req)) = handlers st.
Proof.
  unfold handleOne. destruct (req_id req) as [id|].
  - destruct (getHandlerFor _ _ _ _) as [[h|]|]; [| |done].
    + by destruct (hr _ _ _).
    + apply handlers_beforeSend.
  - destruct (property (listeners st) (method req)) as [a| |]; [|done..].
    simpl. etransitivity; [apply handlers_foldl|done].
    intros st' k. destruct (arrays st' !! _ ≫= _) as [i|]; [|done].
    destruct (isSenderMatchTarget _ _ _); [|done].
    unfold callListener. etransitivity; [apply handlers_foldl|done].
    intros. apply handlers_perform.
Qed.

Lemma handlers_handleRequest gs lb hr sender req st :
  handlers (state_of (handleRequest gs lb hr sender req st)) = handlers st.
Proof.
  apply (handleRequest_preserves gs lb hr sender (λ st', handlers st' = handlers st));
    [done|].
  intros st' r <-. apply handlers_handleOne.
Qed.

(** ** The listener registry *)

(** The methods of a reachable registry refer to arrays of the store, each
    to its own. *)
Lemma refs_distinct_same st st' :
  refs_distinct st → same_registry st st' → refs_distinct st'.
Proof. intros Hd [Hl _] m1 m2 a. rewrite Hl. apply Hd. Qed.

Lemma registry_ok_same st st' : registry_ok st → same_registry st st' → registry_ok st'.
Proof.
  intros [Hv Hd] Hs. split; [by eapply refs_valid_same|by eapply refs_distinct_same].
Qed.

Lemma registry_ok_newArray l m st :
  registry_ok st →
  registry_ok (set_listeners (<[m := (newArray l st).1]> (listeners (newArray l st).2))
                 (newArray l st).2).
Proof.
  intros [Hv Hd]. split; [by apply refs_valid_newArray|].
  intros m1 m2 a. simpl. intros H1 H2.
  destruct (decide (m = m1)) as [<-|Hne1], (decide (m = m2)) as [<-|Hne2]; try done.
  - rewrite lookup_insert_eq in H1. rewrite lookup_insert_ne in H2 by done.
    injection H1 as <-. apply Hv in H2. lia.
  - rewrite lookup_insert_eq in H2. rewrite lookup_insert_ne in H1 by done.
    injection H2 as <-. apply Hv in H1. lia.
  - rewrite lookup_insert_ne in H1, H2 by done. by eapply Hd.
Qed.

Lemma registry_ok_grow l st : registry_ok st → registry_ok (newArray l st).2.
Proof.
  intros [Hv Hd]. split; [|done].
  intros m a Hm. simpl in *. rewrite length_app. apply Hv in Hm. lia.
Qed.

Lemma registry_ok_alter f a st :
  registry_ok st → registry_ok (set_arrays (alter f a (arrays st)) st).
Proof.
  intros [Hv Hd]. split; [|done]. intros m a'. simpl. rewrite length_alter. apply Hv.
Qed.

Lemma registry_ok_on m cb t st :
  registry_ok st → registry_ok (state_of (on m cb t st)).
Proof.
  intros Hok. unfold on. destruct (property (listeners st) m) as [a| |]; [|done|].
  - by apply registry_ok_alter.
  - by apply registry_ok_newArray.
Qed.

Lemma registry_ok_off gs m cb t st : registry_ok st → registry_ok (off gs m cb t st).2.
Proof.
  intros Hok. unfold off. destruct (property (listeners st) m) as [a| |]; [|done..].
  destruct (findIndex _ _); [|done]. by apply registry_ok_alter.
Qed.

Lemma registry_ok_removeAllListener gs t st :
  registry_ok st → registry_ok (removeAllListener gs t st).
Proof.
  intros Hok. unfold removeAllListener. destruct t as [t|].
  - apply (foldl_preserves registry_ok); [done|].
    intros st' e Hok'. unfold pruneMethod.
    destruct (bool_decide _); [|done]. by apply registry_ok_newArray.
  - split.
    + intros m a. simpl. by rewrite lookup_empty.
    + intros m1 m2 a. simpl. by rewrite lookup_empty.
Qed.

Lemma registry_ok_perform gs st a : registry_ok st → registry_ok (perform gs st a).
Proof.
  intros Hok. destruct a; simpl;
    [by apply registry_ok_on|by apply registry_ok_off
    |by apply registry_ok_removeAllListener].
Qed.

Lemma registry_ok_handleOne gs lb hr sender st req :
  registry_ok st → registry_ok (state_of (handleOne gs lb hr sender st req)).
Proof.
  intros Hok. unfold handleOne. destruct (req_id req) as [id|].
  - destruct (getHandlerFor _ _ _ _) as [[h|]|]; [| |done].
    + by destruct (hr _ _ _).
    + eapply registry_ok_same; [done|apply same_registry_beforeSend].
  - destruct (property (listeners st) (method req)) as [a| |]; [|done..]. simpl.
    apply (foldl_preserves registry_ok).
    + by apply (registry_ok_grow (default [] (arrays st !! a))).
    + intros st' k Hok'. destruct (arrays st' !! _ ≫= _) as [i|]; [|done].
      destruct (isSenderMatchTarget _ _ _); [|done].
      unfold callListener. apply (foldl_preserves registry_ok); [done|].
      intros st'' act. apply registry_ok_perform.
Qed.

Lemma registry_ok_step dt st st' : registry_ok st → step dt st st' → registry_ok st'.
Proof.
  intros Hok Hstep. destruct Hstep.
  - eapply registry_ok_same; [done|apply same_registry_send].
  - eapply registry_ok_same; [done|apply same_registry_fireTimer].
  - destruct res as [|res]; simpl; [done|].
    eapply registry_ok_same; [done|apply same_registry_handleRPCResponse].
  - apply handleRequest_preserves; [done|].
    intros st' r Hok'. by apply registry_ok_handleOne.
  - eapply registry_ok_same; [done|apply same_registry_settlePromise].
  - by apply registry_ok_on.
  - by apply registry_ok_off.
  - by apply registry_ok_removeAllListener.
  - eapply registry_ok_same; [done|apply same_registry_registerHandler].
  - eapply registry_ok_same; [done|apply same_registry_unregisterHandler].
Qed.

Lemma registry_ok_reachable dt st : reachable dt st → registry_ok st.
Proof.
  unfold reachable. revert st. apply rtc_ind_r.
  - split.
    + intros m a. simpl. by rewrite lookup_empty.
    + intros m1 m2 a. simpl. by rewrite lookup_empty.
  - intros y z _ Hstep IH. by eapply registry_ok_step.
Qed.

Lemma listenersOf_alter f m a st :
  registry_ok st →
  listeners st !! m = Some a →
  listenersOf m (set_arrays (alter f a (arrays st)) st) = f (listenersOf m st)
  ∧ ∀ m', m' ≠ m →
      listenersOf m' (set_arrays (alter f a (arrays st)) st) = listenersOf m' st.
Proof.
  intros [Hv Hd] Hm. unfold listenersOf. simpl. rewrite Hm. split.
  - destruct (lookup_lt_is_Some_2 (arrays st) a (Hv _ _ Hm)) as [l Hl].
    rewrite Hl. by rewrite list_lookup_alter_eq, Hl.
  - intros m' Hne. destruct (listeners st !! m') as [a'|] eqn:Hm'; [|done].
    rewrite list_lookup_alter_ne; [done|]. intros <-. apply Hne. by eapply Hd.
Qed.

Lemma listenersOf_newArray l m st :
  registry_ok st →
  let st' := set_listeners (<[m := (newArray l st).1]> (listeners (newArray l st).2))
               (newArray l st).2 in
  listenersOf m st' = l ∧ ∀ m', m' ≠ m → listenersOf m' st' = listenersOf m' st.
Proof.
  intros [Hv Hd]. unfold listenersOf. simpl. split.
  - rewrite lookup_insert_eq. by rewrite list_lookup_middle.
  - intros m' Hne. rewrite lookup_insert_ne by done.
    destruct (listeners st !! m') as [a'|] eqn:Hm'; [|done].
    by rewrite (lookup_app_l _ _ _ (Hv _ _ Hm')).
Qed.

Lemma listenersOf_on (m : string) (cb : EventCallback) (t : option JSONRPCTarget)
    (st st' : State) :
  registry_ok st →
  on m cb t st = Normal st' →
  listenersOf m st'
  = listenersOf m st ++ [{| listener_target := t; listener_callback := cb |}]
  ∧ ∀ m', m' ≠ m → listenersOf m' st' = listenersOf m' st.
Proof.
  intros Hok. unfold on. destruct (property (listeners st) m) as [a| |] eqn:Hm.
  - intros [= <-]. apply property_Own in Hm. by apply listenersOf_alter.
  - done.
  - intros [= <-].
    destruct (listenersOf_newArray
                [{| listener_target := t; listener_callback := cb |}] m st Hok)
      as [Hnew Hother].
    split; [|exact Hother].
    etransitivity; [exact Hnew|]. unfold listenersOf.
    unfold property in Hm. by destruct (listeners st !! m).
Qed.

(** *** The keys of the registries *)

Lemma foldl_preserves_in {A B} (P : A → Prop) (f : A → B → A) (l : list B) (a : A) :
  P a → (∀ a b, b ∈ l → P a → P (f a b)) → P (foldl f a l).
Proof.
  revert a. induction l as [|b l IH]; intros a Ha Hf; simpl; [done|].
  apply IH; [apply Hf; [by left|done]|].
  intros a' b' Hb'. apply Hf. by right.
Qed.

Lemma keys_own_same st st' :
  keys_own st → same_registry st st' → handlers st' = handlers st →
  keys_own st'.
Proof. intros [Hl Hh] [El _] Eh. split; [by rewrite El|by rewrite Eh]. Qed.

Lemma keys_own_on m cb t st : keys_own st → keys_own (state_of (on m cb t st)).
Proof.
  intros [Hl Hh]. unfold on.
  destruct (property (listeners st) m) as [a| |] eqn:Hm; [done|done|].
  split; [|done]. intros m' a. simpl.
  intros [[<- _]|[_ H]]%lookup_insert_Some; [|by eapply Hl].
  unfold property in Hm. destruct (listeners st !! m); [done|].
  by destruct (inherited m).
Qed.

Lemma keys_own_off gs m cb t st : keys_own st → keys_own (off gs m cb t st).2.
Proof.
  intros Hk. unfold off. destruct (property (listeners st) m); [|done..].
  by destruct (findIndex _ _).
Qed.

Lemma keys_own_removeAllListener gs t st :
  keys_own st → keys_own (removeAllListener gs t st).
Proof.
  intros [Hl Hh]. unfold removeAllListener. destruct t as [t|].
  - apply (foldl_preserves_in keys_own); [done|].
    intros st' [m a] Hin [Hl' Hh']. unfold pruneMethod.
    destruct (bool_decide _); [|done]. split; [|done].
    intros m' a'. simpl.
    intros [[<- _]|[_ H]]%lookup_insert_Some; [|by eapply Hl'].
    apply elem_of_map_to_list in Hin. by eapply Hl.
  - split; [|done]. intros m a. simpl. by rewrite lookup_empty.
Qed.

Lemma keys_own_perform gs st a : keys_own st → keys_own (perform gs st a).
Proof.
  intros Hk. destruct a; simpl;
    [by apply keys_own_on|by apply keys_own_off|by apply keys_own_removeAllListener].
Qed.

Lemma keys_own_handleOne gs lb hr sender st req :
  keys_own st → keys_own (state_of (handleOne gs lb hr sender st req)).
Proof.
  intros Hk. unfold handleOne. destruct (req_id req) as [id|].
  - destruct (getHandlerFor _ _ _ _) as [[h|]|]; [| |done].
    + by destruct (hr _ _ _).
    + unfold beforeSend. by destruct (serializable_payload _).
  - destruct (property (listeners st) (method req)) as [a| |]; [|done..]. simpl.
    apply (foldl_preserves keys_own); [done|].
    intros st' k Hk'. destruct (arrays st' !! _ ≫= _) as [i|]; [|done].
    destruct (isSenderMatchTarget _ _ _); [|done].
    unfold callListener. apply (foldl_preserves keys_own); [done|].
    intros st'' act. apply keys_own_perform.
Qed.

Lemma keys_own_registerHandler gs m h t st :
  keys_own st → keys_own (state_of (registerHandler gs m h t st)).
Proof.
  intros [Hl Hh]. unfold registerHandler.
  destruct (property (handlers st) m) as [l| |] eqn:Hm; [|done|].
  - apply property_Own in Hm.
    assert (keys_own (set_handlers
                        (<[m := l ++ [{| handler_target := t;
                                         handler_callback := h |}]]> (handlers st)) st))
      as Hpush.
    { split; [done|]. intros m' l'. simpl.
      intros [[<- _]|[_ H]]%lookup_insert_Some; by eapply Hh. }
    destruct t as [t|]; [destruct (truthy_target t); simpl|];
      try destruct (existsb _ _); done.
  - split; [done|]. intros m' l'. simpl.
    intros [[<- _]|[_ H]]%lookup_insert_Some; [|by eapply Hh].
    unfold property in Hm. destruct (handlers st !! m); [done|].
    by destruct (inherited m).
Qed.

Lemma keys_own_unregisterHandler gs m t st :
  keys_own st → keys_own (unregisterHandler gs m t st).2.
Proof.
  intros [Hl Hh]. unfold unregisterHandler.
  destruct (property (handlers st) m) as [l| |] eqn:Hm; [|done..].
  apply property_Own in Hm.
  destruct (findIndex _ _); [|done]. split; [done|]. intros m' l'. simpl.
  intros [[<- _]|[_ H]]%lookup_insert_Some; by eapply Hh.
Qed.

(** In every state the engine can reach, no key of the two registries is
    the name of a member of [Object.prototype]. *)
Lemma keys_own_reachable dt st : reachable dt st → keys_own st.
Proof.
  unfold reachable. revert st. apply rtc_ind_r.
  { split; intros m a; simpl; by rewrite lookup_empty. }
  intros y z _ Hstep IH. destruct Hstep.
  - eapply keys_own_same;
      [done|apply same_registry_send|apply handlers_send].
  - eapply keys_own_same;
      [done|apply same_registry_fireTimer|apply handlers_fireTimer].
  - eapply keys_own_same;
      [done|apply same_registry_handleResponse|apply handlers_handleResponse].
  - apply handleRequest_preserves; [done|].
    intros st' r Hk. by apply keys_own_handleOne.
  - eapply keys_own_same;
      [done|apply same_registry_settlePromise|apply handlers_settlePromise].
  - by apply keys_own_on.
  - by apply keys_own_off.
  - by apply keys_own_removeAllListener.
  - by apply keys_own_registerHandler.
  - by apply keys_own_unregisterHandler.
Qed.

Lemma property_reachable_listeners dt st m :
  reachable dt st →
  inherited m = true → property (listeners st) m = Inherited.
Proof.
  intros Hr Hm. apply property_Inherited. split; [|done].
  destruct (listeners st !! m) as [a|] eqn:Ha; [|done].
  apply (proj1 (keys_own_reachable dt st Hr)) in Ha. congruence.
Qed.

Lemma property_reachable_handlers dt st m :
  reachable dt st →
  inherited m = true → property (handlers st) m = Inherited.
Proof.
  intros Hr Hm. apply property_Inherited. split; [|done].
  destruct (handlers st !! m) as [a|] eqn:Ha; [|done].
  apply (proj2 (keys_own_reachable dt st Hr)) in Ha. congruence.
Qed.

Lemma property_not_inherited {A} (obj : gmap string A) m :
  inherited m = false → property obj m ≠ Inherited.
Proof. intros Hm Hp. apply property_Inherited in Hp as [_ Hp]. congruence. Qed.

(** In every state the engine can reach, [on] appends the entry to the
    list of its method, whatever the list holds, and leaves the lists of
    the other methods as they are; unless the name of the method is that
    of a member of [Object.prototype]: then it throws, and the engine is
    as it was. *)
Theorem on_appends (dt : JSNumber) (m : string) (cb : EventCallback)
    (t : option JSONRPCTarget) (st : State) :
  reachable dt st →
  if inherited m
  then on m cb t st = Throw TypeError st
  else ∃ st',
         on m cb t st = Normal st'
         ∧ listenersOf m st'
           = listenersOf m st
             ++ [{| listener_target := t; listener_callback := cb |}]
         ∧ ∀ m', m' ≠ m → listenersOf m' st' = listenersOf m' st.
Proof.
  intros Hr. destruct (inherited m) eqn:Hm.
  - unfold on. by rewrite (property_reachable_listeners dt).
  - destruct (on m cb t st) as [st'|e st'] eqn:Hon.
    + exists st'. split; [done|].
      apply (listenersOf_on m cb t st st'); [|done].
      by apply (registry_ok_reachable dt).
    + exfalso. unfold on in Hon.
      pose proof (property_not_inherited (listeners st) m Hm) as Hp.
      by destruct (property (listeners st) m).
Qed.

Lemma on_appends_witness :
  reachable (Finite 30000) two_listeners
  ∧ ∃ st',
      on "e" 3 (Some (ContentsId 1)) two_listeners = Normal st'
      ∧ listenersOf "e" st'
        = [{| listener_target := None; listener_callback := 1 |};
           {| listener_target := None; listener_callback := 2 |};
           {| listener_target := Some (ContentsId 1); listener_callback := 3 |}].
Proof.
  split; [exact two_listeners_reachable|].
  destruct (on_appends (Finite 30000) "e" 3 (Some (ContentsId 1)) two_listeners
              two_listeners_reachable) as (st' & Hon & Hl & _).
  exists st'. split; [exact Hon|exact Hl].
Defined.

Lemma findIndex_first {A} (f : A → bool) pre e post :
  f e = true → (∀ x, x ∈ pre → f x = false) →
  findIndex f (pre ++ e :: post) = Some (length pre).
Proof.
  intros He. induction pre as [|x pre IH]; intros Hpre; simpl.
  - by rewrite He.
  - rewrite (Hpre x) by left. rewrite IH; [done|].
    intros y Hy. apply Hpre. by right.
Qed.

Lemma listenersOf_off getSendable (m : string) (cb : EventCallback)
    (t : option JSONRPCTarget) (st : State) (pre post : list ListenerEntry)
    (e : ListenerEntry) :
  registry_ok st →
  listenersOf m st = pre ++ e :: post →
  offMatches getSendable cb t e = true →
  (∀ x, x ∈ pre → offMatches getSendable cb t x = false) →
  (off getSendable m cb t st).1 = Return true
  ∧ listenersOf m (off getSendable m cb t st).2 = pre ++ post
  ∧ ∀ m', m' ≠ m → listenersOf m' (off getSendable m cb t st).2 = listenersOf m' st.
Proof.
  intros Hok Hl He Hpre. unfold off.
  destruct (listeners st !! m) as [a|] eqn:Hm.
  2: { unfold listenersOf in Hl. rewrite Hm in Hl. by destruct pre. }
  rewrite (proj2 (property_Own (listeners st) m a) Hm).
  assert (default [] (arrays st !! a) = pre ++ e :: post) as Ha.
  { unfold listenersOf in Hl. by rewrite Hm in Hl. }
  rewrite Ha.
  pose proof (findIndex_first (offMatches getSendable cb t) pre e post He Hpre) as Hf.
  unfold offMatches in Hf. rewrite Hf.
  simpl. split; [done|].
  destruct (listenersOf_alter (delete (length pre)) m a st Hok Hm) as [Hm1 Hm2].
  split; [|exact Hm2].
  etransitivity; [exact Hm1|]. rewrite Hl. apply delete_middle.
Qed.

(** [off] removes the first entry of the method whose callback is the
    given one and whose target is equal to the given one, returns true and
    leaves every other entry and method as it is. *)
Theorem off_removes_first getSendable (m : string) (cb : EventCallback)
    (t : option JSONRPCTarget) (st : State) (pre post : list ListenerEntry)
    (e : ListenerEntry) :
  registry_ok st →
  listenersOf m st = pre ++ e :: post →
  offMatches getSendable cb t e = true →
  (∀ x, x ∈ pre → offMatches getSendable cb t x = false) →
  (off getSendable m cb t st).1 = Return true
  ∧ listenersOf m (off getSendable m cb t st).2 = pre ++ post
  ∧ ∀ m', m' ≠ m → listenersOf m' (off getSendable m cb t st).2 = listenersOf m' st.
Proof. apply listenersOf_off. Qed.

Lemma off_removes_first_witness :
  registry_ok two_listeners
  ∧ listenersOf "e" two_listeners
    = [{| listener_target := None; listener_callback := 1 |}]
      ++ {| listener_target := None; listener_callback := 2 |} :: []
  ∧ listenersOf "e" (off world "e" 2 None two_listeners).2
    = [{| listener_target := None; listener_callback := 1 |}] ++ [].
Proof.
  assert (registry_ok two_listeners) as Hok
    by apply (registry_ok_reachable (Finite 30000)), two_listeners_reachable.
  split; [exact Hok|]. split; [reflexivity|].
  refine (proj1 (proj2 (off_removes_first world "e" 2 None two_listeners
                          [{| listener_target := None; listener_callback := 1 |}] []
                          {| listener_target := None; listener_callback := 2 |}
                          Hok eq_refl eq_refl _))).
  intros x Hx. apply list_elem_of_singleton in Hx. by subst x.
Defined.

(** In every state the engine can reach, when no entry of the method has
    the given callback and an equal target (in particular when the method
    has no entry), [off] changes nothing; it returns false, unless the
    name of the method is that of a member of [Object.prototype]: then it
    throws. *)
Theorem off_without_match (dt : JSNumber) getSendable (m : string)
    (cb : EventCallback) (t : option JSONRPCTarget) (st : State) :
  reachable dt st →
  (∀ x, x ∈ listenersOf m st → offMatches getSendable cb t x = false) →
  off getSendable m cb t st
  = (if inherited m then Raise TypeError else Return false, st).
Proof.
  intros Hr Hnone. unfold off. unfold listenersOf in Hnone.
  destruct (inherited m) eqn:Hi.
  { by rewrite (property_reachable_listeners dt). }
  pose proof (property_not_inherited (listeners st) m Hi) as Hp.
  destruct (property (listeners st) m) as [a| |] eqn:Hm; [|done..].
  apply property_Own in Hm. rewrite Hm in Hnone.
  pose proof (findIndex_none (offMatches getSendable cb t) _ Hnone) as Hf.
  unfold offMatches in Hf. by rewrite Hf.
Qed.

Lemma off_without_match_witness :
  reachable (Finite 30000) two_listeners
  ∧ (∀ x, x ∈ listenersOf "e" two_listeners → offMatches world 7 None x = false)
  ∧ off world "e" 7 None two_listeners = (Return false, two_listeners)
  ∧ off world "toString" 7 None two_listeners = (Raise TypeError, two_listeners).
Proof.
  assert (∀ x, x ∈ listenersOf "e" two_listeners → offMatches world 7 None x = false)
    as Hnone.
  { intros x Hx. change (listenersOf "e" two_listeners)
      with [{| listener_target := None; listener_callback := 1 |};
            {| listener_target := None; listener_callback := 2 |}] in Hx.
    apply elem_of_cons in Hx as [->|Hx]; [done|].
    apply list_elem_of_singleton in Hx. by subst x. }
  split; [exact two_listeners_reachable|]. split; [exact Hnone|]. split.
  - exact (off_without_match (Finite 30000) world "e" 7 None two_listeners
             two_listeners_reachable Hnone).
  - refine (off_without_match (Finite 30000) world "toString" 7 None two_listeners
              two_listeners_reachable _).
    intros x Hx. by apply elem_of_nil in Hx.
Defined.

(** Subscribing, when [on] returns, and then unsubscribing the same
    callback with the same target, unset or resolving, gives back the
    lists the registry had, provided the callback was not already
    subscribed with an equal target. *)
Theorem on_then_off getSendable (m : string) (cb : EventCallback)
    (t : option JSONRPCTarget) (st st1 : State) :
  registry_ok st →
  isTargetEqual getSendable t t = true →
  (∀ x, x ∈ listenersOf m st → offMatches getSendable cb t x = false) →
  on m cb t st = Normal st1 →
  (off getSendable m cb t st1).1 = Return true
  ∧ ∀ m', listenersOf m' (off getSendable m cb t st1).2 = listenersOf m' st.
Proof.
  intros Hok Ht Hnone Hst1.
  destruct (listenersOf_on m cb t st st1 Hok Hst1) as [Hon Hon'].
  destruct (listenersOf_off getSendable m cb t st1 (listenersOf m st) []
              {| listener_target := t; listener_callback := cb |})
    as (Hr & Hl & Hother); try done.
  - pose proof (registry_ok_on m cb t st Hok) as Hok1. by rewrite Hst1 in Hok1.
  - unfold offMatches. simpl. by rewrite Nat.eqb_refl, Ht.
  - split; [done|]. intros m'. destruct (decide (m' = m)) as [->|Hne].
    + by rewrite Hl, app_nil_r.
    + rewrite Hother by done. by apply Hon'.
Qed.

Lemma on_then_off_witness :
  registry_ok init
  ∧ isTargetEqual world (Some (ContentsId 1)) (Some (ObjectRef 0)) = true
  ∧ ∃ st1,
      on "e" 1 (Some (ContentsId 1)) init = Normal st1
      ∧ (off world "e" 1 (Some (ContentsId 1)) st1).1 = Return true
      ∧ ∀ m', listenersOf m' (off world "e" 1 (Some (ContentsId 1)) st1).2
              = listenersOf m' init.
Proof.
  assert (registry_ok init) as Hok by apply (registry_ok_reachable (Finite 30000)), rtc_refl.
  split; [exact Hok|]. split; [reflexivity|].
  eexists. split; [reflexivity|].
  refine (on_then_off world "e" 1 (Some (ContentsId 1)) init _ Hok eq_refl _ eq_refl).
  intros x Hx. by apply elem_of_nil in Hx.
Defined.

Lemma filter_length_eq {A} (P : A → Prop) `{∀ x, Decision (P x)} (l : list A) :
  length (filter P l) = length l → filter P l = l.
Proof.
  induction l as [|x l IH]; [done|].
  destruct (decide (P x)) as [HP|HP].
  - rewrite filter_cons_True by done. simpl. intros [= Hlen]. by rewrite IH.
  - rewrite filter_cons_False by done. simpl. intros Hlen.
    pose proof (length_filter P l). lia.
Qed.

Section RemoveAll.
Variable getSendable : JSONRPCTarget → Lookup.
Variable target : JSONRPCTarget.

Local Abbreviation kept :=
  (λ l : ListenerEntry,
     isTargetEqual getSendable (Some target) (listener_target l) = false).

Lemma pruneMethod_spec m a st :
  registry_ok st →
  listeners st !! m = Some a →
  let st1 := pruneMethod getSendable (Some target) st (m, a) in
  registry_ok st1
  ∧ listenersOf m st1 = filter kept (listenersOf m st)
  ∧ ∀ m', m' ≠ m →
      listenersOf m' st1 = listenersOf m' st
      ∧ listeners st1 !! m' = listeners st !! m'.
Proof.
  intros Hok Hm. unfold pruneMethod. simpl.
  assert (listenersOf m st = default [] (arrays st !! a)) as Hl
    by (unfold listenersOf; by rewrite Hm).
  rewrite <- Hl.
  destruct (bool_decide _) eqn:Hlen.
  - destruct (listenersOf_newArray (filter kept (listenersOf m st)) m st Hok)
      as [Hnew Hother].
    split; [by apply registry_ok_newArray|]. split; [exact Hnew|].
    intros m' Hne. split; [by apply Hother|]. simpl. by rewrite lookup_insert_ne.
  - apply bool_decide_eq_false in Hlen.
    assert (length (filter kept (listenersOf m st)) = length (listenersOf m st))
      as Heq by (destruct (decide (length (listenersOf m st)
                    = length (filter kept (listenersOf m st)))); [done|by destruct Hlen]).
    split; [done|]. split; [by rewrite filter_length_eq|done].
Qed.

Lemma pruneMethod_fold (L : list (string * nat)) st :
  registry_ok st →
  NoDup L.*1 →
  (∀ m a, (m, a) ∈ L → listeners st !! m = Some a) →
  ∀ m, listenersOf m (foldl (pruneMethod getSendable (Some target)) st L)
       = if decide (m ∈ L.*1) then filter kept (listenersOf m st) else listenersOf m st.
Proof.
  revert st. induction L as [|[m0 a0] L IH]; intros st Hok Hnd HL m.
  { simpl. destruct (decide (m ∈ [])) as [Hin|_]; [|done]. by apply elem_of_nil in Hin. }
  rewrite fmap_cons in Hnd. apply NoDup_cons in Hnd as [Hm0 Hnd]. simpl in Hm0.
  destruct (pruneMethod_spec m0 a0 st Hok (HL m0 a0 ltac:(left)))
    as (Hok1 & Hhead & Hother).
  simpl foldl. rewrite IH; [|done|done|].
  2: { intros m' a' Hin.
       assert (m' ≠ m0) as Hne.
       { intros ->. apply Hm0. apply list_elem_of_fmap. by exists (m0, a'). }
       rewrite (proj2 (Hother m' Hne)). apply HL. by right. }
  rewrite fmap_cons. cbn [fst].
  destruct (decide (m = m0)) as [->|Hne].
  - destruct (decide (m0 ∈ L.*1)) as [Hin|_]; [done|].
    destruct (decide (m0 ∈ m0 :: L.*1)) as [_|Hnin]; [exact Hhead|].
    destruct Hnin. by left.
  - rewrite (proj1 (Hother m Hne)).
    destruct (decide (m ∈ L.*1)) as [Hin|Hnin],
      (decide (m ∈ m0 :: L.*1)) as [Hin'|Hnin']; try done.
    + destruct Hnin'. by right.
    + apply elem_of_cons in Hin' as [?|?]; done.
Qed.

(** [removeAllListener()] empties the list of every method;
    [removeAllListener(target)] drops from every list the entries whose
    target is equal to [target] and keeps the others in their order. *)
Theorem removeAllListener_filters (st : State) :
  registry_ok st →
  (∀ m, listenersOf m (removeAllListener getSendable None st) = [])
  ∧ ∀ m, listenersOf m (removeAllListener getSendable (Some target) st)
         = filter (λ l, isTargetEqual getSendable (Some target) (listener_target l) = false)
             (listenersOf m st).
Proof.
  intros Hok. split.
  - intros m. unfold removeAllListener, listenersOf. simpl. by rewrite lookup_empty.
  - intros m. unfold removeAllListener.
    rewrite pruneMethod_fold; [|done|apply NoDup_fst_map_to_list|].
    2: { intros m' a' Hin. by apply elem_of_map_to_list in Hin. }
    destruct (decide (m ∈ (map_to_list (listeners st)).*1)) as [Hin|Hnin]; [done|].
    assert (listeners st !! m = None) as Hm.
    { destruct (listeners st !! m) as [a|] eqn:Hm; [|done]. exfalso. apply Hnin.
      apply list_elem_of_fmap. exists (m, a). split; [done|].
      by apply elem_of_map_to_list. }
    unfold listenersOf. by rewrite Hm.
Qed.
End RemoveAll.

Lemma registry_ok_init : registry_ok init.
Proof. apply (registry_ok_reachable (Finite 30000)), rtc_refl. Qed.

Lemma removeAllListener_filters_witness :
  registry_ok scoped_listeners
  ∧ listenersOf "e" (removeAllListener world (Some (ContentsId 1)) scoped_listeners)
    = [{| listener_target := None; listener_callback := 1 |};
       {| listener_target := Some (ContentsId 2); listener_callback := 3 |}].
Proof.
  assert (registry_ok scoped_listeners) as Hok
    by (repeat apply registry_ok_on; apply registry_ok_init).
  split; [exact Hok|].
  exact (proj2 (removeAllListener_filters world (ContentsId 1) scoped_listeners Hok) "e").
Defined.

(** ** The handler registry *)

Section HandlerRegistry.
Variable getSendable : JSONRPCTarget → Lookup.

Lemma registerHandler_inv m h t st st1 :
  registerHandler getSendable m h t st = Normal st1 →
  st1 = set_handlers
          (<[m := default [] (handlers st !! m)
                  ++ [{| handler_target := t; handler_callback := h |}]]>
             (handlers st)) st
  ∧ ((∀ t', t = Some t' → truthy_target t' = true) →
     ∀ x, x ∈ default [] (handlers st !! m) →
          unregisterMatches getSendable t x = false).
Proof.
  unfold registerHandler, unregisterMatches.
  destruct (property (handlers st) m) as [l| |] eqn:Hp; [|done|].
  - apply property_Own in Hp. rewrite Hp. simpl.
    destruct t as [t|].
    + destruct (truthy_target t) eqn:Htr; simpl.
      * destruct (existsb _ l) eqn:Hex; [done|]. intros [= <-]. split; [done|].
        intros _ x Hx. rewrite isTargetEqual_sym.
        destruct (isTargetEqual getSendable (Some t) (handler_target x)) eqn:Heq;
          [|done].
        rewrite (existsb_some _ l x Hx Heq) in Hex. done.
      * intros [= <-]. split; [done|]. intros Ht.
        specialize (Ht t eq_refl). congruence.
    + destruct (existsb _ l) eqn:Hex; [done|]. intros [= <-]. split; [done|].
      intros _ x Hx. destruct (handler_target x) as [t'|] eqn:Ht'; [done|].
      rewrite (existsb_some _ l x Hx) in Hex; [done|].
      apply bool_decide_eq_true. exact Ht'.
  - unfold property in Hp. destruct (handlers st !! m) eqn:Hl; [done|]. simpl.
    intros [= <-]. split; [done|]. intros _ x Hx. by apply elem_of_nil in Hx.
Qed.

Lemma unregisterHandler_first m t st pre e post :
  handlers st !! m = Some (pre ++ e :: post) →
  unregisterMatches getSendable t e = true →
  (∀ x, x ∈ pre → unregisterMatches getSendable t x = false) →
  unregisterHandler getSendable m t st
  = (Return true, set_handlers (<[m := pre ++ post]> (handlers st)) st).
Proof.
  intros Hl He Hpre. unfold unregisterHandler.
  rewrite (proj2 (property_Own (handlers st) m _) Hl).
  pose proof (findIndex_first (unregisterMatches getSendable t) pre e post He Hpre) as Hf.
  unfold unregisterMatches in Hf. rewrite Hf. by rewrite delete_middle.
Qed.

(** [unregisterHandler] removes the first entry of the method whose target
    is equal to the given one (for an unset target: the first global
    entry), returns true and leaves every other entry and method as it
    is. *)
Theorem unregisterHandler_removes_first (m : string) (t : option JSONRPCTarget)
    (st : State) (pre post : list HandlerEntry) (e : HandlerEntry) :
  handlers st !! m = Some (pre ++ e :: post) →
  unregisterMatches getSendable t e = true →
  (∀ x, x ∈ pre → unregisterMatches getSendable t x = false) →
  (unregisterHandler getSendable m t st).1 = Return true
  ∧ handlers (unregisterHandler getSendable m t st).2 !! m = Some (pre ++ post)
  ∧ ∀ m', m' ≠ m →
      handlers (unregisterHandler getSendable m t st).2 !! m' = handlers st !! m'.
Proof.
  intros Hl He Hpre. rewrite (unregisterHandler_first m t st pre e post) by done.
  simpl. split; [done|]. split; [apply lookup_insert_eq|].
  intros m' Hne. by apply lookup_insert_ne.
Qed.

(** In every state the engine can reach, when the method has no entry
    whose target is equal to the given one (or no entry at all),
    [unregisterHandler] changes nothing; it returns false, unless the name
    of the method is that of a member of [Object.prototype]: then it
    throws. *)
Theorem unregisterHandler_without_match (dt : JSNumber) (m : string)
    (t : option JSONRPCTarget) (st : State) :
  reachable dt st →
  (∀ x, x ∈ default [] (handlers st !! m) → unregisterMatches getSendable t x = false) →
  unregisterHandler getSendable m t st
  = (if inherited m then Raise TypeError else Return false, st).
Proof.
  intros Hr Hnone. unfold unregisterHandler.
  destruct (inherited m) eqn:Hi.
  { by rewrite (property_reachable_handlers dt). }
  pose proof (property_not_inherited (handlers st) m Hi) as Hp.
  destruct (property (handlers st) m) as [l| |] eqn:Hm; [|done..].
  apply property_Own in Hm. rewrite Hm in Hnone.
  pose proof (findIndex_none (unregisterMatches getSendable t) _ Hnone) as Hf.
  unfold unregisterMatches in Hf. simpl in Hf. by rewrite Hf.
Qed.

(** A registration that was accepted, for an unset target or one that
    resolves, is undone by [unregisterHandler] with the same method and
    target: it returns true, the method has the entries it had before the
    registration, and the other methods are as they were.  For a target
    that is falsy (the main process, 0) the registration is accepted
    whatever the method holds; the statement then needs that no earlier
    entry of the method had an equal target. *)
Theorem register_then_unregister (m : string) (h : HandlerCallback)
    (t : option JSONRPCTarget) (st st1 : State) :
  registerHandler getSendable m h t st = Normal st1 →
  isTargetEqual getSendable t t = true →
  (∀ t', t = Some t' → truthy_target t' = false →
         ∀ x, x ∈ default [] (handlers st !! m) →
              unregisterMatches getSendable t x = false) →
  (unregisterHandler getSendable m t st1).1 = Return true
  ∧ handlers (unregisterHandler getSendable m t st1).2 !! m
    = Some (default [] (handlers st !! m))
  ∧ ∀ m', m' ≠ m →
      handlers (unregisterHandler getSendable m t st1).2 !! m' = handlers st !! m'.
Proof.
  intros Hreg Ht Hfalsy. apply registerHandler_inv in Hreg as [-> Hinv].
  assert (∀ x, x ∈ default [] (handlers st !! m) →
               unregisterMatches getSendable t x = false) as Hnone.
  { destruct t as [t'|]; [destruct (truthy_target t') eqn:Htr|].
    - apply Hinv. by intros ? [= <-].
    - by apply (Hfalsy t').
    - apply Hinv. by intros ? [=]. }
  rewrite (unregisterHandler_first m t _ (default [] (handlers st !! m))
             {| handler_target := t; handler_callback := h |} []).
  - simpl. rewrite app_nil_r. split; [done|]. split.
    + apply lookup_insert_eq.
    + intros m' Hne. rewrite lookup_insert_ne by done. by apply lookup_insert_ne.
  - simpl. apply lookup_insert_eq.
  - exact Ht.
  - exact Hnone.
Qed.
End HandlerRegistry.

(** The same method registered twice for the main process: the second
    registration is accepted, and the disposer it returns removes the
    entry of the first. *)
Lemma falsy_target_disposer_removes_earlier :
  ∃ st1 st2,
    registerHandler world "m" 1 (Some (ContentsId 0)) init = Normal st1
    ∧ registerHandler world "m" 2 (Some (ContentsId 0)) st1 = Normal st2
    ∧ (unregisterHandler world "m" (Some (ContentsId 0)) st2).1 = Return true
    ∧ handlers (unregisterHandler world "m" (Some (ContentsId 0)) st2).2 !! "m"
      = Some [{| handler_target := Some (ContentsId 0); handler_callback := 2 |}].
Proof.
  eexists _, _. split; [reflexivity|]. split; [reflexivity|].
  split; reflexivity.
Qed.

Lemma unregisterHandler_removes_first_witness :
  handlers global_then_scoped !! "m"
  = Some ([global_m] ++ {| handler_target := Some (ContentsId 2);
                           handler_callback := 2 |} :: [])
  ∧ handlers (unregisterHandler world "m" (Some (ContentsId 2)) global_then_scoped).2
      !! "m" = Some ([global_m] ++ []).
Proof.
  split; [reflexivity|].
  refine (proj1 (proj2 (unregisterHandler_removes_first world "m" (Some (ContentsId 2))
                          global_then_scoped [global_m] []
                          {| handler_target := Some (ContentsId 2);
                             handler_callback := 2 |} eq_refl eq_refl _))).
  intros x Hx. apply list_elem_of_singleton in Hx. by subst x.
Defined.

Lemma two_handlers_reachable : reachable (Finite 30000) two_handlers.
Proof.
  eapply rtc_l; [apply (step_registerHandler _ world "m" 1 None)|].
  apply rtc_once. apply (step_registerHandler _ world "m" 2 (Some (ContentsId 1))).
Qed.

Lemma unregisterHandler_without_match_witness :
  reachable (Finite 30000) two_handlers
  ∧ (∀ x, x ∈ default [] (handlers two_handlers !! "m") →
          unregisterMatches world (Some (ContentsId 2)) x = false)
  ∧ unregisterHandler world "m" (Some (ContentsId 2)) two_handlers
    = (Return false, two_handlers)
  ∧ unregisterHandler world "valueOf" None two_handlers
    = (Raise TypeError, two_handlers).
Proof.
  assert (∀ x, x ∈ default [] (handlers two_handlers !! "m") →
               unregisterMatches world (Some (ContentsId 2)) x = false) as Hnone.
  { intros x Hx. change (default [] (handlers two_handlers !! "m"))
      with [global_m; scoped_m] in Hx.
    apply elem_of_cons in Hx as [->|Hx]; [done|].
    apply list_elem_of_singleton in Hx. by subst x. }
  split; [exact two_handlers_reachable|]. split; [exact Hnone|]. split.
  - exact (unregisterHandler_without_match world (Finite 30000) "m"
             (Some (ContentsId 2)) two_handlers two_handlers_reachable Hnone).
  - refine (unregisterHandler_without_match world (Finite 30000) "valueOf" None
              two_handlers two_handlers_reachable _).
    intros x Hx. by apply elem_of_nil in Hx.
Defined.

Lemma register_then_unregister_witness :
  registerHandler world "m" 2 (Some (ContentsId 1))
    (state_of (registerHandler world "m" 1 None init)) = Normal two_handlers
  ∧ isTargetEqual world (Some (ContentsId 1)) (Some (ContentsId 1)) = true
  ∧ (unregisterHandler world "m" (Some (ContentsId 1)) two_handlers).1 = Return true
  ∧ handlers (unregisterHandler world "m" (Some (ContentsId 1)) two_handlers).2 !! "m"
    = Some [global_m].
Proof.
  split; [reflexivity|]. split; [reflexivity|].
  destruct (register_then_unregister world "m" 2 (Some (ContentsId 1))
              (state_of (registerHandler world "m" 1 None init))
              two_handlers eq_refl eq_refl) as (H1 & H2 & _).
  - intros t' [= <-]. discriminate.
  - split; [exact H1|exact H2].
Defined.

(** ** At most one global handler *)

Lemma length_filter_delete {A} (P : A → Prop) `{∀ x, Decision (P x)} (l : list A) i :
  length (filter P (delete i l)) ≤ length (filter P l).
Proof.
  revert i. induction l as [|x l IH]; intros [|i]; simpl; try done.
  - destruct (decide (P x)).
    + rewrite filter_cons_True by done. simpl. lia.
    + by rewrite filter_cons_False by done.
  - destruct (decide (P x)).
    + rewrite !filter_cons_True by done. simpl. specialize (IH i). lia.
    + rewrite !filter_cons_False by done. apply IH.
Qed.

Lemma filter_none {A} (P : A → Prop) `{∀ x, Decision (P x)} (l : list A) :
  (∀ x, x ∈ l → ¬ P x) → filter P l = [].
Proof.
  induction l as [|x l IH]; intros Hl; [done|].
  rewrite filter_cons_False by (apply Hl; left).
  apply IH. intros y Hy. apply Hl. by right.
Qed.

Lemma one_global_same st st' : one_global st → handlers st' = handlers st → one_global st'.
Proof. intros Hg Hh m l. rewrite Hh. apply Hg. Qed.

Lemma one_global_registerHandler gs m h t st :
  one_global st → one_global (state_of (registerHandler gs m h t st)).
Proof.
  intros Hg. unfold registerHandler.
  destruct (property (handlers st) m) as [l| |] eqn:Hp; [|done|].
  - apply property_Own in Hp.
    destruct t as [t|].
    + destruct (truthy_target t && existsb _ l); [done|].
      intros m' l'; simpl. destruct (decide (m = m')) as [<-|Hne];
        [rewrite lookup_insert_eq; intros [= <-]
        |rewrite lookup_insert_ne by done; apply Hg].
      rewrite filter_app, length_app.
      rewrite (filter_cons_False isGlobal) by done. simpl.
      specialize (Hg _ _ Hp). lia.
    + destruct (existsb _ l) eqn:Hex; [done|].
      intros m' l'; simpl. destruct (decide (m = m')) as [<-|Hne];
        [rewrite lookup_insert_eq; intros [= <-]
        |rewrite lookup_insert_ne by done; apply Hg].
      rewrite filter_app, length_app.
      assert (filter isGlobal l = []) as ->;
        [|rewrite filter_cons_True by done; simpl; lia].
      apply filter_none. intros x Hx Hglobal.
      rewrite (existsb_some _ l x Hx) in Hex; [done|].
      by apply bool_decide_eq_true.
  - intros m' l'; simpl. destruct (decide (m = m')) as [<-|Hne];
      [rewrite lookup_insert_eq; intros [= <-]
      |rewrite lookup_insert_ne by done; apply Hg].
    destruct t as [t|].
    + rewrite filter_cons_False by done. simpl. lia.
    + rewrite filter_cons_True by done. simpl. lia.
Qed.

Lemma one_global_unregisterHandler gs m t st :
  one_global st → one_global (unregisterHandler gs m t st).2.
Proof.
  intros Hg. unfold unregisterHandler.
  destruct (property (handlers st) m) as [l| |] eqn:Hl; [|done..].
  apply property_Own in Hl.
  destruct (findIndex _ _) as [idx|]; [|done].
  intros m' l'. simpl. destruct (decide (m = m')) as [<-|Hne].
  - rewrite lookup_insert_eq. intros [= <-].
    etransitivity; [apply length_filter_delete|]. by eapply Hg.
  - rewrite lookup_insert_ne by done. apply Hg.
Qed.

Lemma one_global_reachable dt st : reachable dt st → one_global st.
Proof.
  unfold reachable. revert st. apply rtc_ind_r.
  { intros m l. simpl. by rewrite lookup_empty. }
  intros y z _ Hstep IH. destruct Hstep.
  - eapply one_global_same; [done|apply handlers_send].
  - eapply one_global_same; [done|apply handlers_fireTimer].
  - eapply one_global_same; [done|apply handlers_handleResponse].
  - eapply one_global_same; [done|apply handlers_handleRequest].
  - eapply one_global_same; [done|apply handlers_settlePromise].
  - eapply one_global_same; [done|]. apply (handlers_perform (λ _, Released) _ (DoOn _ _ _)).
  - eapply one_global_same; [done|]. apply (handlers_perform _ _ (DoOff _ _ _)).
  - eapply one_global_same; [done|].
    apply (handlers_perform _ _ (DoRemoveAllListener _)).
  - by apply one_global_registerHandler.
  - by apply one_global_unregisterHandler.
Qed.

(** In every state the engine can reach, a method has at most one global
    handler; so when no target-scoped entry of the method resolves to the
    sender, a request is given to that global handler wherever it stands
    in the list, and to no handler when there is none. *)
Theorem global_handler_unique (dt : JSNumber) getSendable (sender : Sendable.t)
    (m : string) (l : list HandlerEntry) (st : State) :
  reachable dt st →
  handlers st !! m = Some l →
  length (filter isGlobal l) ≤ 1
  ∧ (noScopedMatch getSendable sender l →
     (∀ g, g ∈ l → isGlobal g →
           getHandlerFor getSendable m sender st = Return (Some g))
     ∧ ((∀ g, g ∈ l → ¬ isGlobal g) →
        getHandlerFor getSendable m sender st = Return None)).
Proof.
  intros Hreach Hl. pose proof (one_global_reachable dt st Hreach m l Hl) as Hone.
  split; [done|]. intros Hno.
  unfold getHandlerFor.
  rewrite (proj2 (property_Own (handlers st) m l) Hl), scanHandlers_no_match by done.
  split.
  - intros g Hg Hglobal.
    assert (g ∈ filter isGlobal l) as Hin by (by apply list_elem_of_filter).
    destruct (filter isGlobal l) as [|g1 [|g2 rest]]; simpl in *.
    + by apply elem_of_nil in Hin.
    + apply list_elem_of_singleton in Hin. by subst.
    + lia.
  - intros Hnone.
    assert (filter isGlobal l = []) as ->; [|done].
    apply filter_none. intros x Hx. by apply Hnone.
Qed.

Lemma global_handler_unique_witness :
  reachable (Finite 30000) two_handlers
  ∧ handlers two_handlers !! "m" = Some [global_m; scoped_m]
  ∧ length (filter isGlobal [global_m; scoped_m]) ≤ 1.
Proof.
  split; [exact two_handlers_reachable|]. split; [reflexivity|].
  exact (proj1 (global_handler_unique (Finite 30000) world windowB "m"
                  [global_m; scoped_m] two_handlers two_handlers_reachable eq_refl)).
Defined.

(** ** Calls *)

Section Calls.
Variable getSendable : JSONRPCTarget → Lookup.
Variable DEFAULT_TIMEOUT : JSNumber.

(** A call whose parameters cannot be serialized is not transmitted: the
    failure is logged, yet the call has its responder entry and, when the
    timeout is enabled, its timer; when the timer comes due the callback
    is called with a [Timeout] error. *)
Theorem unserializable_call_times_out (now : N) (target : JSONRPCTarget)
    (m : string) (args : Value) (cb : ResponderCallback) (timeout : option JSNumber)
    (st : State) (s : Sendable.t) :
  getSender getSendable target = Some s →
  serializable args = false →
  timeoutEnabled (effectiveTimeout DEFAULT_TIMEOUT timeout) = true →
  let st1 := (send getSendable DEFAULT_TIMEOUT now target m args (Some cb) timeout st).2 in
  sent st1 = sent st
  ∧ console st1
    = console st
      ++ [ErrorFailedToSerialize
            (OfRequest (One {| method := m; req_id := Some (nextId now st);
                               params := args |}))]
  ∧ responder st1 !! nextId now st
    = Some {| closure := length (calls st); name := m; args := args |}
  ∧ timers st1 !! next_timer st
    = Some (TimeoutTask (length (calls st)) (nextId now st) m
              (effectiveTimeout DEFAULT_TIMEOUT timeout))
  ∧ calls (fireTimer (next_timer st) st1) !! length (calls st)
    = Some {| callback := cb; call_id := nextId now st; resolved := true;
              timer := Some (next_timer st);
              settlements := [Rejected (JSONRPCError.new Timeout (TimedOut m) None)] |}
  ∧ responder (fireTimer (next_timer st) st1) !! nextId now st = None.
Proof.
  intros Hs Hser Hen st1.
  destruct (send_call_fields getSendable DEFAULT_TIMEOUT now target m args cb timeout
              st s Hs)
    as (_ & _ & Hresp & Hcalls & Htimers & _ & _ & _ & Hsent & Hconsole & _).
  fold st1 in Hresp, Hcalls, Htimers, Hsent, Hconsole.
  rewrite Hser in Hsent, Hconsole. rewrite Hen in Hcalls, Htimers.
  split; [done|]. split; [done|].
  assert (timers st1 !! next_timer st
          = Some (TimeoutTask (length (calls st)) (nextId now st) m
                    (effectiveTimeout DEFAULT_TIMEOUT timeout))) as Ht
    by (rewrite Htimers; apply lookup_insert_eq).
  assert (calls st1 !! length (calls st)
          = Some {| callback := cb; call_id := nextId now st; resolved := false;
                    timer := Some (next_timer st); settlements := [] |}) as Hc
    by (rewrite Hcalls; by apply list_lookup_middle).
  split; [rewrite Hresp; apply lookup_insert_eq|]. split; [done|].
  unfold fireTimer. rewrite Ht. unfold timeout_callback. simpl. rewrite Hc. simpl.
  split; [|apply lookup_delete_eq].
  apply list_lookup_insert_eq. by eapply lookup_lt_Some.
Qed.
End Calls.

Lemma unserializable_call_times_out_witness :
  getSender world (ContentsId 1) = Some windowA
  ∧ serializable (VArray [VCyclic]) = false
  ∧ timeoutEnabled (effectiveTimeout (Finite 30000) (Some (Finite 100))) = true
  ∧ sent (send world (Finite 30000) 1700000000000 (ContentsId 1) "ping"
            (VArray [VCyclic]) (Some 0) (Some (Finite 100)) init).2 = sent init.
Proof.
  split; [reflexivity|]. split; [reflexivity|]. split; [reflexivity|].
  exact (proj1 (unserializable_call_times_out world (Finite 30000) 1700000000000
                  (ContentsId 1) "ping" (VArray [VCyclic]) 0 (Some (Finite 100)) init
                  windowA eq_refl eq_refl eq_refl)).
Defined.

(** ** A call and its response, between two engines *)

Lemma transmitted_snoc st st' x :
  sent st' = sent st ++ [x] → transmitted st st' = [x].
Proof. intros H. unfold transmitted. rewrite H. by rewrite drop_app_length. Qed.

Lemma transmitted_nil st st' : sent st' = sent st → transmitted st st' = [].
Proof. intros H. unfold transmitted. rewrite H. apply drop_all. Qed.

Lemma response_id_wireResponse res : response_id (wireResponse res) = response_id res.
Proof. by destruct res. Qed.


Section Exchange.
Variable getSendableA getSendableB : JSONRPCTarget → Lookup.
Variable DEFAULT_TIMEOUT : JSNumber.
Variable listener_body : EventCallback → Value → N → list ListenerAction.
Variable handler_result : HandlerCallback → Value → N → HandlerOutcome.

(** B is handed a request for which it has a handler whose promise
    settles with something the reactions can answer: nothing is
    transmitted in the turn of the request, and the response is
    transmitted when the promise settles. *)
Lemma peer_answers senderA id m args h res stB :
  getHandlerFor getSendableB m senderA stB = Return (Some h) →
  handlerResponse id (handler_result (handler_callback h) args (Sendable.id senderA))
  = Some res →
  serializable_payload (OfResponse res) = true →
  ∃ stB1,
    handleRequest getSendableB listener_body handler_result senderA
      (Text (One {| method := m; req_id := Some id; params := args |})) stB
    = Normal stB1
    ∧ transmitted stB stB1 = []
    ∧ transmitted stB (settlePromise (length (promises stB)) stB1)
      = [(senderA, RPC_RECEIVE_CHANNEL, OfResponse res)].
Proof.
  intros Hh Hres Hser.
  unfold handleRequest, handleRPCRequest, handleOne.
  cbn [beforeReceive req_id method params]. rewrite Hh.
  destruct (handler_result _ _ _) as [v|err|msg stk| | |] eqn:Ho;
    try discriminate Hres;
    (eexists; split; [reflexivity|]; split; [by apply transmitted_nil|]);
    unfold settlePromise; cbn [promises set_promises];
    rewrite list_lookup_middle by done; cbn [reply_fate reply_id reply_sender];
    rewrite Hres; apply transmitted_snoc;
    by rewrite beforeSend_serializable.
Qed.

(** B is handed a request for which it has no handler: the [NotFound]
    response is transmitted in the turn of the request. *)
Lemma peer_answers_not_found senderA id m args stB :
  getHandlerFor getSendableB m senderA stB = Return None →
  ∃ stB1,
    handleRequest getSendableB listener_body handler_result senderA
      (Text (One {| method := m; req_id := Some id; params := args |})) stB
    = Normal stB1
    ∧ transmitted stB (settlePromise (length (promises stB)) stB1)
      = [(senderA, RPC_RECEIVE_CHANNEL,
          OfResponse
            (JSONRPCResponseError id
               {| code := NotFound;
                  message := Plain ("method " +:+ m +:+ " not found");
                  error_data := None |}))].
Proof.
  intros Hh. unfold handleRequest, handleRPCRequest, handleOne.
  cbn [beforeReceive req_id method params]. rewrite Hh.
  eexists. split; [reflexivity|].
  unfold settlePromise. rewrite beforeSend_serializable by done.
  cbn [promises set_sent]. rewrite lookup_ge_None_2 by done.
  by apply transmitted_snoc.
Qed.

(** The side of A: when B, handed the request as it reads over the wire,
    transmits one response with the id of the call, the callback of the
    call is called once, with what the response stands for as it reads
    over the wire; the timer [send] started is cancelled and the entry
    removed. *)
Lemma exchange_answered now target m args cb timeout senderA stA stB sB stB1 res s :
  getSender getSendableA target = Some sB →
  serializable args = true →
  let id := nextId now stA in
  let eff := effectiveTimeout DEFAULT_TIMEOUT timeout in
  let stA1 := (send getSendableA DEFAULT_TIMEOUT now target m args (Some cb)
                 timeout stA).2 in
  handleRequest getSendableB listener_body handler_result senderA
    (Text (One {| method := m; req_id := Some id; params := overWire args |})) stB
  = Normal stB1 →
  transmitted stB (settlePromise (length (promises stB)) stB1)
  = [(senderA, RPC_RECEIVE_CHANNEL, OfResponse res)] →
  response_id res = id →
  settlement_of (wireResponse res)
    {| closure := length (calls stA); name := m; args := args |} = Return s →
  ∃ stA2,
    exchange getSendableA getSendableB DEFAULT_TIMEOUT listener_body handler_result
      now target m args cb timeout senderA stA stB = Some (Normal stA2)
    ∧ calls stA2 !! length (calls stA)
      = Some {| callback := cb; call_id := id; resolved := true;
                timer := if timeoutEnabled eff then Some (next_timer stA) else None;
                settlements := [s] |}
    ∧ (timeoutEnabled eff = true →
       timers stA1 !! next_timer stA
       = Some (TimeoutTask (length (calls stA)) id m eff)
       ∧ timers stA2 !! next_timer stA = None)
    ∧ responder stA2 !! id = None.
Proof.
  intros Hs Hser id eff stA1 HB Htr Hid Hset.
  destruct (send_call_fields getSendableA DEFAULT_TIMEOUT now target m args cb timeout
              stA sB Hs)
    as (_ & _ & Hresp & Hcalls & Htimers & _ & _ & _ & Hsent & _).
  rewrite Hser in Hsent. fold stA1 id eff in Hresp, Hcalls, Htimers, Hsent.
  unfold exchange. fold stA1.
  rewrite (transmitted_snoc stA stA1 _ Hsent).
  cbn [wireMessage]. unfold wireRequest. cbn [method req_id params]. fold id. rewrite HB, Htr.
  set (r := {| closure := length (calls stA); name := m; args := args |}) in *.
  set (call := {| callback := cb; call_id := id; resolved := false;
                  timer := if timeoutEnabled eff then Some (next_timer stA) else None;
                  settlements := [] |}) in *.
  assert (responder stA1 !! response_id (wireResponse res) = Some r) as Hr
    by (rewrite response_id_wireResponse, Hid, Hresp; apply lookup_insert_eq).
  assert (calls stA1 !! closure r = Some call) as Hc
    by (rewrite Hcalls; by apply list_lookup_middle).
  destruct (handleRPCResponse_entry (wireResponse res) r s call stA1 Hr Hset Hc eq_refl)
    as (stA2 & Hres & Hcalls2 & Htimers2 & Hresp2 & _).
  exists stA2. split; [by rewrite <- Hres|].
  rewrite Hcalls2, Htimers2, Hresp2, response_id_wireResponse, Hid.
  split; [|split].
  - apply list_lookup_insert_eq. by eapply lookup_lt_Some.
  - intros Hen. subst call. cbn [timer]. rewrite Htimers, Hen.
    split; [apply lookup_insert_eq|apply lookup_delete_eq].
  - apply lookup_delete_eq.
Qed.


(** A call to a method for which the peer has a handler whose promise
    resolves.  The handler is given the parameters as they read over the
    wire; the callback of the call is called once, with the result of the
    handler as it reads over the wire; the timer [send] started for the
    call is cancelled and the entry of the call removed. *)
Theorem call_round_trip (now : N) (target : JSONRPCTarget) (m : string)
    (args result : Value) (cb : ResponderCallback) (timeout : option JSNumber)
    (senderA sB : Sendable.t) (h : HandlerEntry) (stA stB : State) :
  getSender getSendableA target = Some sB →
  serializable args = true →
  getHandlerFor getSendableB m senderA stB = Return (Some h) →
  handler_result (handler_callback h) (overWire args) (Sendable.id senderA)
  = Resolves result →
  serializable result = true →
  let eff := effectiveTimeout DEFAULT_TIMEOUT timeout in
  let stA1 := (send getSendableA DEFAULT_TIMEOUT now target m args (Some cb)
                 timeout stA).2 in
  ∃ stA2,
    exchange getSendableA getSendableB DEFAULT_TIMEOUT listener_body handler_result
      now target m args cb timeout senderA stA stB = Some (Normal stA2)
    ∧ calls stA2 !! length (calls stA)
      = Some {| callback := cb; call_id := nextId now stA; resolved := true;
                timer := if timeoutEnabled eff then Some (next_timer stA) else None;
                settlements := [Fulfilled (overWire result)] |}
    ∧ (timeoutEnabled eff = true →
       timers stA1 !! next_timer stA
       = Some (TimeoutTask (length (calls stA)) (nextId now stA) m eff)
       ∧ timers stA2 !! next_timer stA = None)
    ∧ responder stA2 !! nextId now stA = None.
Proof.
  intros Hs Hser Hh Hres Hserres eff stA1.
  destruct (peer_answers senderA (nextId now stA) m (overWire args) h
              (JSONRPCResponseSuccess (nextId now stA) result) stB Hh)
    as (stB1 & HB & _ & Htr); [by rewrite Hres|done|].
  by apply (exchange_answered now target m args cb timeout senderA stA stB sB stB1
              (JSONRPCResponseSuccess (nextId now stA) result)).
Qed.

(** A call to a method for which the peer has no handler: the callback is
    called once, with an error whose code is [NotFound] and which carries
    the name and the parameters of the call; the timer [send] started for
    the call is cancelled and the entry of the call removed. *)
Theorem call_unregistered_method (now : N) (target : JSONRPCTarget) (m : string)
    (args : Value) (cb : ResponderCallback) (timeout : option JSNumber)
    (senderA sB : Sendable.t) (stA stB : State) :
  getSender getSendableA target = Some sB →
  serializable args = true →
  getHandlerFor getSendableB m senderA stB = Return None →
  let eff := effectiveTimeout DEFAULT_TIMEOUT timeout in
  let stA1 := (send getSendableA DEFAULT_TIMEOUT now target m args (Some cb)
                 timeout stA).2 in
  ∃ stA2,
    exchange getSendableA getSendableB DEFAULT_TIMEOUT listener_body handler_result
      now target m args cb timeout senderA stA stB = Some (Normal stA2)
    ∧ calls stA2 !! length (calls stA)
      = Some {| callback := cb; call_id := nextId now stA; resolved := true;
                timer := if timeoutEnabled eff then Some (next_timer stA) else None;
                settlements :=
                  [Rejected
                     {| JSONRPCError.code := NotFound;
                        JSONRPCError.message :=
                          Recovered m args (Plain ("method " +:+ m +:+ " not found"));
                        JSONRPCError.data := None;
                        JSONRPCError.stack := CapturedStack;
                        JSONRPCError.methodName := Some m;
                        JSONRPCError.args := Some args |}] |}
    ∧ (timeoutEnabled eff = true →
       timers stA1 !! next_timer stA
       = Some (TimeoutTask (length (calls stA)) (nextId now stA) m eff)
       ∧ timers stA2 !! next_timer stA = None)
    ∧ responder stA2 !! nextId now stA = None.
Proof.
  intros Hs Hser Hh eff stA1.
  destruct (peer_answers_not_found senderA (nextId now stA) m (overWire args) stB Hh)
    as (stB1 & HB & Htr).
  apply (exchange_answered now target m args cb timeout senderA stA stB sB stB1 _ _
           Hs Hser HB Htr); [done|].
  unfold settlement_of, recoverFromResponse. simpl. by rewrite Hser.
Qed.

End Exchange.

Lemma call_round_trip_witness :
  getSender world (ContentsId 2) = Some windowB
  ∧ getHandlerFor world "m" windowA two_handlers = Return (Some scoped_m)
  ∧ ∃ stA2,
      exchange world world (Finite 30000) quiet_listeners echo_handlers
        1700000000000 (ContentsId 2) "m" (VArray [VUndefined; VString "x"]) 7 None
        windowA init two_handlers = Some (Normal stA2)
      ∧ calls stA2 !! 0
        = Some {| callback := 7; call_id := "11700000000000";
                  resolved := true; timer := Some 1;
                  settlements := [Fulfilled (VArray [VNull; VString "x"])] |}
      ∧ timers stA2 !! 1 = None
      ∧ responder stA2 !! "11700000000000" = None.
Proof.
  split; [reflexivity|]. split; [reflexivity|].
  destruct (call_round_trip world world (Finite 30000) quiet_listeners echo_handlers
              1700000000000 (ContentsId 2) "m" (VArray [VUndefined; VString "x"])
              (VArray [VNull; VString "x"]) 7 None
              windowA windowB scoped_m init two_handlers
              eq_refl eq_refl eq_refl eq_refl eq_refl)
    as (stA2 & Hex & Hcall & Htm & Hresp).
  exists stA2. split; [exact Hex|]. split; [exact Hcall|].
  split; [exact (proj2 (Htm eq_refl))|exact Hresp].
Defined.

Lemma call_unregistered_method_witness :
  getSender world (ContentsId 2) = Some windowB
  ∧ getHandlerFor world "absent" windowA two_handlers = Return None
  ∧ ∃ stA2,
      exchange world world (Finite 30000) quiet_listeners echo_handlers
        1700000000000 (ContentsId 2) "absent" VNull 7 None windowA init
        two_handlers = Some (Normal stA2)
      ∧ calls stA2 !! 0
        = Some {| callback := 7; call_id := "11700000000000";
                  resolved := true; timer := Some 1;
                  settlements :=
                    [Rejected
                       {| JSONRPCError.code := NotFound;
                          JSONRPCError.message :=
                            Recovered "absent" VNull
                              (Plain ("method " +:+ "absent" +:+ " not found"));
                          JSONRPCError.data := None;
                          JSONRPCError.stack := CapturedStack;
                          JSONRPCError.methodName := Some "absent";
                          JSONRPCError.args := Some VNull |}] |}
      ∧ responder stA2 !! "11700000000000" = None.
Proof.
  split; [reflexivity|]. split; [reflexivity|].
  destruct (call_unregistered_method world world (Finite 30000) quiet_listeners
              echo_handlers 1700000000000 (ContentsId 2) "absent" VNull 7 None
              windowA windowB init two_handlers eq_refl eq_refl eq_refl)
    as (stA2 & Hex & Hcall & _ & Hresp).
  exists stA2. split; [exact Hex|]. split; [exact Hcall|exact Hresp].
Defined.


(** ** The event queue and the timers *)

Lemma queued_empty : queued ∅ = 0.
Proof. apply map_fold_empty. Qed.

Lemma queued_insert_fresh (q : gmap N (list QueueItem)) k items :
  q !! k = None → queued (<[k := items]> q) = length items + queued q.
Proof. intros H. unfold queued. rewrite map_fold_insert_L; [done| |done]. intros. lia. Qed.

Lemma queued_push (q : gmap N (list QueueItem)) k x :
  queued (<[k := default [] (q !! k) ++ [x]]> q) = S (queued q).
Proof.
  destruct (q !! k) as [items|] eqn:E; simpl.
  - rewrite <- (insert_delete_id q k items E) at 2.
    rewrite <- insert_delete_eq.
    rewrite !queued_insert_fresh by apply lookup_delete_eq.
    rewrite length_app. simpl. lia.
  - by rewrite queued_insert_fresh.
Qed.

(** A turn that starts no timer and queues nothing: the queue is as it
    was, the timers running [flushQueue] are the same, no timer is new,
    and every call keeps its id and its handle. *)
Lemma scheduler_ok_shrink st st' :
  queueTick st' = queueTick st →
  scheduleQueue st' = scheduleQueue st →
  next_timer st' = next_timer st →
  (∀ t task, timers st' !! t = Some task → timers st !! t = Some task) →
  (∀ t, timers st !! t = Some FlushTask → timers st' !! t = Some FlushTask) →
  (∀ i c', calls st' !! i = Some c' →
     ∃ c, calls st !! i = Some c ∧ timer c = timer c' ∧ call_id c = call_id c') →
  scheduler_ok st → scheduler_ok st'.
Proof.
  intros Hq Hs Hn Hsub Hflush Hcalls (Hf & Ho & (Hc & Hne) & Hz & Hnz).
  split; [|split; [|split]].
  - intros t task Ht. rewrite Hn. eapply Hf, Hsub, Ht.
  - intros i c' t Hi Ht. destruct (Hcalls i c' Hi) as (c & Hc0 & Htm & Hid).
    rewrite <- Htm in Ht. destruct (Ho i c t Hc0 Ht) as [Hlt Hown].
    rewrite Hn, <- Hid. split; [done|]. intros task Htask. by apply Hown, Hsub.
  - split; [by rewrite Hq, Hs|]. by rewrite Hs.
  - split; rewrite Hq.
    + intros H0 t Ht. by apply (Hz H0 t), Hsub.
    + intros H0. destruct (Hnz H0) as (t & Ht & Huniq). exists t. split; [by apply Hflush|].
      intros t' Ht'. by apply Huniq, Hsub.
Qed.

Lemma scheduler_ok_same st st' : core_same st st' → scheduler_ok st → scheduler_ok st'.
Proof.
  intros (_ & Hq & Hs & _ & Hc & Ht & Hn & _). apply scheduler_ok_shrink; try done.
  - intros t task. by rewrite Ht.
  - intros t. by rewrite Ht.
  - intros i c' Hi. exists c'. by rewrite <- Hc.
Qed.

Lemma scheduler_ok_init : scheduler_ok init.
Proof.
  split; [|split; [|split]].
  - intros t task. simpl. by rewrite lookup_empty.
  - intros i c t. simpl. by rewrite lookup_nil.
  - split; [simpl; by rewrite queued_empty|].
    intros k items. simpl. by rewrite lookup_empty.
  - split; [|done]. intros _ t. simpl. by rewrite lookup_empty.
Qed.

(** An event is queued. *)
Lemma scheduler_ok_event channel sendable payload st :
  isEvent payload = true →
  scheduler_ok st → scheduler_ok (scheduleRequest channel sendable payload st).
Proof.
  intros Hev (Hf & Ho & (Hc & Hne) & Hz & Hnz).
  unfold scheduleRequest. rewrite Hev. simpl.
  destruct (queueTick st =? 0)%N eqn:Htick.
  - apply N.eqb_eq in Htick. split; [|split; [|split]].
    + intros t task. simpl. intros [[<- _]|[_ Ht]]%lookup_insert_Some; [lia|].
      apply Hf in Ht. lia.
    + intros i c t Hi Ht. simpl in Hi. destruct (Ho i c t Hi Ht) as [Hlt Hown].
      simpl. split; [lia|]. intros task. rewrite lookup_insert_ne by lia. apply Hown.
    + split; simpl.
      * rewrite queued_push, Hc. lia.
      * intros k items [[_ <-]|[_ Hk]]%lookup_insert_Some; [|by eapply Hne].
        by destruct (default [] _).
    + split; unfold flushPending; simpl; [intros; lia|]. intros _. exists (next_timer st). split.
      * apply lookup_insert_eq.
      * intros t' [[Heq _]|[_ Ht']]%lookup_insert_Some; [done|].
        by destruct (Hz Htick t').
  - apply N.eqb_neq in Htick. split; [|split; [|split]]; simpl; try done.
    + split; simpl.
      * rewrite queued_push, Hc. lia.
      * intros k items [[_ <-]|[_ Hk]]%lookup_insert_Some; [|by eapply Hne].
        by destruct (default [] _).
    + split; simpl; [intros; lia|]. intros _. by apply Hnz.
Qed.

(** A call is recorded, with or without a timer. *)
Lemma scheduler_ok_grow st st' c :
  queueTick st' = queueTick st →
  scheduleQueue st' = scheduleQueue st →
  calls st' = calls st ++ [c] →
  (match timer c with
   | Some t =>
       t = next_timer st ∧ next_timer st' = S (next_timer st)
       ∧ ∃ m dl, timers st'
                 = <[t := TimeoutTask (length (calls st)) (call_id c) m dl]> (timers st)
   | None => next_timer st' = next_timer st ∧ timers st' = timers st
   end) →
  scheduler_ok st → scheduler_ok st'.
Proof.
  intros Hq Hs Hcalls Htimer (Hf & Ho & (Hc & Hne) & Hz & Hnz).
  assert (∀ t task, timers st' !! t = Some task →
            t < next_timer st'
            ∧ (timers st !! t = Some task
               ∨ timer c = Some t ∧ t = next_timer st
                 ∧ ∃ m dl, task = TimeoutTask (length (calls st)) (call_id c) m dl))
    as Hnew.
  { intros t task Ht. destruct (timer c) as [tc|].
    - destruct Htimer as (-> & Hn & m & dl & Htm). rewrite Hn. rewrite Htm in Ht.
      apply lookup_insert_Some in Ht as [[<- <-]|[_ Ht]].
      + split; [lia|]. right. eauto.
      + split; [apply Hf in Ht; lia|by left].
    - destruct Htimer as [Hn Htm]. rewrite Hn. rewrite Htm in Ht.
      split; [by eapply Hf|by left]. }
  assert (next_timer st ≤ next_timer st') as Hmono.
  { destruct (timer c); [destruct Htimer as (_ & -> & _); lia|].
    destruct Htimer as [-> _]. lia. }
  assert (∀ t, timers st !! t = Some FlushTask ↔ timers st' !! t = Some FlushTask)
    as Hflush.
  { intros t. split.
    - intros Ht. destruct (timer c) as [tc|].
      + destruct Htimer as (-> & _ & m & dl & ->).
        rewrite lookup_insert_ne; [done|]. apply Hf in Ht. lia.
      + destruct Htimer as [_ ->]. done.
    - intros Ht. destruct (Hnew t _ Ht) as [_ [?|(_ & _ & m & dl & ?)]]; done. }
  split; [|split; [|split]].
  - intros t task Ht. by apply Hnew in Ht as [? _].
  - intros i c' t Hi Ht. rewrite Hcalls in Hi.
    apply lookup_app_Some in Hi as [Hi|[Hlen Hi]].
    + destruct (Ho i c' t Hi Ht) as [Hlt Hown]. split; [lia|].
      intros task Htask.
      destruct (Hnew t _ Htask) as [_ [?|(_ & -> & _)]]; [by apply Hown|lia].
    + destruct (i - length (calls st)) as [|n] eqn:Hn; [|by destruct n].
      simpl in Hi. injection Hi as <-. assert (i = length (calls st)) as -> by lia.
      rewrite Ht in Htimer. destruct Htimer as (-> & Hnx & m & dl & Htm).
      split; [lia|]. intros task. rewrite Htm, lookup_insert_eq. intros [= <-]. eauto.
  - split; [by rewrite Hq, Hs|]. by rewrite Hs.
  - split; rewrite Hq.
    + intros H0 t Ht. by apply (Hz H0 t), Hflush.
    + intros H0. destruct (Hnz H0) as (t & Ht & Huniq). exists t.
      split; [by apply Hflush|]. intros t' Ht'. by apply Huniq, Hflush.
Qed.

Lemma scheduler_ok_send gs dt now target m args cb timeout st :
  scheduler_ok st → scheduler_ok (send gs dt now target m args cb timeout st).2.
Proof.
  intros Hok. destruct cb as [cb|].
  - destruct (getSender gs target) as [s|] eqn:Hs.
    + destruct (send_call_fields gs dt now target m args cb timeout st s Hs)
        as (_ & _ & _ & Hcalls & Htimers & Hnext & Hqueue & Htick & _).
      eapply scheduler_ok_grow; [exact Htick|exact Hqueue|exact Hcalls| |exact Hok].
      cbn [timer call_id]. destruct (timeoutEnabled _).
      * split; [done|]. split; [done|]. eauto.
      * done.
    + unfold send. simpl. rewrite Hs. simpl. unfold rejectReleased.
      eapply scheduler_ok_grow; [| |simpl; reflexivity| |exact Hok]; done.
  - unfold send. destruct (getSender gs target) as [s|]; [|done].
    by apply scheduler_ok_event.
Qed.

Lemma core_same_flushOne st e : core_same st (flushOne st e).
Proof.
  unfold flushOne. destruct e.2 as [|[[ch s] p] rest]; [apply core_same_refl|].
  destruct (bool_decide _); apply core_same_beforeSend.
Qed.

Lemma scheduler_ok_fireTimer t st : scheduler_ok st → scheduler_ok (fireTimer t st).
Proof.
  intros Hok. unfold fireTimer. destruct (timers st !! t) as [task|] eqn:Ht; [|done].
  destruct task as [c id m dl|].
  - unfold timeout_callback.
    change (calls (set_timers (delete t (timers st)) st)) with (calls st).
    assert (∀ st', queueTick st' = queueTick st → scheduleQueue st' = scheduleQueue st →
              next_timer st' = next_timer st → timers st' = delete t (timers st) →
              (∀ i c', calls st' !! i = Some c' →
                 ∃ c, calls st !! i = Some c ∧ timer c = timer c'
                      ∧ call_id c = call_id c') →
              scheduler_ok st') as Hgo.
    { intros st' Hq Hs Hn Htm Hcalls. apply (scheduler_ok_shrink st); try done.
      - intros t' task. rewrite Htm. by intros [_ ?]%lookup_delete_Some.
      - intros t' Ht'. rewrite Htm. apply lookup_delete_Some. split; [|done].
        intros <-. by rewrite Ht in Ht'. }
    destruct (calls st !! c) as [call|] eqn:Hc.
    + destruct (resolved call).
      * apply Hgo; try done. intros i c' Hi. by exists c'.
      * apply Hgo; try done. intros i c' Hi. simpl in Hi.
        destruct (decide (i = c)) as [->|Hne].
        -- rewrite list_lookup_insert_eq in Hi by (by eapply lookup_lt_Some).
           injection Hi as <-. by exists call.
        -- rewrite list_lookup_insert_ne in Hi by done. by exists c'.
    + apply Hgo; try done. intros i c' Hi. by exists c'.
  - destruct Hok as (Hf & Ho & (Hc & Hne) & Hz & Hnz).
    eapply scheduler_ok_same.
    { unfold flushQueue. apply core_same_foldl. intros. apply core_same_flushOne. }
    split; [|split; [|split]].
    + intros t' task. simpl. intros [_ ?]%lookup_delete_Some. by eapply Hf.
    + intros i c t' Hi Ht'. simpl in *. destruct (Ho i c t' Hi Ht') as [Hlt Hown].
      split; [done|]. intros task [_ ?]%lookup_delete_Some. by apply Hown.
    + split; simpl; [by rewrite queued_empty|].
      intros k items. by rewrite lookup_empty.
    + split; simpl; [|done]. intros _ t' [Hne' Ht']%lookup_delete_Some.
      destruct (decide (queueTick st = 0%N)) as [H0|H0].
      * by destruct (Hz H0 t).
      * destruct (Hnz H0) as (t0 & _ & Huniq).
        apply Huniq in Ht, Ht'. congruence.
Qed.

Lemma scheduler_ok_handleRPCResponse res st :
  scheduler_ok st → scheduler_ok (state_of (handleRPCResponse res st)).
Proof.
  intros Hok. unfold handleRPCResponse.
  destruct (property (responder st) (response_id res)) as [r| |]; [|done..].
  assert (∀ s, scheduler_ok (responder_callback (closure r) s st)) as Hcb.
  { intros s. unfold responder_callback.
    destruct (calls st !! closure r) as [call|] eqn:Hc; [|done].
    destruct (resolved call); [done|].
    destruct (timer call) as [t|] eqn:Htm.
    - apply (scheduler_ok_shrink st); try done.
      + intros t' task. simpl. by intros [_ ?]%lookup_delete_Some.
      + intros t' Ht'. simpl. apply lookup_delete_Some. split; [|done].
        intros <-. destruct Hok as (_ & Ho & _).
        destruct (Ho _ _ _ Hc Htm) as [_ Hown].
        by destruct (Hown _ Ht') as (? & ? & ?).
      + intros i c' Hi. simpl in Hi. destruct (decide (i = closure r)) as [->|Hne].
        * rewrite list_lookup_insert_eq in Hi by (by eapply lookup_lt_Some).
          injection Hi as <-. by exists call.
        * rewrite list_lookup_insert_ne in Hi by done. by exists c'.
    - apply (scheduler_ok_shrink st); try done.
      intros i c' Hi. simpl in Hi. destruct (decide (i = closure r)) as [->|Hne].
      + rewrite list_lookup_insert_eq in Hi by (by eapply lookup_lt_Some).
        injection Hi as <-. by exists call.
      + rewrite list_lookup_insert_ne in Hi by done. by exists c'. }
  destruct (settlement_of res r) as [s|x]; [|done]. simpl.
  apply (scheduler_ok_shrink (responder_callback (closure r) s st)); try done.
  intros i c' Hi. by exists c'.
Qed.

Lemma scheduler_ok_reachable dt st : reachable dt st → scheduler_ok st.
Proof.
  unfold reachable. revert st. apply rtc_ind_r; [apply scheduler_ok_init|].
  intros y z _ Hstep IH. destruct Hstep.
  - by apply scheduler_ok_send.
  - by apply scheduler_ok_fireTimer.
  - destruct res as [|res]; simpl; [done|]. by apply scheduler_ok_handleRPCResponse.
  - eapply scheduler_ok_same; [apply core_same_handleRequest|done].
  - eapply scheduler_ok_same; [apply core_same_settlePromise|done].
  - eapply scheduler_ok_same; [apply core_same_on|done].
  - eapply scheduler_ok_same; [apply core_same_off|done].
  - eapply scheduler_ok_same; [apply core_same_removeAllListener|done].
  - eapply scheduler_ok_same; [apply core_same_registerHandler|done].
  - eapply scheduler_ok_same; [apply core_same_unregisterHandler|done].
Qed.

(** In every state the engine can reach, [queueTick] is the number of
    queued events, no key of the queue holds an empty list, and a flush
    is pending exactly when events are queued: with no event queued no
    timer runs [flushQueue], and with events queued exactly one does. *)
Theorem queued_events_await_flush (dt : JSNumber) (st : State) :
  reachable dt st →
  queueTick st = N.of_nat (queued (scheduleQueue st))
  ∧ (∀ k items, scheduleQueue st !! k = Some items → items ≠ [])
  ∧ (queueTick st = 0%N → ∀ t, timers st !! t ≠ Some FlushTask)
  ∧ (queueTick st ≠ 0%N → flushPending st).
Proof.
  intros Hr. destruct (scheduler_ok_reachable dt st Hr) as (_ & _ & [Hc Hne] & Hz & Hnz).
  done.
Qed.

Lemma one_emit_reachable : reachable (Finite 30000) one_emit.
Proof. apply rtc_once. apply (step_send _ world 0 (ContentsId 1) "e" VNull None None). Qed.

Lemma queued_events_await_flush_witness :
  reachable (Finite 30000) one_emit
  ∧ queueTick one_emit = 1%N
  ∧ flushPending one_emit.
Proof.
  split; [exact one_emit_reachable|]. split; [reflexivity|].
  by apply (queued_events_await_flush (Finite 30000) one_emit one_emit_reachable).
Defined.

(** In every state the engine can reach, a response settles only the call
    it answers: the other responder entries stay and belong to other
    calls, the other calls are as they were, and the only timer that can
    be cancelled is the timeout of the answered call; a pending flush and
    the timeouts of other calls stay pending.  This holds as well when
    [handleRPCResponse] throws. *)
Theorem response_settles_only_its_call (dt : JSNumber) (res : JSONRPCResponse)
    (r : Responder) (st : State) :
  reachable dt st →
  responder st !! response_id res = Some r →
  let st' := state_of (handleRPCResponse res st) in
  (∀ id', id' ≠ response_id res → responder st' !! id' = responder st !! id')
  ∧ (∀ id' r', id' ≠ response_id res → responder st !! id' = Some r' →
               closure r' ≠ closure r)
  ∧ (∀ i, i ≠ closure r → calls st' !! i = calls st !! i)
  ∧ (∀ t task, timers st !! t = Some task →
               timers st' !! t = Some task
               ∨ ∃ m dl, task = TimeoutTask (closure r) (response_id res) m dl).
Proof.
  intros Hreach Hr st'.
  destruct (Inv_reachable dt st Hreach) as (Hpend & _ & _).
  destruct (scheduler_ok_reachable dt st Hreach) as (_ & Hown & _ & _).
  destruct (Hpend _ _ Hr) as (c & Hc & Hid & Hres & _).
  assert (∀ id' r', id' ≠ response_id res → responder st !! id' = Some r' →
                    closure r' ≠ closure r) as Hothers.
  { intros id' r' Hne Hr' Heq. destruct (Hpend _ _ Hr') as (c' & Hc' & Hid' & _).
    rewrite Heq, Hc in Hc'. injection Hc' as <-. congruence. }
  destruct (settlement_of res r) as [s|x] eqn:Hs.
  - destruct (handleRPCResponse_entry res r s c st Hr Hs Hc Hres)
      as (st1 & Hst1 & Hcalls & Htimers & Hresp & _).
    subst st'. rewrite Hst1. cbn [state_of]. split; [|split; [|split]].
    + intros id' Hne. rewrite Hresp. by apply lookup_delete_ne.
    + exact Hothers.
    + intros i Hne. rewrite Hcalls. by apply list_lookup_insert_ne.
    + intros t task Ht. rewrite Htimers.
      destruct (timer c) as [t0|] eqn:Htm; [|by left].
      destruct (decide (t = t0)) as [->|Hne].
      * right. destruct (Hown _ _ _ Hc Htm) as [_ Hmine].
        destruct (Hmine _ Ht) as (m & dl & ->). rewrite Hid. eauto.
      * left. by rewrite lookup_delete_ne.
  - assert (st' = st) as ->.
    { subst st'. unfold handleRPCResponse.
      by rewrite (property_Some _ _ _ Hr), Hs. }
    split; [done|]. split; [exact Hothers|]. split; [done|]. intros; by left.
Qed.

Lemma two_calls_reachable : reachable (Finite 30000) two_calls.
Proof.
  eapply rtc_r; [exact one_call_reachable|].
  apply (step_send _ world 1700000000001 (ContentsId 1) "pong" VNull (Some 1) None).
Qed.

Lemma response_settles_only_its_call_witness :
  reachable (Finite 30000) two_calls
  ∧ responder two_calls !! "11700000000000"
    = Some {| closure := 0; name := "ping"; args := VNull |}
  ∧ let st' := state_of (handleRPCResponse
                           (JSONRPCResponseSuccess "11700000000000" VNull)
                           two_calls) in
    responder st' !! "21700000000001"
    = Some {| closure := 1; name := "pong"; args := VNull |}
    ∧ calls st' !! 1
      = Some {| callback := 1; call_id := "21700000000001"; resolved := false;
                timer := Some 2; settlements := [] |}
    ∧ timers st' !! 2
      = Some (TimeoutTask 1 "21700000000001" "pong" (Finite 30000)).
Proof.
  split; [exact two_calls_reachable|]. split; [reflexivity|].
  destruct (response_settles_only_its_call (Finite 30000)
              (JSONRPCResponseSuccess "11700000000000" VNull)
              {| closure := 0; name := "ping"; args := VNull |} two_calls
              two_calls_reachable eq_refl) as (Hresp & _ & Hcalls & Htimers).
  split; [|split].
  - rewrite (Hresp "21700000000001"); [reflexivity|discriminate].
  - rewrite (Hcalls 1); [reflexivity|discriminate].
  - destruct (Htimers 2 (TimeoutTask 1 "21700000000001" "pong" (Finite 30000))
                eq_refl) as [H|(m & dl & H)]; [exact H|discriminate H].
Defined.
